(** * AgoraRecorder: a shallow embedding of the recorder wrapper

    The development follows [src/AgoraRecorder.ts] and its later revision
    (the variant that adds a log level and a join timeout).  The wrapper
    is a thin object around a native recording engine: its constructor
    fills in defaults, creates the recording directory and subscribes a
    relay to every engine callback; [start] writes [cfg.json], submits the
    join request and arbitrates the two completion callbacks into one
    promise.

    The embedding is organised bottom up:
    - the library functions the wrapper calls ([path.resolve],
      [path.join], fecha's [format], [JSON.stringify]),
    - the mutable world (object heap, file system, emitter listeners,
      promises, timers) together with the log of observable effects,
    - the methods of the class, written in a small state-and-exception
      monad,
    - the event loop that delivers native callbacks and timers,
    - the properties. *)

From Stdlib Require Import Ascii ZArith Lia.
From Stdlib Require String DecimalString.
From stdpp Require Import base option list strings gmap.

(** String concatenation unfolds under [simpl] when its first argument is
    a constructor, as list concatenation does. *)
#[local] Arguments String.append !_ _ / : simpl nomatch.

(** ** Strings *)

Module Str.

Definition eqb (a b : string) : bool := String.eqb a b.

Definition slash : ascii := "/"%char.

Definition is_slash (c : ascii) : bool := Ascii.eqb c slash.

(** [s.charCodeAt(0) === CHAR_FORWARD_SLASH] *)
Definition starts_with_slash (s : string) : bool :=
  match s with
  | String c _ => is_slash c
  | EmptyString => false
  end.

(** [s.charCodeAt(s.length - 1) === CHAR_FORWARD_SLASH] *)
Fixpoint ends_with_slash (s : string) : bool :=
  match s with
  | EmptyString => false
  | String c EmptyString => is_slash c
  | String _ rest => ends_with_slash rest
  end.

(** [s.split('/')]: the pieces between separators, never an empty list. *)
Fixpoint split_slash (s : string) : list string :=
  match s with
  | EmptyString => [EmptyString]
  | String c rest =>
      if is_slash c then EmptyString :: split_slash rest
      else match split_slash rest with
           | seg :: segs => String c seg :: segs
           | [] => [String c EmptyString]
           end
  end.

(** [segs.join('/')] *)
Definition join_slash (segs : list string) : string :=
  String.concat "/" segs.

(** No separator occurs in the string. *)
Fixpoint no_slash (s : string) : bool :=
  match s with
  | EmptyString => true
  | String c rest => negb (is_slash c) && no_slash rest
  end.





End Str.

(** ** Completions

    A JavaScript call either returns or throws.  Thrown values and the
    values carried by events and promises are JavaScript values; the
    engine's statistics objects are opaque to the wrapper. *)

#[local] Set Warnings "-register-all".

Inductive Value :=
| VUndefined
| VBool (b : bool)
| VNum (n : Z)
| VStr (s : string)
| VError (name message : string)
| VArray (items : list Value)
| VOpaque (id : nat).

Inductive Completion (A : Type) :=
| Normal (a : A)
| Throw (e : Value).

Arguments Normal {A} a.
Arguments Throw {A} e.

Definition is_throw {A} (c : Completion A) : bool :=
  match c with Throw _ => true | Normal _ => false end.

(** ** Node's [path] module (POSIX flavour)

    [path.resolve] and [path.join] are the two entry points the recorder
    uses.  Both funnel into [normalizeString], which walks the segments
    between separators: empty segments and ["."] are dropped, [".."]
    removes the previous segment, and, for relative paths only, a [".."]
    that cannot be cancelled is kept. *)

Module Path.

Definition normalize_step (allowAboveRoot : bool)
    (stack : list string) (seg : string) : list string :=
  if Str.eqb seg "" then stack
  else if Str.eqb seg "." then stack
  else if Str.eqb seg ".." then
    match stack with
    | top :: below =>
        if Str.eqb top ".." then
          (if allowAboveRoot then seg :: stack else stack)
        else below
    | [] => if allowAboveRoot then [seg] else []
    end
  else seg :: stack.

(** A segment that normalisation keeps as it is. *)
Definition plain (seg : string) : bool :=
  negb (Str.eqb seg "") && negb (Str.eqb seg ".") && negb (Str.eqb seg "..")
  && Str.no_slash seg.

(** The stack is kept with the last segment first. *)
Definition normalizeString (path : string) (allowAboveRoot : bool) : string :=
  Str.join_slash
    (rev (fold_left (normalize_step allowAboveRoot) (Str.split_slash path) [])).

(** [path.normalize] *)
Definition normalize (path : string) : string :=
  if Str.eqb path "" then "."
  else
    let isAbsolute := Str.starts_with_slash path in
    let trailingSeparator := Str.ends_with_slash path in
    let p := normalizeString path (negb isAbsolute) in
    if Str.eqb p "" then
      (if isAbsolute then "/" else if trailingSeparator then "./" else ".")
    else
      let p := if trailingSeparator then p +:+ "/" else p in
      if isAbsolute then "/" +:+ p else p.

(** The accumulation loop of [path.join]: non-empty arguments are glued
    with a separator; [None] is JavaScript's [joined === undefined]. *)
Fixpoint join_loop (args : list string) (joined : option string) : option string :=
  match args with
  | [] => joined
  | arg :: rest =>
      if Str.eqb arg "" then join_loop rest joined
      else join_loop rest
             (Some match joined with
                   | None => arg
                   | Some j => j +:+ "/" +:+ arg
                   end)
  end.

(** [path.join(...args)] *)
Definition join (args : list string) : string :=
  match join_loop args None with
  | None => "."
  | Some joined => normalize joined
  end.

Definition ERR_INVALID_ARG_TYPE : Value :=
  VError "TypeError" "The path argument must be of type string".

(** The right-to-left loop of [path.resolve]: [args_rev] lists the
    arguments from the last to the first, the working directory is
    consulted once they are exhausted.  An argument that is not a string
    ([None]) fails validation when the loop reaches it. *)
Fixpoint resolve_loop (cwd : string) (args_rev : list (option string))
    (resolvedPath : string) : Completion (string * bool) :=
  match args_rev with
  | [] =>
      if Str.eqb cwd "" then Normal (resolvedPath, false)
      else Normal (cwd +:+ "/" +:+ resolvedPath, Str.starts_with_slash cwd)
  | None :: _ => Throw ERR_INVALID_ARG_TYPE
  | Some p :: rest =>
      if Str.eqb p "" then resolve_loop cwd rest resolvedPath
      else
        let resolvedPath := p +:+ "/" +:+ resolvedPath in
        if Str.starts_with_slash p then Normal (resolvedPath, true)
        else resolve_loop cwd rest resolvedPath
  end.

(** [path.resolve(...args)] in a process whose working directory is [cwd]. *)
Definition resolve (cwd : string) (args : list (option string)) : Completion string :=
  match resolve_loop cwd (rev args) "" with
  | Throw e => Throw e
  | Normal (resolvedPath, resolvedAbsolute) =>
      let p := normalizeString resolvedPath (negb resolvedAbsolute) in
      if resolvedAbsolute then Normal ("/" +:+ p)
      else if Str.eqb p "" then Normal "."
      else Normal p
  end.

End Path.

(** ** Dates and fecha's [format]

    A [Date] is read through its local-time getters; [getMonth] counts
    from zero as in JavaScript. *)

Record Date := {
  getFullYear : nat;
  getMonth : nat;
  getDate : nat;
  getHours : nat;
  getMinutes : nat;
  getSeconds : nat
}.

Module Fecha.

(** [String(n)] for a non-negative integer. *)
Definition decimal (n : nat) : string :=
  DecimalString.NilZero.string_of_uint (Nat.to_uint n).

Fixpoint zeros (n : nat) : string :=
  match n with
  | O => ""
  | S k => String "0"%char (zeros k)
  end.

(** [pad(val, len)]: zeros are prepended while the text is too short. *)
Definition pad (val : nat) (len : nat) : string :=
  let s := decimal val in
  zeros (len - String.length s) +:+ s.

(** The mask is scanned from the left; the tokens the recorder's masks
    use ([YYYY], [MM], [DD], [HH], [mm], [ss]) are replaced, every other
    character is copied.  [skip] counts the characters of a token that
    has already been replaced. *)
Fixpoint format_from (d : Date) (skip : nat) (mask : string) : string :=
  match mask with
  | EmptyString => ""
  | String c rest =>
      match skip with
      | S k => format_from d k rest
      | O =>
          if String.prefix "YYYY" mask then pad (getFullYear d) 4 +:+ format_from d 3 rest
          else if String.prefix "MM" mask then pad (getMonth d + 1) 2 +:+ format_from d 1 rest
          else if String.prefix "DD" mask then pad (getDate d) 2 +:+ format_from d 1 rest
          else if String.prefix "HH" mask then pad (getHours d) 2 +:+ format_from d 1 rest
          else if String.prefix "mm" mask then pad (getMinutes d) 2 +:+ format_from d 1 rest
          else if String.prefix "ss" mask then pad (getSeconds d) 2 +:+ format_from d 1 rest
          else String c (format_from d 0 rest)
      end
  end.

Definition format (d : Date) (mask : string) : string := format_from d 0 mask.

End Fecha.

(** ** [JSON.stringify] on objects with string members

    [start] serialises the object literal [{ Recording_Dir: ... }].  The
    serialiser follows ECMAScript's [QuoteJSONString]: the quote, the
    backslash and the control characters are escaped, every other
    character is copied; members are written without any white space.
    Strings are sequences of bytes here, so the file content is the very
    same byte sequence. *)

Module JSON.

Definition dquote : ascii := "034"%char.
Definition backslash : ascii := "092"%char.

Definition hex_digit (n : nat) : ascii :=
  nth n ["0"; "1"; "2"; "3"; "4"; "5"; "6"; "7";
         "8"; "9"; "a"; "b"; "c"; "d"; "e"; "f"]%char "0"%char.

Definition escape (c : ascii) : string := String backslash (String c "").

Definition quote_char (c : ascii) : string :=
  let n := nat_of_ascii c in
  if Nat.eqb n 34 then escape dquote
  else if Nat.eqb n 92 then escape backslash
  else if Nat.eqb n 8 then escape "b"
  else if Nat.eqb n 12 then escape "f"
  else if Nat.eqb n 10 then escape "n"
  else if Nat.eqb n 13 then escape "r"
  else if Nat.eqb n 9 then escape "t"
  else if Nat.ltb n 32 then
    String backslash
      ("u00" +:+ String (hex_digit (Nat.div n 16)) (String (hex_digit (Nat.modulo n 16)) ""))
  else String c "".

Fixpoint quote_body (s : string) : string :=
  match s with
  | EmptyString => ""
  | String c rest => quote_char c +:+ quote_body rest
  end.

(** [QuoteJSONString(s)] *)
Definition quote (s : string) : string :=
  String dquote (quote_body s +:+ String dquote "").

(** The text between two quotes, as it is. *)
Definition in_quotes (s : string) : string :=
  String dquote (s +:+ String dquote "").

(** No character of the string needs an escape. *)
Fixpoint printable (s : string) : bool :=
  match s with
  | EmptyString => true
  | String c rest =>
      Nat.leb 32 (nat_of_ascii c) && negb (Ascii.eqb c dquote)
      && negb (Ascii.eqb c backslash) && printable rest
  end.

Definition member (kv : string * string) : string :=
  quote (fst kv) +:+ ":" +:+ quote (snd kv).

(** [JSON.stringify(obj)] for an object whose own properties, in
    insertion order, are [fields]. *)
Definition stringify (fields : list (string * string)) : string :=
  "{" +:+ String.concat "," (map member fields) +:+ "}".

(** *** A reader for the same fragment

    The reader accepts any JSON text that denotes an object with string
    members, white space included, and returns the members.  It is a
    character-driven automaton; it is what gives a meaning to "the
    document denotes this object". *)

Inductive Ctx :=
| InKey (done : list (string * string))
| InValue (done : list (string * string)) (key : string).

Inductive PState :=
| P_start
| P_first (done : list (string * string))
| P_key (done : list (string * string))
| P_str (ctx : Ctx) (acc : list ascii)
| P_esc (ctx : Ctx) (acc : list ascii)
| P_hex (ctx : Ctx) (acc : list ascii) (digits : list nat)
| P_colon (done : list (string * string)) (key : string)
| P_value (done : list (string * string)) (key : string)
| P_next (done : list (string * string))
| P_end (done : list (string * string)).

Definition is_ws (c : ascii) : bool :=
  let n := nat_of_ascii c in
  Nat.eqb n 32 || Nat.eqb n 9 || Nat.eqb n 10 || Nat.eqb n 13.

Definition hex_value (c : ascii) : option nat :=
  let n := nat_of_ascii c in
  if Nat.leb 48 n && Nat.leb n 57 then Some (n - 48)%nat
  else if Nat.leb 97 n && Nat.leb n 102 then Some (n - 87)%nat
  else if Nat.leb 65 n && Nat.leb n 70 then Some (n - 55)%nat
  else None.

Definition text (acc : list ascii) : string := String.string_of_list_ascii (rev acc).

Definition close (ctx : Ctx) (acc : list ascii) : PState :=
  match ctx with
  | InKey done => P_colon done (text acc)
  | InValue done key => P_next ((key, text acc) :: done)
  end.

Definition step (st : PState) (c : ascii) : option PState :=
  match st with
  | P_start =>
      if is_ws c then Some P_start
      else if Ascii.eqb c "{" then Some (P_first [])
      else None
  | P_first done =>
      if is_ws c then Some st
      else if Ascii.eqb c dquote then Some (P_str (InKey done) [])
      else if Ascii.eqb c "}" then Some (P_end done)
      else None
  | P_key done =>
      if is_ws c then Some st
      else if Ascii.eqb c dquote then Some (P_str (InKey done) [])
      else None
  | P_str ctx acc =>
      if Ascii.eqb c dquote then Some (close ctx acc)
      else if Ascii.eqb c backslash then Some (P_esc ctx acc)
      else if Nat.ltb (nat_of_ascii c) 32 then None
      else Some (P_str ctx (c :: acc))
  | P_esc ctx acc =>
      if Ascii.eqb c dquote then Some (P_str ctx (dquote :: acc))
      else if Ascii.eqb c backslash then Some (P_str ctx (backslash :: acc))
      else if Ascii.eqb c "/" then Some (P_str ctx ("/"%char :: acc))
      else if Ascii.eqb c "b" then Some (P_str ctx ("008"%char :: acc))
      else if Ascii.eqb c "f" then Some (P_str ctx ("012"%char :: acc))
      else if Ascii.eqb c "n" then Some (P_str ctx ("010"%char :: acc))
      else if Ascii.eqb c "r" then Some (P_str ctx ("013"%char :: acc))
      else if Ascii.eqb c "t" then Some (P_str ctx ("009"%char :: acc))
      else if Ascii.eqb c "u" then Some (P_hex ctx acc [])
      else None
  | P_hex ctx acc digits =>
      match hex_value c with
      | None => None
      | Some d =>
          match digits with
          | [d1; d2; d3] =>
              let code := (((d1 * 16 + d2) * 16 + d3) * 16 + d)%nat in
              if Nat.ltb code 256 then Some (P_str ctx (ascii_of_nat code :: acc))
              else None
          | _ => Some (P_hex ctx acc (digits ++ [d]))
          end
      end
  | P_colon done key =>
      if is_ws c then Some st
      else if Ascii.eqb c ":" then Some (P_value done key)
      else None
  | P_value done key =>
      if is_ws c then Some st
      else if Ascii.eqb c dquote then Some (P_str (InValue done key) [])
      else None
  | P_next done =>
      if is_ws c then Some st
      else if Ascii.eqb c "," then Some (P_key done)
      else if Ascii.eqb c "}" then Some (P_end done)
      else None
  | P_end done => if is_ws c then Some st else None
  end.

Fixpoint run (st : PState) (s : string) : option (list (string * string)) :=
  match s with
  | EmptyString => match st with P_end done => Some (rev done) | _ => None end
  | String c rest =>
      match step st c with
      | Some st' => run st' rest
      | None => None
      end
  end.

Definition parse (s : string) : option (list (string * string)) := run P_start s.

End JSON.

(** ** The engine's callback kinds

    The members of [AgoraRecorderEvent] the wrapper relays, in the order
    [initEventHandler] subscribes to them. *)

Inductive AgoraRecorderEvent :=
| REC_EVENT_JOIN_CHANNEL
| REC_EVENT_LEAVE_CHANNEL
| REC_EVENT_ERROR
| REC_EVENT_USER_JOIN
| REC_EVENT_USER_LEAVE
| REC_EVENT_ACTIVE_SPEAKER
| REC_EVENT_CONN_LOST
| REC_EVENT_CONN_INTER
| REC_EVENT_STREAM_CHANGED
| REC_EVENT_FIRST_VIDEO_FRAME
| REC_EVENT_FIRST_AUDIO_FRAME
| RTC_EVENT_AUDIO_VOLUME_INDICATION
| REC_EVENT_REMOTE_VIDEO_STREAM_STATE_CHANGED
| REC_EVENT_REMOTE_AUDIO_STREAM_STATE_CHANGED
| REC_EVENT_REJOIN_SUCCESS
| REC_EVENT_CONN_STATE_CHANGED
| REC_EVENT_REMOTE_VIDEO_STATS
| REC_EVENT_REMOTE_AUDIO_STATS
| REC_EVENT_RECORDING_STATS
| REC_EVENT_LOCAL_USER_REGISTER
| REC_EVENT_USER_INFO_UPDATED.

#[global] Instance AgoraRecorderEvent_eq_dec : EqDecision AgoraRecorderEvent.
Proof. solve_decision. Defined.

Definition event_eqb (a b : AgoraRecorderEvent) : bool := bool_decide (a = b).

Definition relayed_events : list AgoraRecorderEvent :=
  [ REC_EVENT_JOIN_CHANNEL; REC_EVENT_LEAVE_CHANNEL; REC_EVENT_ERROR;
    REC_EVENT_USER_JOIN; REC_EVENT_USER_LEAVE; REC_EVENT_ACTIVE_SPEAKER;
    REC_EVENT_CONN_LOST; REC_EVENT_CONN_INTER; REC_EVENT_STREAM_CHANGED;
    REC_EVENT_FIRST_VIDEO_FRAME; REC_EVENT_FIRST_AUDIO_FRAME;
    RTC_EVENT_AUDIO_VOLUME_INDICATION;
    REC_EVENT_REMOTE_VIDEO_STREAM_STATE_CHANGED;
    REC_EVENT_REMOTE_AUDIO_STREAM_STATE_CHANGED;
    REC_EVENT_REJOIN_SUCCESS; REC_EVENT_CONN_STATE_CHANGED;
    REC_EVENT_REMOTE_VIDEO_STATS; REC_EVENT_REMOTE_AUDIO_STATS;
    REC_EVENT_RECORDING_STATS; REC_EVENT_LOCAL_USER_REGISTER;
    REC_EVENT_USER_INFO_UPDATED ].

(** The number of parameters each relay closure declares and forwards. *)
Definition relay_arity (e : AgoraRecorderEvent) : nat :=
  match e with
  | REC_EVENT_JOIN_CHANNEL => 2
  | REC_EVENT_LEAVE_CHANNEL => 0
  | REC_EVENT_ERROR => 2
  | REC_EVENT_USER_JOIN => 1
  | REC_EVENT_USER_LEAVE => 1
  | REC_EVENT_ACTIVE_SPEAKER => 1
  | REC_EVENT_CONN_LOST => 0
  | REC_EVENT_CONN_INTER => 0
  | REC_EVENT_STREAM_CHANGED => 2
  | REC_EVENT_FIRST_VIDEO_FRAME => 4
  | REC_EVENT_FIRST_AUDIO_FRAME => 2
  | RTC_EVENT_AUDIO_VOLUME_INDICATION => 2
  | REC_EVENT_REMOTE_VIDEO_STREAM_STATE_CHANGED => 3
  | REC_EVENT_REMOTE_AUDIO_STREAM_STATE_CHANGED => 3
  | REC_EVENT_REJOIN_SUCCESS => 2
  | REC_EVENT_CONN_STATE_CHANGED => 2
  | REC_EVENT_REMOTE_VIDEO_STATS => 2
  | REC_EVENT_REMOTE_AUDIO_STATS => 2
  | REC_EVENT_RECORDING_STATS => 1
  | REC_EVENT_LOCAL_USER_REGISTER => 2
  | REC_EVENT_USER_INFO_UPDATED => 2
  end.

(** The arguments a closure with [n] declared parameters sees: extra
    arguments are dropped, missing ones read as [undefined]. *)
Fixpoint parameters (n : nat) (args : list Value) : list Value :=
  match n with
  | O => []
  | S k =>
      match args with
      | [] => VUndefined :: parameters k []
      | a :: rest => a :: parameters k rest
      end
  end.

(** ** Configuration objects

    [AgoraRecorderConfig] as declared by the interface.  Optional members
    are absent ([None]) or present.  The member called [account] here is
    named [userAccount] in the later revision; [logLevel] exists in the
    later revision only. *)

Record TmplArg := {
  tmpl_channel : string;
  tmpl_date : Date
}.

Record AgoraRecorderConfig := {
  appId : string;
  certificate : string;
  channel : string;
  account : option string;
  outputDir : option string;
  recordDirTmpl : option (TmplArg -> string);
  logLevel : option Z
}.

Definition with_account (v : string) (c : AgoraRecorderConfig) : AgoraRecorderConfig :=
  {| appId := appId c; certificate := certificate c; channel := channel c;
     account := Some v; outputDir := outputDir c;
     recordDirTmpl := recordDirTmpl c; logLevel := logLevel c |}.

Definition with_outputDir (v : string) (c : AgoraRecorderConfig) : AgoraRecorderConfig :=
  {| appId := appId c; certificate := certificate c; channel := channel c;
     account := account c; outputDir := Some v;
     recordDirTmpl := recordDirTmpl c; logLevel := logLevel c |}.

Definition with_recordDirTmpl (v : TmplArg -> string) (c : AgoraRecorderConfig)
  : AgoraRecorderConfig :=
  {| appId := appId c; certificate := certificate c; channel := channel c;
     account := account c; outputDir := outputDir c;
     recordDirTmpl := Some v; logLevel := logLevel c |}.

(** [!s] for an optional string: absent or empty. *)
Definition falsy_string (o : option string) : bool :=
  match o with
  | None => true
  | Some s => Str.eqb s ""
  end.

(** [!f] for an optional closure: absent. *)
Definition falsy_function {A : Type} (o : option A) : bool :=
  match o with
  | None => true
  | Some _ => false
  end.

(** The value of [config.logLevel] when it is truthy (present and not zero). *)
Definition truthy_number (o : option Z) : option Z :=
  match o with
  | Some n => if Z.eqb n 0 then None else Some n
  | None => None
  end.

(** The default naming closure,
    [({ channel, date }) => `${formatDate(date, 'YYYY-MM-DD')}/${formatDate(date, 'HH:mm:ss')} ${channel}`]. *)
Definition default_recordDirTmpl (a : TmplArg) : string :=
  Fecha.format (tmpl_date a) "YYYY-MM-DD" +:+ "/" +:+
  Fecha.format (tmpl_date a) "HH:mm:ss" +:+ " " +:+ tmpl_channel a.

(** ** Tokens

    [RtcTokenBuilder.buildTokenWithAccount] is the vendor's signing
    function; the wrapper only passes its result on, so a token is kept as
    the record of the call that produced it. *)

Inductive RtcRole := PUBLISHER | SUBSCRIBER.

Inductive Token :=
| buildTokenWithAccount (appID appCertificate channelName : string)
    (acct : option string) (role : RtcRole) (privilegeExpiredTs : Z).

(** ** Observable effects

    Every call the wrapper makes on a collaborator (file system, engine,
    timers, console, promise capabilities, subscribers) is appended to a
    log, in program order. *)

Inductive Outcome :=
| Pending
| Fulfilled (v : Value)
| Rejected (reason : Value).

Inductive Effect :=
| FsMkdirSync (path : string)
| FsWriteFile (path content : string)
| SdkConstruct
| SdkSetLogLevel (level : Z)
| SdkOn (e : AgoraRecorderEvent)
| SdkJoinChannel (key : string) (token : Token) (name : string)
    (acct : option string) (appliteDir cfgPath : string)
| SdkLeaveChannel
| SdkRelease
| SdkSetMixLayout (layout : Value)
| EmitterOnce (e : AgoraRecorderEvent)
| SetTimeout (id : nat) (ms : Z)
| ClearTimeout (id : nat)
| ConsoleError (message : string)
| Settled (promise : nat) (o : Outcome)
| Delivered (subscriber : nat) (e : AgoraRecorderEvent) (args : list Value).

(** ** The world

    One process, one recorder: the state holds the configuration objects
    the owner can reach, the file system, the engine's subscriptions, the
    recorder's emitter, and the promises and timers of the event loop.
    Listeners are closures; the three shapes that occur are the two
    arbitration closures [start] installs, each remembering its promise
    and the timer of its call, and callbacks of external subscribers. *)

Inductive Handler :=
| H_join_resolve (promise : nat) (timeout : option nat)
| H_error_reject (promise : nat) (timeout : option nat)
| H_subscriber (id : nat).

Record Listener := {
  l_event : AgoraRecorderEvent;
  l_once : bool;
  l_handler : Handler
}.

Inductive TimerState := Armed | Fired | Cleared.

(** A call of [start] suspended at [await fsPromises.writeFile(...)]. *)
Record Suspended := {
  s_cfgPath : string;
  s_content : string
}.

Record State := {
  heap : gmap nat AgoraRecorderConfig;   (* configuration objects, by reference *)
  cwd : string;                          (* process.cwd() *)
  clock : Date;                          (* what [new Date()] reads *)
  fs_denied : string -> bool;            (* paths on which the file system fails *)
  fs_dirs : gset string;
  fs_files : gmap string string;
  sdk_handlers : list AgoraRecorderEvent;  (* callbacks subscribed on the engine *)
  listeners : list Listener;             (* the recorder's own emitter *)
  promises : list Outcome;
  timers : list TimerState;
  awaiting : gmap nat Suspended;
  log : list Effect
}.

Definition set_heap (f : gmap nat AgoraRecorderConfig -> gmap nat AgoraRecorderConfig)
    (st : State) : State :=
  {| heap := f (heap st); cwd := cwd st; clock := clock st; fs_denied := fs_denied st;
     fs_dirs := fs_dirs st; fs_files := fs_files st; sdk_handlers := sdk_handlers st;
     listeners := listeners st; promises := promises st; timers := timers st;
     awaiting := awaiting st; log := log st |}.

Definition set_fs_dirs (f : gset string -> gset string) (st : State) : State :=
  {| heap := heap st; cwd := cwd st; clock := clock st; fs_denied := fs_denied st;
     fs_dirs := f (fs_dirs st); fs_files := fs_files st; sdk_handlers := sdk_handlers st;
     listeners := listeners st; promises := promises st; timers := timers st;
     awaiting := awaiting st; log := log st |}.

Definition set_fs_files (f : gmap string string -> gmap string string) (st : State) : State :=
  {| heap := heap st; cwd := cwd st; clock := clock st; fs_denied := fs_denied st;
     fs_dirs := fs_dirs st; fs_files := f (fs_files st); sdk_handlers := sdk_handlers st;
     listeners := listeners st; promises := promises st; timers := timers st;
     awaiting := awaiting st; log := log st |}.

Definition set_sdk_handlers (f : list AgoraRecorderEvent -> list AgoraRecorderEvent)
    (st : State) : State :=
  {| heap := heap st; cwd := cwd st; clock := clock st; fs_denied := fs_denied st;
     fs_dirs := fs_dirs st; fs_files := fs_files st; sdk_handlers := f (sdk_handlers st);
     listeners := listeners st; promises := promises st; timers := timers st;
     awaiting := awaiting st; log := log st |}.

Definition set_listeners (f : list Listener -> list Listener) (st : State) : State :=
  {| heap := heap st; cwd := cwd st; clock := clock st; fs_denied := fs_denied st;
     fs_dirs := fs_dirs st; fs_files := fs_files st; sdk_handlers := sdk_handlers st;
     listeners := f (listeners st); promises := promises st; timers := timers st;
     awaiting := awaiting st; log := log st |}.

Definition set_promises (f : list Outcome -> list Outcome) (st : State) : State :=
  {| heap := heap st; cwd := cwd st; clock := clock st; fs_denied := fs_denied st;
     fs_dirs := fs_dirs st; fs_files := fs_files st; sdk_handlers := sdk_handlers st;
     listeners := listeners st; promises := f (promises st); timers := timers st;
     awaiting := awaiting st; log := log st |}.

Definition set_timers (f : list TimerState -> list TimerState) (st : State) : State :=
  {| heap := heap st; cwd := cwd st; clock := clock st; fs_denied := fs_denied st;
     fs_dirs := fs_dirs st; fs_files := fs_files st; sdk_handlers := sdk_handlers st;
     listeners := listeners st; promises := promises st; timers := f (timers st);
     awaiting := awaiting st; log := log st |}.

Definition set_awaiting (f : gmap nat Suspended -> gmap nat Suspended) (st : State) : State :=
  {| heap := heap st; cwd := cwd st; clock := clock st; fs_denied := fs_denied st;
     fs_dirs := fs_dirs st; fs_files := fs_files st; sdk_handlers := sdk_handlers st;
     listeners := listeners st; promises := promises st; timers := timers st;
     awaiting := f (awaiting st); log := log st |}.

Definition set_log (f : list Effect -> list Effect) (st : State) : State :=
  {| heap := heap st; cwd := cwd st; clock := clock st; fs_denied := fs_denied st;
     fs_dirs := fs_dirs st; fs_files := fs_files st; sdk_handlers := sdk_handlers st;
     listeners := listeners st; promises := promises st; timers := timers st;
     awaiting := awaiting st; log := f (log st) |}.

(** ** The monad of method bodies: state, and exceptions that keep the state *)

Definition M (A : Type) : Type := State -> Completion A * State.

Definition ret {A} (a : A) : M A := fun st => (Normal a, st).

Definition throw {A} (e : Value) : M A := fun st => (Throw e, st).

Definition bind {A B} (m : M A) (k : A -> M B) : M B :=
  fun st =>
    match m st with
    | (Normal a, st') => k a st'
    | (Throw e, st') => (Throw e, st')
    end.

Notation "x <- m ;; k" := (bind m (fun x => k))
  (at level 89, m at level 88, right associativity).
Notation "m ;;; k" := (bind m (fun _ => k))
  (at level 89, right associativity).

Definition gets {A} (f : State -> A) : M A := fun st => (Normal (f st), st).

Definition modify (f : State -> State) : M unit := fun st => (Normal tt, f st).

Definition lift {A} (c : Completion A) : M A := fun st => (c, st).

Definition when (b : bool) (m : M unit) : M unit := if b then m else ret tt.

Definition effect (e : Effect) : M unit := modify (set_log (fun l => l ++ [e])).

Fixpoint for_each {A} (f : A -> M unit) (l : list A) : M unit :=
  match l with
  | [] => ret tt
  | a :: rest => f a ;;; for_each f rest
  end.

(** ** Platform primitives *)

Definition TypeError (message : string) : Value := VError "TypeError" message.

Definition FsError (syscall path : string) : Value :=
  VError "Error" (syscall +:+ " failed: " +:+ path).

(** Reading a member through a reference; a reference to no object is
    what a caller passing [undefined] amounts to. *)
Definition read_config (ref : nat) : M AgoraRecorderConfig :=
  fun st =>
    match heap st !! ref with
    | Some c => (Normal c, st)
    | None => (Throw (TypeError "Cannot read properties of undefined"), st)
    end.

(** Assigning a member through a reference: the object is updated in
    place, for every holder of the reference. *)
Definition update_config (ref : nat) (f : AgoraRecorderConfig -> AgoraRecorderConfig)
  : M unit :=
  modify (set_heap (alter f ref)).

(** [fs.mkdirSync(path, { recursive: true })] *)
Definition fs_mkdirSync (path : string) : M unit :=
  effect (FsMkdirSync path) ;;;
  denied <- gets (fun st => fs_denied st path) ;;
  if denied then throw (FsError "mkdir" path)
  else modify (set_fs_dirs (fun d => {[path]} ∪ d)).

(** [new Promise(...)]: a fresh pending promise. *)
Definition new_promise : M nat :=
  fun st => (Normal (length (promises st)), set_promises (fun l => l ++ [Pending]) st).

(** The resolving functions of a promise: the first call settles it, any
    later call of either function does nothing. *)
Definition settle (promise : nat) (o : Outcome) : M unit :=
  fun st =>
    match promises st !! promise with
    | Some Pending =>
        (Normal tt,
         set_log (fun l => l ++ [Settled promise o])
           (set_promises (fun l => <[promise := o]> l) st))
    | _ => (Normal tt, st)
    end.

Definition resolve (promise : nat) (v : Value) : M unit := settle promise (Fulfilled v).

Definition reject (promise : nat) (reason : Value) : M unit := settle promise (Rejected reason).

(** [setTimeout(callback, ms)] *)
Definition setTimeout (ms : Z) : M nat :=
  id <- gets (fun st => length (timers st)) ;;
  modify (set_timers (fun l => l ++ [Armed])) ;;;
  effect (SetTimeout id ms) ;;;
  ret id.

Definition disarm (t : TimerState) : TimerState :=
  match t with
  | Armed => Cleared
  | other => other
  end.

(** [clearTimeout(id)] *)
Definition clearTimeout (id : nat) : M unit :=
  effect (ClearTimeout id) ;;;
  modify (set_timers (alter disarm id)).

(** ** The recorder's emitter ([EventEmitter]) *)

Definition add_listener (l : Listener) : M unit :=
  modify (set_listeners (fun ls => ls ++ [l])).

(** [this.once(e, handler)] from inside the class. *)
Definition once (e : AgoraRecorderEvent) (h : Handler) : M unit :=
  effect (EmitterOnce e) ;;;
  add_listener {| l_event := e; l_once := true; l_handler := h |}.

Definition listens_to (e : AgoraRecorderEvent) (l : Listener) : bool :=
  event_eqb (l_event l) e.

(** A one-shot listener of [e] is unsubscribed by the emission that calls it. *)
Definition survives (e : AgoraRecorderEvent) (l : Listener) : bool :=
  negb (listens_to e l && l_once l).

Definition first_parameter (args : list Value) : Value :=
  match args with
  | a :: _ => a
  | [] => VUndefined
  end.

(** Calling a listener with the emitted arguments. *)
Definition call_handler (e : AgoraRecorderEvent) (h : Handler) (args : list Value) : M unit :=
  match h with
  | H_join_resolve promise timeout =>
      (* () => { clearTimeout(timeout); resolve(true) } *)
      match timeout with
      | Some id => clearTimeout id
      | None => ret tt
      end ;;;
      resolve promise (VBool true)
  | H_error_reject promise timeout =>
      (* (err) => { clearTimeout(timeout); reject(err) } *)
      match timeout with
      | Some id => clearTimeout id
      | None => ret tt
      end ;;;
      reject promise (first_parameter args)
  | H_subscriber id => effect (Delivered id e args)
  end.

(** [this.emit(e, ...args)]: the listeners of [e] are called in
    subscription order, one-shot listeners leave the emitter.  The
    members of [AgoraRecorderEvent] are opaque names here; what Node does
    for an event literally named ['error'] that has no listener is not
    part of the model. *)
Definition emit (e : AgoraRecorderEvent) (args : list Value) : M unit :=
  called <- gets (fun st => filter (fun l => listens_to e l = true) (listeners st)) ;;
  modify (set_listeners (filter (fun l => survives e l = true))) ;;;
  for_each (fun l => call_handler e (l_handler l) args) called.

(** ** The class [AgoraRecorder] *)

Inductive Revision :=
| AgoraRecorder_ts   (* src/AgoraRecorder.ts *)
| part_000.          (* the revision with [logLevel] and the join timeout *)

(** The instance fields that never change once assigned; the engine
    handle [sdk] is the engine of the world. *)
Record AgoraRecorder := {
  config : nat;
  date : Date
}.


(** [get recordPath()] *)
Definition recordPath (this : AgoraRecorder) : M string :=
  c <- read_config (config this) ;;
  match recordDirTmpl c with
  | None => throw (TypeError "this.config.recordDirTmpl is not a function")
  | Some tmpl =>
      dir <- gets cwd ;;
      lift (Path.resolve dir
              [outputDir c;
               Some (tmpl {| tmpl_channel := channel c; tmpl_date := date this |})])
  end.

(** The relay closure subscribed for [e]:
    [(a, b, ...) => { this.emit(e, a, b, ...) }]. *)
Definition relay (e : AgoraRecorderEvent) (args : list Value) : M unit :=
  emit e (parameters (relay_arity e) args).

(** [this.sdk.on(e, relay)] *)
Definition sdk_on (e : AgoraRecorderEvent) : M unit :=
  effect (SdkOn e) ;;;
  modify (set_sdk_handlers (fun l => l ++ [e])).

Definition initEventHandler : M unit := for_each sdk_on relayed_events.

Definition constructor (rev : Revision) (cfg : nat) : M AgoraRecorder :=
  (* super() *)
  modify (set_listeners (fun _ => [])) ;;;
  c <- read_config cfg ;;
  when (falsy_string (account c)) (update_config cfg (with_account "agora-recorder")) ;;;
  c <- read_config cfg ;;
  when (falsy_string (outputDir c)) (update_config cfg (with_outputDir "output")) ;;;
  c <- read_config cfg ;;
  when (falsy_function (recordDirTmpl c))
       (update_config cfg (with_recordDirTmpl default_recordDirTmpl)) ;;;
  now <- gets clock ;;
  let this := {| config := cfg; date := now |} in
  p <- recordPath this ;;
  fs_mkdirSync p ;;;
  (* this.sdk = new AgoraRecorderSdk() *)
  effect SdkConstruct ;;;
  modify (set_sdk_handlers (fun _ => [])) ;;;
  match rev with
  | AgoraRecorder_ts => ret tt
  | part_000 =>
      c <- read_config cfg ;;
      match truthy_number (logLevel c) with
      | Some level => effect (SdkSetLogLevel level)
      | None => ret tt
      end
  end ;;;
  initEventHandler ;;;
  ret this.

(** [start()], up to the suspension at [await fsPromises.writeFile(...)]:
    the write is requested and the call is parked under its promise. *)
Definition start_prefix (this : AgoraRecorder) (promise : nat) : M unit :=
  rp <- recordPath this ;;
  let json := [("Recording_Dir", rp)] in
  let cfgPath := Path.join [rp; "/cfg.json"] in
  let content := JSON.stringify json in
  effect (FsWriteFile cfgPath content) ;;;
  modify (set_awaiting (fun a => <[promise := {| s_cfgPath := cfgPath; s_content := content |}]> a)).

(** [start()], from the resumption after the write succeeded to the end
    of the promise executor.  It runs to completion without suspension. *)
Definition start_suffix (rev : Revision) (this : AgoraRecorder) (promise : nat)
    (cfgPath : string) : M unit :=
  c <- read_config (config this) ;;
  dir <- gets cwd ;;
  appliteDir <- lift (Path.resolve dir [Some "node_modules"; Some ".bin"]) ;;
  effect (SdkJoinChannel (appId c)
            (buildTokenWithAccount (appId c) (certificate c) (channel c) (account c)
               SUBSCRIBER 0)
            (channel c) (account c) appliteDir cfgPath) ;;;
  timeout <- match rev with
             | AgoraRecorder_ts => ret None
             | part_000 => id <- setTimeout 5000 ;; ret (Some id)
             end ;;
  once REC_EVENT_JOIN_CHANNEL (H_join_resolve promise timeout) ;;;
  once REC_EVENT_ERROR (H_error_reject promise timeout).

(** [stop()] *)
Definition stop : M unit :=
  effect SdkLeaveChannel ;;;
  effect SdkRelease.

(** [setMixLayout(layout)] *)
Definition setMixLayout (layout : Value) : M unit :=
  effect (SdkSetMixLayout layout).

(** ** The process around the recorder *)

Definition initial_state (dir : string) (now : Date) (denied : string -> bool)
    (objects : gmap nat AgoraRecorderConfig) : State :=
  {| heap := objects; cwd := dir; clock := now; fs_denied := denied;
     fs_dirs := ∅; fs_files := ∅; sdk_handlers := []; listeners := [];
     promises := []; timers := []; awaiting := ∅; log := [] |}.

Definition chdir (dir : string) (st : State) : State :=
  {| heap := heap st; cwd := dir; clock := clock st; fs_denied := fs_denied st;
     fs_dirs := fs_dirs st; fs_files := fs_files st; sdk_handlers := sdk_handlers st;
     listeners := listeners st; promises := promises st; timers := timers st;
     awaiting := awaiting st; log := log st |}.

Definition tick (now : Date) (st : State) : State :=
  {| heap := heap st; cwd := cwd st; clock := now; fs_denied := fs_denied st;
     fs_dirs := fs_dirs st; fs_files := fs_files st; sdk_handlers := sdk_handlers st;
     listeners := listeners st; promises := promises st; timers := timers st;
     awaiting := awaiting st; log := log st |}.

(** ** The event loop

    JavaScript runs one task at a time, to completion.  A turn is one
    such task: a call by the owner of the recorder, the resumption of a
    suspended [start], a callback of the engine, or a timer. *)

Inductive Turn :=
| T_start                                           (* the owner calls [start()] *)
| T_write_done (promise : nat)                      (* the awaited write completes *)
| T_native (e : AgoraRecorderEvent) (args : list Value)  (* the engine calls back *)
| T_timer (id : nat)                                (* a timer expires *)
| T_stop
| T_setMixLayout (layout : Value)
| T_on (e : AgoraRecorderEvent) (subscriber : nat)  (* [recorder.on(e, callback)] *)
| T_once (e : AgoraRecorderEvent) (subscriber : nat)
| T_chdir (dir : string)                            (* [process.chdir(dir)] *)
| T_tick (now : Date)                               (* time passes *)
| T_mutate (ref : nat) (f : AgoraRecorderConfig -> AgoraRecorderConfig).
                                                    (* the owner writes to a configuration object *)

(** The body of an [async] function: an exception rejects its promise. *)
Definition run_async (promise : nat) (body : M unit) (st : State) : State :=
  match body st with
  | (Normal _, st') => st'
  | (Throw e, st') => snd (reject promise e st')
  end.

(** A synchronous task; an exception it lets escape ends the task. *)
Definition run_sync (body : M unit) (st : State) : State := snd (body st).

(** Calling [start()]: returns the promise and the state at the
    suspension.  The promise of the [async] function and the promise it
    finally awaits settle together and are one promise here. *)
Definition start_call (this : AgoraRecorder) (st : State) : nat * State :=
  let promise := length (promises st) in
  (promise, run_async promise (new_promise ;;; start_prefix this promise) st).

(** The write awaited by the call parked under [promise] completes.
    The file is given its content here, in one step: what it holds while
    a write to it is in flight (the file is truncated when the write
    opens it) is not modelled, so [fs_files] tells the content of a file
    only while no write to it is pending. *)
Definition write_done (rev : Revision) (this : AgoraRecorder) (promise : nat)
    (st : State) : State :=
  match awaiting st !! promise with
  | None => st
  | Some s =>
      let st := set_awaiting (delete promise) st in
      if fs_denied st (s_cfgPath s) then
        snd (reject promise (FsError "open" (s_cfgPath s)) st)
      else
        run_async promise (start_suffix rev this promise (s_cfgPath s))
          (set_fs_files (fun f => <[s_cfgPath s := s_content s]> f) st)
  end.

(** The engine invokes the callback subscribed for [e], if any. *)
Definition native_callback (e : AgoraRecorderEvent) (args : list Value) (st : State) : State :=
  if bool_decide (e ∈ sdk_handlers st) then run_sync (relay e args) st else st.

(** A timer expires: an armed timer runs its callback,
    [() => { console.error('Joining channel timeout') }]. *)
Definition timer_expired (id : nat) (st : State) : State :=
  match timers st !! id with
  | Some Armed =>
      run_sync (effect (ConsoleError "Joining channel timeout"))
        (set_timers (fun l => <[id := Fired]> l) st)
  | _ => st
  end.

Definition run_turn (rev : Revision) (this : AgoraRecorder) (t : Turn) (st : State) : State :=
  match t with
  | T_start => snd (start_call this st)
  | T_write_done promise => write_done rev this promise st
  | T_native e args => native_callback e args st
  | T_timer id => timer_expired id st
  | T_stop => run_sync stop st
  | T_setMixLayout layout => run_sync (setMixLayout layout) st
  | T_on e id =>
      run_sync (add_listener {| l_event := e; l_once := false; l_handler := H_subscriber id |}) st
  | T_once e id =>
      run_sync (add_listener {| l_event := e; l_once := true; l_handler := H_subscriber id |}) st
  | T_chdir dir => chdir dir st
  | T_tick now => tick now st
  | T_mutate ref f => run_sync (update_config ref f) st
  end.

Definition run_turns (rev : Revision) (this : AgoraRecorder) (ts : list Turn) (st : State)
  : State :=
  fold_left (fun s t => run_turn rev this t s) ts st.

(** ** Reading the log *)

Definition is_settlement_of (promise : nat) (e : Effect) : bool :=
  match e with
  | Settled p _ => Nat.eqb p promise
  | _ => false
  end.

(** How many times the promise changed state. *)
Definition settlements (promise : nat) (l : list Effect) : nat :=
  length (filter (fun e => is_settlement_of promise e = true) l).

Definition is_join_request (e : Effect) : bool :=
  match e with
  | SdkJoinChannel _ _ _ _ _ _ => true
  | _ => false
  end.

Definition is_completion_listener (e : Effect) : bool :=
  match e with
  | EmitterOnce REC_EVENT_JOIN_CHANNEL => true
  | EmitterOnce REC_EVENT_ERROR => true
  | _ => false
  end.

Definition is_fs_call (e : Effect) : bool :=
  match e with
  | FsMkdirSync _ | FsWriteFile _ _ => true
  | _ => false
  end.

Definition is_engine_call (e : Effect) : bool :=
  match e with
  | SdkConstruct | SdkSetLogLevel _ | SdkOn _ | SdkJoinChannel _ _ _ _ _ _
  | SdkLeaveChannel | SdkRelease | SdkSetMixLayout _ => true
  | _ => false
  end.

(** The effects logged after the first join request. *)
Fixpoint after_join_request (l : list Effect) : option (list Effect) :=
  match l with
  | [] => None
  | e :: rest => if is_join_request e then Some rest else after_join_request rest
  end.

(** Both completion listeners were subscribed before the first join
    request: none is subscribed after it. *)
Definition listeners_before_join (l : list Effect) : bool :=
  match after_join_request l with
  | None => true
  | Some rest => forallb (fun e => negb (is_completion_listener e)) rest
  end.


(** ** Vocabulary of the properties *)

(** What the three default-filling assignments of the constructor make of
    a configuration object. *)
Definition fill_defaults (c : AgoraRecorderConfig) : AgoraRecorderConfig :=
  let c := if falsy_string (account c) then with_account "agora-recorder" c else c in
  let c := if falsy_string (outputDir c) then with_outputDir "output" c else c in
  if falsy_function (recordDirTmpl c) then with_recordDirTmpl default_recordDirTmpl c else c.

(** The value of the [recordPath] getter as a function of the working
    directory, the configuration object and the instance's date. *)
Definition record_path_of (dir : string) (c : AgoraRecorderConfig) (d : Date)
  : Completion string :=
  match recordDirTmpl c with
  | None => Throw (TypeError "this.config.recordDirTmpl is not a function")
  | Some tmpl =>
      Path.resolve dir [outputDir c; Some (tmpl {| tmpl_channel := channel c; tmpl_date := d |})]
  end.

(** The states a recorder goes through: it is constructed in a fresh
    process and then any turns are taken, in any order. *)
Inductive reachable (rev : Revision) (this : AgoraRecorder) : State -> Prop :=
| reach_new dir now denied objects cfg st :
    constructor rev cfg (initial_state dir now denied objects) = (Normal this, st) ->
    reachable rev this st
| reach_turn st t :
    reachable rev this st -> reachable rev this (run_turn rev this t st).

(** The promise an arbitration closure settles. *)
Definition handler_promise (h : Handler) : option nat :=
  match h with
  | H_join_resolve p _ | H_error_reject p _ => Some p
  | H_subscriber _ => None
  end.

Definition settled_count (o : option Outcome) : nat :=
  match o with
  | Some (Fulfilled _) | Some (Rejected _) => 1
  | Some Pending | None => 0
  end.

(** What holds of every reachable state. *)
Record wf (this : AgoraRecorder) (st : State) : Prop := {
  (* a suspended call has a pending promise *)
  wf_awaiting : forall q s, awaiting st !! q = Some s -> promises st !! q = Some Pending;
  (* arbitration closures belong to calls that have been resumed *)
  wf_listeners : forall l q,
      l ∈ listeners st -> handler_promise (l_handler l) = Some q ->
      q < length (promises st) /\ awaiting st !! q = None;
  (* the log counts one settlement for a settled promise, none otherwise *)
  wf_log : forall q, settlements q (log st) = settled_count (promises st !! q);
  (* the relays stay subscribed on the engine *)
  wf_sdk : sdk_handlers st = relayed_events;
  (* the configuration object stays alive *)
  wf_config : is_Some (heap st !! config this)
}.

(** Whether a value has the number [n] in it. *)
Fixpoint carries (n : Z) (v : Value) : bool :=
  match v with
  | VNum m => Z.eqb m n
  | VArray items => existsb (carries n) items
  | _ => false
  end.

(** Scenario data shared by the examples. *)
Definition room1 : AgoraRecorderConfig :=
  {| appId := "A"; certificate := "C"; channel := "room1";
     account := None; outputDir := None; recordDirTmpl := None; logLevel := None |}.

Definition new_year_10am : Date :=
  {| getFullYear := 2024; getMonth := 0; getDate := 1;
     getHours := 10; getMinutes := 0; getSeconds := 0 |}.

Definition never_denied (path : string) : bool := false.

Definition fresh_process (c : AgoraRecorderConfig) : State :=
  initial_state "/srv/app" new_year_10am never_denied {[ 0 := c ]}.

Definition the_recorder : AgoraRecorder := {| config := 0; date := new_year_10am |}.

(** The recorder of the examples right after construction. *)
Definition constructed (rev : Revision) (c : AgoraRecorderConfig) : State :=
  snd (constructor rev 0 (fresh_process c)).

(** The engine calls of a successful construction. *)
Definition engine_setup (rev : Revision) (c : AgoraRecorderConfig) : list Effect :=
  SdkConstruct ::
  match rev, truthy_number (logLevel c) with
  | part_000, Some level => [SdkSetLogLevel level]
  | _, _ => []
  end ++ map SdkOn relayed_events.

(** The state in which the constructor evaluates [this.recordPath]. *)
Definition with_defaults (cfg : nat) (c : AgoraRecorderConfig) (st : State) : State :=
  set_heap (fun h => <[cfg := fill_defaults c]> h) (set_listeners (fun _ => []) st).

(** The timer an arbitration closure of the given revision remembers. *)
Definition timeout_of (rev : Revision) (timer : nat) : option nat :=
  match rev with
  | AgoraRecorder_ts => None
  | part_000 => Some timer
  end.

(** The two closures the promise executor of [start] subscribes. *)
Definition arbiters (rev : Revision) (promise timer : nat) : list Listener :=
  [ {| l_event := REC_EVENT_JOIN_CHANNEL; l_once := true;
       l_handler := H_join_resolve promise (timeout_of rev timer) |};
    {| l_event := REC_EVENT_ERROR; l_once := true;
       l_handler := H_error_reject promise (timeout_of rev timer) |} ].

(** The join request [start] submits. *)
Definition join_request (c : AgoraRecorderConfig) (appliteDir cfgPath : string) : Effect :=
  SdkJoinChannel (appId c)
    (buildTokenWithAccount (appId c) (certificate c) (channel c) (account c) SUBSCRIBER 0)
    (channel c) (account c) appliteDir cfgPath.

(** The effects of the resumed part of [start], in program order. *)
Definition join_effects (rev : Revision) (c : AgoraRecorderConfig)
    (appliteDir cfgPath : string) (timer : nat) : list Effect :=
  join_request c appliteDir cfgPath ::
  match rev with
  | AgoraRecorder_ts => []
  | part_000 => [SetTimeout timer 5000]
  end ++ [EmitterOnce REC_EVENT_JOIN_CHANNEL; EmitterOnce REC_EVENT_ERROR].

(** The state the resumed part of [start] leaves. *)
Definition joining (rev : Revision) (c : AgoraRecorderConfig) (promise : nat)
    (appliteDir cfgPath : string) (st : State) : State :=
  set_log (fun l => l ++ join_effects rev c appliteDir cfgPath (length (timers st)))
    (set_listeners (fun ls => ls ++ arbiters rev promise (length (timers st)))
       (set_timers (fun ts => match rev with
                              | AgoraRecorder_ts => ts
                              | part_000 => ts ++ [Armed]
                              end) st)).

(** The request [start] parks while the write is in flight. *)
Definition cfg_request (rp : string) : Suspended :=
  {| s_cfgPath := Path.join [rp; "/cfg.json"];
     s_content := JSON.stringify [("Recording_Dir", rp)] |}.

(** The state [start] leaves at its suspension. *)
Definition suspended (promise : nat) (rp : string) (st : State) : State :=
  set_awaiting (fun a => <[promise := cfg_request rp]> a)
    (set_log (fun l => l ++ [FsWriteFile (s_cfgPath (cfg_request rp)) (s_content (cfg_request rp))])
       (set_promises (fun l => l ++ [Pending]) st)).

(** The state after [clearTimeout] of the timer a closure remembers. *)
Definition cleared (timeout : option nat) (st : State) : State :=
  match timeout with
  | Some id => set_timers (alter disarm id) (set_log (fun l => l ++ [ClearTimeout id]) st)
  | None => st
  end.

(** The state a listener leaves when called. *)
Definition handled (e : AgoraRecorderEvent) (args : list Value) (st : State) (l : Listener)
  : State :=
  match l_handler l with
  | H_join_resolve p t => snd (resolve p (VBool true) (cleared t st))
  | H_error_reject p t => snd (reject p (first_parameter args) (cleared t st))
  | H_subscriber id => set_log (fun lg => lg ++ [Delivered id e args]) st
  end.

(** The state an emission leaves. *)
Definition emitted (e : AgoraRecorderEvent) (args : list Value) (st : State) : State :=
  fold_left (handled e args)
    (filter (fun l => listens_to e l = true) (listeners st))
    (set_listeners (filter (fun l => survives e l = true)) st).

(** The closures of the emitter that settle the promise [p]. *)
Definition join_arbiter_of (p : nat) (l : Listener) : Prop :=
  l_event l = REC_EVENT_JOIN_CHANNEL /\ exists t, l_handler l = H_join_resolve p t.

Definition error_arbiter_of (p : nat) (l : Listener) : Prop :=
  l_event l = REC_EVENT_ERROR /\ exists t, l_handler l = H_error_reject p t.

(** The join request of the call behind [p] is in flight: the promise is
    pending, both completion listeners are subscribed, and nothing else
    can settle the promise. *)
Record arbitrating (p : nat) (st : State) : Prop := {
  arb_pending : promises st !! p = Some Pending;
  arb_join : exists l, l ∈ listeners st /\ join_arbiter_of p l;
  arb_error : exists l, l ∈ listeners st /\ error_arbiter_of p l;
  arb_only : forall l, l ∈ listeners st -> handler_promise (l_handler l) = Some p ->
                       join_arbiter_of p l \/ error_arbiter_of p l
}.

(** A turn that delivers one of the two completion callbacks. *)
Definition is_completion (t : Turn) : bool :=
  match t with
  | T_native REC_EVENT_JOIN_CHANNEL _ | T_native REC_EVENT_ERROR _ => true
  | _ => false
  end.

(** The recorder of the examples once [start()] has been called and is
    suspended on its write. *)
Definition parked (rev : Revision) : State :=
  run_turn rev the_recorder T_start (constructed rev room1).

Definition join_success : Turn :=
  T_native REC_EVENT_JOIN_CHANNEL [VStr "room1"; VStr "uid42"].

Definition join_error : Turn :=
  T_native REC_EVENT_ERROR [VNum 5; VNum 101].

(** Configurations with an empty channel, and with empty credentials. *)
Definition no_channel : AgoraRecorderConfig :=
  {| appId := "A"; certificate := "C"; channel := "";
     account := None; outputDir := None; recordDirTmpl := None; logLevel := None |}.

Definition no_credentials : AgoraRecorderConfig :=
  {| appId := ""; certificate := ""; channel := "room1";
     account := None; outputDir := None; recordDirTmpl := None; logLevel := None |}.

Definition some_layout : Value := VOpaque 1.


(** ** Vocabulary of the further properties *)

Definition is_delivery (e : Effect) : bool :=
  match e with
  | Delivered _ _ _ => true
  | _ => false
  end.

(** The calls of subscribers in a log, in order. *)
Definition deliveries (l : list Effect) : list Effect := List.filter is_delivery l.

(** What an emission of [e] with [args] owes to one listener: a call, when
    it is a subscriber of [e]. *)
Definition owed_to (e : AgoraRecorderEvent) (args : list Value) (l : Listener) : list Effect :=
  if listens_to e l then
    match l_handler l with
    | H_subscriber id => [Delivered id e args]
    | _ => []
    end
  else [].

Definition owed (e : AgoraRecorderEvent) (args : list Value) (ls : list Listener)
  : list Effect :=
  flat_map (owed_to e args) ls.

(** The effects each kind of turn can have. *)
Definition allowed (t : Turn) (e : Effect) : bool :=
  match t, e with
  | T_start, FsWriteFile _ _ => true
  | T_start, Settled _ (Rejected _) => true
  | T_write_done _, SdkJoinChannel _ _ _ _ _ _ => true
  | T_write_done _, SetTimeout _ _ => true
  | T_write_done _, EmitterOnce _ => true
  | T_write_done _, Settled _ (Rejected _) => true
  | T_native _ _, Delivered _ _ _ => true
  | T_native _ _, ClearTimeout _ => true
  | T_native _ _, Settled _ _ => true
  | T_timer _, ConsoleError _ => true
  | T_stop, SdkLeaveChannel => true
  | T_stop, SdkRelease => true
  | T_setMixLayout _, SdkSetMixLayout _ => true
  | _, _ => false
  end.

(** A recorder with three subscribers, two of the join event (the second
    one-shot) and one of the user-join event. *)
Definition subscribed (rev : Revision) : State :=
  run_turns rev the_recorder
    [T_on REC_EVENT_JOIN_CHANNEL 7; T_on REC_EVENT_USER_JOIN 8; T_once REC_EVENT_JOIN_CHANNEL 9]
    (constructed rev room1).

(** What one turn can do to a state: the outcomes of the turns, each by
    the state it leaves. *)
Inductive step (rev : Revision) (this : AgoraRecorder) (st : State) : State -> Prop :=
| step_nothing :
    step rev this st st
| step_suspend rp :
    fst (recordPath this st) = Normal rp ->
    step rev this st (suspended (length (promises st)) rp st)
| step_refuse e :
    fst (recordPath this st) = Throw e ->
    step rev this st
      (snd (reject (length (promises st)) e (set_promises (fun l => l ++ [Pending]) st)))
| step_write_failed p s :
    awaiting st !! p = Some s ->
    fs_denied st (s_cfgPath s) = true ->
    step rev this st
      (snd (reject p (FsError "open" (s_cfgPath s)) (set_awaiting (delete p) st)))
| step_join p s c appliteDir :
    awaiting st !! p = Some s ->
    fs_denied st (s_cfgPath s) = false ->
    heap st !! config this = Some c ->
    step rev this st
      (joining rev c p appliteDir (s_cfgPath s)
         (set_fs_files (fun f => <[s_cfgPath s := s_content s]> f)
            (set_awaiting (delete p) st)))
| step_emit e args :
    step rev this st (emitted e args st)
| step_fire id :
    timers st !! id = Some Armed ->
    step rev this st
      (set_log (fun l => l ++ [ConsoleError "Joining channel timeout"])
         (set_timers (fun l => <[id := Fired]> l) st))
| step_stop :
    step rev this st (set_log (fun l => l ++ [SdkLeaveChannel; SdkRelease]) st)
| step_layout layout :
    step rev this st (set_log (fun l => l ++ [SdkSetMixLayout layout]) st)
| step_subscribe e one_shot id :
    step rev this st
      (set_listeners
         (fun ls => ls ++ [{| l_event := e; l_once := one_shot; l_handler := H_subscriber id |}])
         st)
| step_chdir dir :
    step rev this st (chdir dir st)
| step_tick now :
    step rev this st (tick now st)
| step_mutate ref f :
    step rev this st (set_heap (alter f ref) st).

(** Every fulfilled promise is fulfilled with [true]. *)
Definition fulfilled_with_true (st : State) : Prop :=
  forall q v, promises st !! q = Some (Fulfilled v) -> v = VBool true.

(** The recorder with two calls of [start] suspended on their writes. *)
Definition parked_twice (rev : Revision) : State :=
  run_turn rev the_recorder T_start (parked rev).

(** The configuration path a join request names. *)
Definition join_cfg_path (e : Effect) : option string :=
  match e with
  | SdkJoinChannel _ _ _ _ _ cfgPath => Some cfgPath
  | _ => None
  end.

(** The hand-off is in order: every suspended call waits for the write
    of a hand-off document that it has requested, and every join request
    in the log names the path of a hand-off document whose write was
    requested earlier in the log. *)
Record handoff_ok (st : State) : Prop := {
  handoff_awaiting : forall q s,
      awaiting st !! q = Some s ->
      exists rp, s = cfg_request rp /\ FsWriteFile (s_cfgPath s) (s_content s) ∈ log st;
  handoff_joins : forall before e after cfgPath,
      log st = before ++ e :: after ->
      join_cfg_path e = Some cfgPath ->
      exists rp, cfgPath = Path.join [rp; "/cfg.json"]
                 /\ FsWriteFile cfgPath (JSON.stringify [("Recording_Dir", rp)]) ∈ before
}.

(** The recorder of the examples once its write has completed and the join
    request is with the engine. *)
Definition joined (rev : Revision) : State :=
  run_turn rev the_recorder (T_write_done 0) (parked rev).

(** ** Timers *)

(** How many logged effects satisfy [f]. *)
Definition tally (f : Effect -> bool) (l : list Effect) : nat :=
  length (List.filter f l).

Definition is_set_timeout (e : Effect) : bool :=
  match e with
  | SetTimeout _ _ => true
  | _ => false
  end.

Definition is_clear_timeout (e : Effect) : bool :=
  match e with
  | ClearTimeout _ => true
  | _ => false
  end.

Definition is_console_error (e : Effect) : bool :=
  match e with
  | ConsoleError _ => true
  | _ => false
  end.

Definition is_fired (t : TimerState) : bool :=
  match t with
  | Fired => true
  | _ => false
  end.

(** How many timers ran their callback. *)
Definition fired (ts : list TimerState) : nat :=
  length (List.filter is_fired ts).

(** The timer an arbitration closure clears when it is called. *)
Definition handler_timeout (h : Handler) : option nat :=
  match h with
  | H_join_resolve _ t | H_error_reject _ t => t
  | H_subscriber _ => None
  end.

(** The bookkeeping of timers: one timer per [setTimeout], one
    [setTimeout] per join request in the revision that has the timeout,
    one message per timer that ran, and no timer at all in the revision
    without the timeout. *)
Record timers_ok (rev : Revision) (st : State) : Prop := {
  tm_set : length (timers st) = tally is_set_timeout (log st);
  tm_join : tally is_set_timeout (log st)
            = match rev with
              | AgoraRecorder_ts => 0
              | part_000 => tally is_join_request (log st)
              end;
  tm_msg : tally is_console_error (log st) = fired (timers st);
  tm_closures : rev = AgoraRecorder_ts ->
                forall l, l ∈ listeners st -> handler_timeout (l_handler l) = None;
  tm_clear : rev = AgoraRecorder_ts -> tally is_clear_timeout (log st) = 0
}.

(** The timers the listener clears when it is called. *)
Definition disarms (l : Listener) (ts : list TimerState) : list TimerState :=
  match handler_timeout (l_handler l) with
  | Some id => alter disarm id ts
  | None => ts
  end.

(** Whether one of the listeners clears the timer [id]. *)
Definition disarmed_by (ls : list Listener) (id : nat) : bool :=
  existsb (fun l => match handler_timeout (l_handler l) with
                    | Some t => Nat.eqb t id
                    | None => false
                    end) ls.

(** An armed timer belongs to a join in flight: a closure for each of the
    two completion events is subscribed that clears it. *)
Definition armed_ok (st : State) : Prop :=
  forall id, timers st !! id = Some Armed ->
    (exists l, l ∈ listeners st /\ l_event l = REC_EVENT_JOIN_CHANNEL
               /\ handler_timeout (l_handler l) = Some id)
    /\ (exists l, l ∈ listeners st /\ l_event l = REC_EVENT_ERROR
                  /\ handler_timeout (l_handler l) = Some id).

(** Timers only age: a timer stays, and one that is no longer armed keeps
    its state. *)
Definition ages (ts ts' : list TimerState) : Prop :=
  forall id x, ts !! id = Some x ->
    exists y, ts' !! id = Some y /\ (x <> Armed -> y = x).

(** The recorder of the examples after the join timeout of its first call
    has expired. *)
Definition timed_out (rev : Revision) : State :=
  run_turn rev the_recorder (T_timer 0) (joined rev).

(** ** Calls in flight *)

(** The turn that resumes the call of [start] behind the promise [p]. *)
Definition resumes (p : nat) (t : Turn) : bool :=
  match t with
  | T_write_done q => Nat.eqb q p
  | _ => false
  end.

(** Every pending promise belongs to a call that waits for its write or
    to a call whose join request is with the engine. *)
Definition in_flight_ok (st : State) : Prop :=
  forall p, promises st !! p = Some Pending ->
    is_Some (awaiting st !! p) \/ arbitrating p st.

(** The recorder of the examples with two join requests with the engine. *)
Definition joined_twice (rev : Revision) : State :=
  run_turns rev the_recorder [T_write_done 0; T_write_done 1] (parked_twice rev).

(** ** Where the recorder records *)



(** [delete config.recordDirTmpl], done by the owner of the object. *)
Definition without_recordDirTmpl (c : AgoraRecorderConfig) : AgoraRecorderConfig :=
  {| appId := appId c; certificate := certificate c; channel := channel c;
     account := account c; outputDir := outputDir c; recordDirTmpl := None;
     logLevel := logLevel c |}.

(** The recorder of the examples after its owner removed the naming
    closure from the configuration object. *)
Definition unnamed (rev : Revision) : State :=
  run_turn rev the_recorder (T_mutate 0 without_recordDirTmpl) (constructed rev room1).

(** ** Setting up *)

(** The calls the constructor makes on the file system and the engine. *)
Definition is_setup (e : Effect) : bool :=
  match e with
  | FsMkdirSync _ | SdkConstruct | SdkSetLogLevel _ | SdkOn _ => true
  | _ => false
  end.

(** ** The closures of [start] on the emitter *)

(** Every arbitration closure is a one-shot listener of its own event. *)
Definition closures_ok (st : State) : Prop :=
  forall l, l ∈ listeners st ->
    match l_handler l with
    | H_join_resolve _ _ => l_event l = REC_EVENT_JOIN_CHANNEL /\ l_once l = true
    | H_error_reject _ _ => l_event l = REC_EVENT_ERROR /\ l_once l = true
    | H_subscriber _ => True
    end.
Module StrFacts.
Import Str.

Lemma eqb_eq a b : eqb a b = true <-> a = b.
Proof. apply String.eqb_eq. Qed.

Lemma eqb_refl a : eqb a a = true.
Proof. apply String.eqb_refl. Qed.

Lemma eqb_neq a b : eqb a b = false <-> a <> b.
Proof. apply String.eqb_neq. Qed.

Lemma app_assoc (a b c : string) : (a +:+ b) +:+ c = a +:+ (b +:+ c).
Proof. induction a as [|x a IH]; [reflexivity|]. simpl. f_equal. exact IH. Qed.

Lemma app_nil_r (a : string) : a +:+ "" = a.
Proof. induction a as [|x a IH]; [reflexivity|]. simpl. f_equal. exact IH. Qed.

Lemma split_slash_nonempty s : split_slash s <> [].
Proof.
  destruct s as [|c s]; simpl; [discriminate|].
  destruct (is_slash c); [discriminate|].
  destruct (split_slash s); discriminate.
Qed.

Lemma split_slash_no_slash s : no_slash s = true -> split_slash s = [s].
Proof.
  induction s as [|c s IH]; simpl; [reflexivity|].
  intros H. apply andb_true_iff in H as [Hc Hs].
  destruct (is_slash c); [discriminate|].
  now rewrite (IH Hs).
Qed.

(** Splitting distributes over a separator placed between two strings. *)
Lemma split_slash_app a b :
  split_slash (a +:+ String slash b) = split_slash a ++ split_slash b.
Proof.
  induction a as [|c a IH]; simpl.
  - reflexivity.
  - destruct (is_slash c); simpl; [now rewrite IH|].
    rewrite IH.
    destruct (split_slash a) as [|seg segs] eqn:E; [|reflexivity].
    now destruct (split_slash_nonempty a).
Qed.

Lemma split_slash_join segs :
  segs <> [] -> Forall (fun s => no_slash s = true) segs ->
  split_slash (join_slash segs) = segs.
Proof.
  induction segs as [|s segs IH]; [congruence|].
  intros _ H. inversion H as [|? ? Hs Hsegs]; subst.
  destruct segs as [|s' segs].
  - simpl. now apply split_slash_no_slash.
  - change (join_slash (s :: s' :: segs))
      with (s +:+ String slash (join_slash (s' :: segs))).
    rewrite split_slash_app, split_slash_no_slash by assumption.
    simpl. f_equal. apply IH; [discriminate | assumption].
Qed.

Lemma join_slash_snoc segs s :
  segs <> [] -> join_slash (segs ++ [s]) = join_slash segs +:+ String slash s.
Proof.
  induction segs as [|x segs IH]; [congruence|]. intros _.
  destruct segs as [|y segs].
  - reflexivity.
  - change (join_slash ((x :: y :: segs) ++ [s]))
      with (x +:+ String slash (join_slash ((y :: segs) ++ [s]))).
    rewrite IH by discriminate.
    change (join_slash (x :: y :: segs))
      with (x +:+ String slash (join_slash (y :: segs))).
    now rewrite app_assoc.
Qed.






End StrFacts.

Module PathFacts.
Import Path.

Example resolve_relative :
  resolve "/srv/app" [Some "output"; Some "a/b"] = Normal "/srv/app/output/a/b".
Proof. reflexivity. Qed.

Example resolve_dots :
  resolve "/srv/app" [Some "../out/./x//y/"; Some ".."] = Normal "/srv/out/x".
Proof. reflexivity. Qed.

Example resolve_absolute_wins :
  resolve "/srv/app" [None; Some "/tmp"; Some "rec"] = Normal "/tmp/rec".
Proof. reflexivity. Qed.

Example resolve_root :
  resolve "/srv" [Some "/"; Some ""] = Normal "/".
Proof. reflexivity. Qed.

Example join_cfg : join ["/srv/rec"; "/cfg.json"] = "/srv/rec/cfg.json".
Proof. reflexivity. Qed.

Example join_root : join ["/"; "/cfg.json"] = "/cfg.json".
Proof. reflexivity. Qed.

(** *** Normalisation on plain segments *)

Lemma normalize_step_plain a stack seg :
  plain seg = true -> normalize_step a stack seg = seg :: stack.
Proof.
  unfold plain, normalize_step. intros H.
  repeat (apply andb_true_iff in H as [H ?]).
  apply negb_true_iff in H. rewrite H.
  repeat match goal with
         | E : negb _ = true |- _ => apply negb_true_iff in E; rewrite E
         end.
  reflexivity.
Qed.

Lemma fold_plain a segs stack :
  Forall (fun s => plain s = true) segs ->
  fold_left (normalize_step a) segs stack = rev segs ++ stack.
Proof.
  revert stack. induction segs as [|s segs IH]; intros stack H; [reflexivity|].
  inversion H; subst. simpl.
  rewrite normalize_step_plain by assumption.
  rewrite IH by assumption. now rewrite <- app_assoc.
Qed.

Lemma plain_no_slash seg : plain seg = true -> Str.no_slash seg = true.
Proof. unfold plain. intros H. now apply andb_true_iff in H as [_ H]. Qed.

Lemma plain_nonempty seg : plain seg = true -> seg <> "".
Proof.
  unfold plain. intros H ->. now repeat (apply andb_true_iff in H as [H ?]).
Qed.

Lemma split_slash_all_no_slash s :
  Forall (fun seg => Str.no_slash seg = true) (Str.split_slash s).
Proof.
  induction s as [|c s IH]; simpl.
  - repeat constructor.
  - destruct (Str.is_slash c) eqn:E.
    + constructor; [reflexivity | assumption].
    + destruct (Str.split_slash s) as [|seg segs].
      * repeat constructor. simpl. now rewrite E.
      * inversion IH; subst. constructor; [|assumption].
        simpl. rewrite E. assumption.
  Qed.

(** Whatever the input, an absolute normalisation leaves plain segments only. *)
Lemma normalize_step_keeps stack seg :
  Forall (fun s => plain s = true) stack -> Str.no_slash seg = true ->
  Forall (fun s => plain s = true) (normalize_step false stack seg).
Proof.
  intros Hs Hn. unfold normalize_step.
  destruct (Str.eqb seg "") eqn:E1; [assumption|].
  destruct (Str.eqb seg ".") eqn:E2; [assumption|].
  destruct (Str.eqb seg "..") eqn:E3.
  - destruct stack as [|top below]; [constructor|].
    destruct (Str.eqb top ".."); [assumption|]. now inversion Hs.
  - constructor; [|assumption].
    unfold plain. now rewrite E1, E2, E3, Hn.
Qed.

Lemma fold_keeps segs stack :
  Forall (fun s => plain s = true) stack ->
  Forall (fun s => Str.no_slash s = true) segs ->
  Forall (fun s => plain s = true) (fold_left (normalize_step false) segs stack).
Proof.
  revert stack. induction segs as [|s segs IH]; intros stack Hs Hn; [assumption|].
  inversion Hn; subst. simpl. apply IH; [|assumption].
  now apply normalize_step_keeps.
Qed.

Lemma normalizeString_absolute_form path :
  exists segs, Forall (fun s => plain s = true) segs /\
               normalizeString path false = Str.join_slash segs.
Proof.
  unfold normalizeString. eexists. split; [|reflexivity].
  apply Forall_rev. apply fold_keeps; [constructor|].
  apply split_slash_all_no_slash.
Qed.


(** *** The shape of resolved paths *)

Lemma starts_with_slash_nonempty s : Str.starts_with_slash s = true -> Str.eqb s "" = false.
Proof. destruct s; [discriminate | reflexivity]. Qed.

(** In a process whose working directory is absolute the loop always ends
    on an absolute path. *)
Lemma resolve_loop_absolute cwd args_rev acc rp abs :
  Str.starts_with_slash cwd = true ->
  resolve_loop cwd args_rev acc = Normal (rp, abs) -> abs = true.
Proof.
  intros Hcwd. revert acc. induction args_rev as [|a rest IH]; intros acc; simpl.
  - rewrite (starts_with_slash_nonempty _ Hcwd), Hcwd. congruence.
  - destruct a as [p|]; [|discriminate].
    destruct (Str.eqb p ""); [apply IH|].
    destruct (Str.starts_with_slash p); [congruence | apply IH].
Qed.

Lemma resolve_form cwd args p :
  Str.starts_with_slash cwd = true ->
  resolve cwd args = Normal p ->
  exists segs, Forall (fun s => plain s = true) segs /\ p = "/" +:+ Str.join_slash segs.
Proof.
  intros Hcwd. unfold resolve.
  destruct (resolve_loop cwd (rev args) "") as [[rp abs]|e] eqn:E; [|discriminate].
  rewrite (resolve_loop_absolute _ _ _ _ _ Hcwd E). simpl.
  intros [= <-].
  destruct (normalizeString_absolute_form rp) as (segs & Hsegs & ->).
  now exists segs.
Qed.

(** Arguments that are all strings never fail validation. *)
Lemma resolve_loop_total cwd args_rev acc :
  Forall is_Some args_rev -> exists r, resolve_loop cwd args_rev acc = Normal r.
Proof.
  revert acc. induction args_rev as [|a rest IH]; intros acc H; simpl.
  - destruct (Str.eqb cwd ""); eauto.
  - inversion H as [|? ? [p ->] Hrest]; subst.
    destruct (Str.eqb p ""); [now apply IH|].
    destruct (Str.starts_with_slash p); [eauto | now apply IH].
Qed.

Lemma resolve_total cwd args :
  Forall is_Some args -> exists p, resolve cwd args = Normal p.
Proof.
  intros H. unfold resolve.
  destruct (resolve_loop_total cwd (rev args) "") as [[rp abs] ->].
  { now apply Forall_rev. }
  destruct abs; simpl; [eauto|].
  destruct (Str.eqb _ ""); eauto.
Qed.

Lemma join_slash_nonempty seg segs :
  seg <> "" -> Str.join_slash (seg :: segs) <> "".
Proof.
  intros Hseg. destruct seg as [|c seg]; [congruence|].
  destruct segs; simpl; discriminate.
Qed.


Lemma split_join_plain segs :
  Forall (fun s => plain s = true) segs ->
  fold_left (normalize_step false) (Str.split_slash (Str.join_slash segs)) [] = rev segs.
Proof.
  intros H. destruct segs as [|s segs]; [reflexivity|].
  rewrite StrFacts.split_slash_join.
  - rewrite fold_plain by assumption. apply app_nil_r.
  - discriminate.
  - eapply Forall_impl; [exact H|]. intros ?. apply plain_no_slash.
Qed.

Lemma ends_with_slash_app a c b :
  Str.ends_with_slash (a +:+ String c b) = Str.ends_with_slash (String c b).
Proof.
  induction a as [|x a IH]; [reflexivity|].
  change (String x a +:+ String c b) with (String x (a +:+ String c b)).
  destruct a; simpl in *; exact IH.
Qed.

(** [cfg.json] joined to a resolved directory lies directly inside it. *)
Lemma join_cfg_json segs :
  Forall (fun s => plain s = true) segs ->
  join ["/" +:+ Str.join_slash segs; "/cfg.json"]
  = "/" +:+ Str.join_slash (segs ++ ["cfg.json"]).
Proof.
  intros H. unfold join. simpl.
  set (J := Str.join_slash segs).
  unfold normalize.
  change (Str.eqb (String "/" (J +:+ "//cfg.json")) "") with false.
  change (Str.starts_with_slash (String "/" (J +:+ "//cfg.json"))) with true.
  cbv beta iota zeta.
  assert (Hn : normalizeString (String "/" (J +:+ "//cfg.json")) false
               = Str.join_slash (segs ++ ["cfg.json"])).
  { unfold normalizeString. f_equal.
    change (String "/" (J +:+ "//cfg.json")) with ("" +:+ String Str.slash (J +:+ String Str.slash "/cfg.json")).
    rewrite !StrFacts.split_slash_app, !fold_left_app.
    simpl fold_left at 3. unfold J. rewrite split_join_plain by assumption.
    simpl. change (normalize_step false (rev segs) "") with (rev segs).
    now rewrite rev_involutive. }
  change (negb true) with false. rewrite Hn.
  assert (Hne : Str.eqb (Str.join_slash (segs ++ ["cfg.json"])) "" = false).
  { apply StrFacts.eqb_neq. destruct segs as [|s segs]; [discriminate|].
    inversion H; subst. apply join_slash_nonempty. now apply plain_nonempty. }
  rewrite Hne.
  replace (Str.ends_with_slash (String "/" (J +:+ "//cfg.json"))) with false; [reflexivity|].
  symmetry. change (String "/" (J +:+ "//cfg.json")) with (("/" +:+ J) +:+ String "/" "/cfg.json").
  now rewrite ends_with_slash_app.
Qed.






End PathFacts.

Module FechaFacts.
Import Fecha.

Example format_date :
  format {| getFullYear := 2024; getMonth := 0; getDate := 1;
            getHours := 10; getMinutes := 0; getSeconds := 0 |} "YYYY-MM-DD"
  = "2024-01-01".
Proof. reflexivity. Qed.

Example format_time :
  format {| getFullYear := 987; getMonth := 11; getDate := 31;
            getHours := 9; getMinutes := 5; getSeconds := 59 |} "HH:mm:ss"
  = "09:05:59".
Proof. reflexivity. Qed.



(** *** Formatted numbers are digits *)








End FechaFacts.

Module JSONFacts.
Import JSON.

Example parse_spaced :
  parse (" { " +:+ quote "Recording_Dir" +:+ " :  " +:+ quote "/srv/rec" +:+ " } ")
  = Some [("Recording_Dir", "/srv/rec")].
Proof. reflexivity. Qed.

Example stringify_plain :
  stringify [("Recording_Dir", "/srv/rec")]
  = "{" +:+ quote "Recording_Dir" +:+ ":" +:+ quote "/srv/rec" +:+ "}".
Proof. reflexivity. Qed.

(** *** Reading back what the serialiser wrote *)

Lemma run_quote_char c ctx acc tail :
  run (P_str ctx acc) (quote_char c +:+ tail) = run (P_str ctx (c :: acc)) tail.
Proof. destruct c as [[] [] [] [] [] [] [] []]; reflexivity. Qed.

Lemma run_quote_body s ctx acc tail :
  run (P_str ctx acc) (quote_body s +:+ tail)
  = run (P_str ctx (rev (String.list_ascii_of_string s) ++ acc)) tail.
Proof.
  revert acc. induction s as [|c s IH]; intros acc; [reflexivity|].
  simpl quote_body. rewrite StrFacts.app_assoc, run_quote_char, IH.
  simpl. now rewrite <- app_assoc.
Qed.

Lemma text_rev s : text (rev (String.list_ascii_of_string s) ++ []) = s.
Proof.
  unfold text. rewrite app_nil_r, rev_involutive.
  apply String.string_of_list_ascii_of_string.
Qed.

Lemma run_string ctx s tail :
  run (P_str ctx []) (quote_body s +:+ String dquote tail) = run (close ctx (rev (String.list_ascii_of_string s) ++ [])) tail.
Proof. now rewrite run_quote_body. Qed.

Lemma quote_app s tail :
  quote s +:+ tail = String dquote (quote_body s +:+ String dquote tail).
Proof. unfold quote. simpl. now rewrite StrFacts.app_assoc. Qed.

(** A member is read back from the state that expects a key. *)
Lemma run_member st done k v tail :
  st = P_first done \/ st = P_key done ->
  run st (member (k, v) +:+ tail) = run (P_next ((k, v) :: done)) tail.
Proof.
  intros Hst. unfold member. simpl fst. simpl snd.
  rewrite StrFacts.app_assoc, quote_app.
  assert (H1 : forall rest, run st (String dquote rest) = run (P_str (InKey done) []) rest)
    by (destruct Hst as [-> | ->]; reflexivity).
  rewrite H1, run_string. simpl close. rewrite text_rev.
  change ((":" +:+ quote v) +:+ tail) with (String ":" (quote v +:+ tail)).
  rewrite quote_app.
  change (run (P_colon done k) (String ":" (String dquote (quote_body v +:+ String dquote tail))))
    with (run (P_str (InValue done k) []) (quote_body v +:+ String dquote tail)).
  rewrite run_string. simpl close. now rewrite text_rev.
Qed.

Lemma run_members fields : forall st done,
  fields <> [] -> st = P_first done \/ st = P_key done ->
  run st (String.concat "," (map member fields) +:+ "}") = Some (rev done ++ fields).
Proof.
  induction fields as [|[k v] fields IH]; intros st done Hne Hst; [congruence|].
  destruct fields as [|kv fields].
  - simpl String.concat. rewrite (run_member st done k v "}" Hst).
    reflexivity.
  - change (String.concat "," (map member ((k, v) :: kv :: fields)))
      with (member (k, v) +:+ String "," (String.concat "," (map member (kv :: fields)))).
    rewrite StrFacts.app_assoc, (run_member st done k v _ Hst).
    change (String "," (String.concat "," (map member (kv :: fields))) +:+ "}")
      with (String "," (String.concat "," (map member (kv :: fields)) +:+ "}")).
    change (run (P_next ((k, v) :: done)) (String "," ?x)) with (run (P_key ((k, v) :: done)) x).
    rewrite (IH (P_key ((k, v) :: done)) ((k, v) :: done)) by (discriminate || now right).
    simpl. now rewrite <- app_assoc.
Qed.

(** Reading a serialised object returns its members: the text denotes the
    object it was written from. *)
Lemma parse_stringify fields : parse (stringify fields) = Some fields.
Proof.
  unfold parse, stringify.
  change (run P_start ("{" +:+ String.concat "," (map member fields) +:+ "}"))
    with (run (P_first []) (String.concat "," (map member fields) +:+ "}")).
  destruct fields as [|kv fields]; [reflexivity|].
  now rewrite (run_members (kv :: fields) (P_first []) []) by (discriminate || now left).
Qed.

(** A string without quote, backslash or control character is copied. *)
Lemma quote_body_printable s : printable s = true -> quote_body s = s.
Proof.
  induction s as [|c s IH]; [reflexivity|]. simpl.
  intros H. apply andb_true_iff in H as [Hc Hs].
  rewrite (IH Hs). clear IH Hs.
  destruct c as [[] [] [] [] [] [] [] []]; try discriminate Hc; reflexivity.
Qed.

Lemma quote_printable s : printable s = true -> quote s = in_quotes s.
Proof. intros H. unfold quote, in_quotes. now rewrite quote_body_printable. Qed.

End JSONFacts.

(** * The recorder *)

(** ** Reading the configuration *)

Lemma read_config_some ref c st :
  heap st !! ref = Some c -> read_config ref st = (Normal c, st).
Proof. intros H. unfold read_config. now rewrite H. Qed.

Lemma recordPath_eq this c st :
  heap st !! config this = Some c ->
  recordPath this st = (record_path_of (cwd st) c (date this), st).
Proof.
  intros H. unfold recordPath, bind. rewrite (read_config_some _ _ _ H).
  unfold record_path_of. now destruct (recordDirTmpl c).
Qed.

(** ** Defaults *)

Lemma alter_some (f : AgoraRecorderConfig -> AgoraRecorderConfig) ref c
    (h : gmap nat AgoraRecorderConfig) :
  h !! ref = Some c -> alter f ref h = <[ref := f c]> h.
Proof.
  intros H. apply map_eq. intros i.
  destruct (decide (ref = i)) as [->|Hne].
  - now rewrite lookup_alter_eq, lookup_insert_eq, H.
  - now rewrite lookup_alter_ne, lookup_insert_ne.
Qed.

Lemma set_heap_id ref c st :
  heap st !! ref = Some c -> set_heap (fun h => <[ref := c]> h) st = st.
Proof. intros H. destruct st. unfold set_heap. simpl in *. now rewrite insert_id. Qed.

(** One default-filling statement,
    [if (b(config)) { config.member = default }]. *)
Lemma default_step {B} (b : AgoraRecorderConfig -> bool) g ref c st (k : M B) :
  heap st !! ref = Some c ->
  bind (read_config ref) (fun c0 => bind (when (b c0) (update_config ref g)) (fun _ => k)) st
  = k (set_heap (fun h => <[ref := if b c then g c else c]> h) st).
Proof.
  intros H. unfold bind. rewrite (read_config_some _ _ _ H).
  destruct (b c); simpl.
  - unfold update_config, modify, set_heap. now rewrite (alter_some _ _ _ _ H).
  - unfold ret. now rewrite (set_heap_id _ _ _ H).
Qed.

Ltac by_defaults c :=
  destruct c as [? ? ? [?|] [?|] [?|] ?]; unfold fill_defaults; simpl;
  repeat (match goal with
          | |- context [Str.eqb ?s ""] => destruct (Str.eqb s "") eqn:?; simpl
          end);
  auto.

Lemma fill_defaults_tmpl c :
  recordDirTmpl (fill_defaults c)
  = Some (match recordDirTmpl c with Some t => t | None => default_recordDirTmpl end).
Proof. by_defaults c. Qed.

Lemma fill_defaults_outputDir c :
  outputDir (fill_defaults c)
  = Some (if falsy_string (outputDir c) then "output" else default "" (outputDir c)).
Proof. by_defaults c. Qed.

Lemma fill_defaults_account c :
  account (fill_defaults c)
  = Some (if falsy_string (account c) then "agora-recorder" else default "" (account c)).
Proof. by_defaults c. Qed.


(** After the defaults the getter cannot fail. *)
Lemma record_path_of_defaults dir c d :
  exists p, record_path_of dir (fill_defaults c) d = Normal p.
Proof.
  unfold record_path_of. rewrite fill_defaults_tmpl, fill_defaults_outputDir.
  apply PathFacts.resolve_total. repeat constructor; eauto.
Qed.

(** ** The constructor *)

(** Equal states are equal field by field; logs are compared up to the
    bracketing of their concatenations. *)
Lemma state_ext s s' :
  heap s = heap s' -> cwd s = cwd s' -> clock s = clock s' ->
  fs_denied s = fs_denied s' -> fs_dirs s = fs_dirs s' -> fs_files s = fs_files s' ->
  sdk_handlers s = sdk_handlers s' -> listeners s = listeners s' ->
  promises s = promises s' -> timers s = timers s' -> awaiting s = awaiting s' ->
  log s = log s' -> s = s'.
Proof. destruct s, s'. simpl. intros. subst. reflexivity. Qed.

Ltac state_eq :=
  apply state_ext;
  cbn [heap cwd clock fs_denied fs_dirs fs_files sdk_handlers listeners promises
       timers awaiting log
       joining suspended with_defaults cleared
       set_heap set_fs_dirs set_fs_files set_sdk_handlers
       set_listeners set_promises set_timers set_awaiting set_log chdir tick];
  rewrite <- ?app_assoc; reflexivity.

(** Running a straight-line body: the binds are opened, pairs are taken
    apart, nothing else is unfolded. *)
Ltac mrun :=
  unfold bind, effect, modify, gets, ret, lift, when; cbv beta iota.

Lemma sdk_on_each l st :
  for_each sdk_on l st
  = (Normal tt,
     set_log (fun lg => lg ++ map SdkOn l) (set_sdk_handlers (fun h => h ++ l) st)).
Proof.
  revert st. induction l as [|e l IH]; intros st.
  - unfold for_each, ret. f_equal. apply state_ext; cbn; rewrite ?app_nil_r; reflexivity.
  - cbn [for_each]. unfold bind. unfold sdk_on at 1. mrun. rewrite IH.
    f_equal. cbn [map]. state_eq.
Qed.

Lemma initEventHandler_eq st :
  initEventHandler st
  = (Normal tt,
     set_log (fun l => l ++ map SdkOn relayed_events)
       (set_sdk_handlers (fun l => l ++ relayed_events) st)).
Proof. apply sdk_on_each. Qed.

Lemma fs_mkdirSync_eq p st :
  fs_mkdirSync p st
  = if fs_denied st p then
      (Throw (FsError "mkdir" p), set_log (fun l => l ++ [FsMkdirSync p]) st)
    else
      (Normal tt, set_fs_dirs (fun d => {[p]} ∪ d) (set_log (fun l => l ++ [FsMkdirSync p]) st)).
Proof.
  unfold fs_mkdirSync. mrun. cbn [fs_denied set_log].
  destruct (fs_denied st p); reflexivity.
Qed.

Lemma constructor_eq rev cfg c st p :
  heap st !! cfg = Some c ->
  record_path_of (cwd st) (fill_defaults c) (clock st) = Normal p ->
  constructor rev cfg st =
    if fs_denied st p then
      (Throw (FsError "mkdir" p),
       set_log (fun l => l ++ [FsMkdirSync p]) (with_defaults cfg c st))
    else
      (Normal {| config := cfg; date := clock st |},
       set_log (fun l => l ++ FsMkdirSync p :: engine_setup rev (fill_defaults c))
         (set_sdk_handlers (fun _ => relayed_events)
            (set_fs_dirs (fun d => {[p]} ∪ d) (with_defaults cfg c st)))).
Proof.
  intros H Hp. unfold constructor.
  unfold bind at 1. unfold modify at 1.
  rewrite (default_step (fun c => falsy_string (account c)) _ cfg c) by exact H.
  rewrite (default_step (fun c => falsy_string (outputDir c)) _ cfg _)
    by (cbn [heap set_heap]; apply lookup_insert_eq).
  rewrite (default_step (fun c => falsy_function (recordDirTmpl c)) _ cfg _)
    by (cbn [heap set_heap]; apply lookup_insert_eq).
  match goal with
  | |- ?m ?s = _ => replace s with (with_defaults cfg c st)
  end.
  2:{ unfold with_defaults, fill_defaults, set_heap, set_listeners.
      cbn [heap cwd clock fs_denied fs_dirs fs_files sdk_handlers listeners promises
           timers awaiting log].
      now rewrite !insert_insert_eq. }
  assert (Hheap : heap (with_defaults cfg c st) !! cfg = Some (fill_defaults c))
    by (cbn [heap with_defaults set_heap set_listeners]; apply lookup_insert_eq).
  unfold bind at 1. unfold gets at 1. unfold bind at 1.
  rewrite (recordPath_eq {| config := cfg; date := _ |} _ _ Hheap).
  change (cwd (with_defaults cfg c st)) with (cwd st).
  change (clock (with_defaults cfg c st)) with (clock st).
  cbn [date]. rewrite Hp.
  unfold bind at 1. rewrite fs_mkdirSync_eq.
  change (fs_denied (with_defaults cfg c st)) with (fs_denied st).
  destruct (fs_denied st p) eqn:Hd; [reflexivity|].
  mrun.
  assert (Hheap' : forall f g h s, heap (set_sdk_handlers f (set_log g (set_fs_dirs h (set_log s (with_defaults cfg c st))))) !! cfg
                   = Some (fill_defaults c)) by (intros; exact Hheap).
  destruct rev.
  - rewrite initEventHandler_eq. f_equal. unfold engine_setup. state_eq.
  - rewrite (read_config_some cfg (fill_defaults c)) by apply Hheap'.
    unfold engine_setup.
    destruct (truthy_number (logLevel (fill_defaults c)));
      rewrite initEventHandler_eq; f_equal; state_eq.
Qed.

Lemma constructor_needs_object rev cfg st :
  heap st !! cfg = None -> is_throw (fst (constructor rev cfg st)) = true.
Proof.
  intros H. unfold constructor. unfold bind at 1 2. unfold modify at 1.
  unfold read_config at 1. cbn [heap set_listeners]. now rewrite H.
Qed.

(** ** Counting settlements *)

Lemma settlements_app q l l' :
  settlements q (l ++ l') = settlements q l + settlements q l'.
Proof. unfold settlements. now rewrite filter_app, length_app. Qed.

Lemma settlements_snoc q l e :
  settlements q (l ++ [e]) = settlements q l + (if is_settlement_of q e then 1 else 0).
Proof.
  rewrite settlements_app. f_equal. unfold settlements.
  rewrite filter_cons, filter_nil.
  destruct (is_settlement_of q e); [rewrite decide_True by done | rewrite decide_False by done];
    reflexivity.
Qed.

Lemma settlements_none q l :
  Forall (fun e => is_settlement_of q e = false) l -> settlements q l = 0.
Proof.
  induction 1 as [|e l He Hl IH]; [reflexivity|].
  unfold settlements in *. rewrite filter_cons, decide_False by congruence. exact IH.
Qed.

(** ** The invariant *)

(** Only six fields matter to the invariant. *)
Lemma wf_ext this st st' :
  awaiting st' = awaiting st -> promises st' = promises st ->
  listeners st' = listeners st -> log st' = log st ->
  sdk_handlers st' = sdk_handlers st -> heap st' = heap st ->
  wf this st -> wf this st'.
Proof.
  intros Ha Hp Hl Hg Hs Hh [W1 W2 W3 W4 W5].
  split; rewrite ?Ha, ?Hp, ?Hl, ?Hg, ?Hs, ?Hh; assumption.
Qed.

Lemma wf_effect this e st :
  (forall q, is_settlement_of q e = false) ->
  wf this st -> wf this (set_log (fun l => l ++ [e]) st).
Proof.
  intros He [W1 W2 W3 W4 W5]. split; simpl; try assumption.
  intros q. now rewrite settlements_snoc, He, Nat.add_0_r.
Qed.

Lemma wf_settle this q o st :
  o <> Pending -> awaiting st !! q = None ->
  wf this st -> wf this (snd (settle q o st)).
Proof.
  intros Ho Hq W. unfold settle.
  destruct (promises st !! q) as [[| |]|] eqn:E; simpl; try assumption.
  destruct W as [W1 W2 W3 W4 W5]. split; simpl; try assumption.
  - intros q' s Hq'. destruct (decide (q = q')) as [->|Hne]; [congruence|].
    rewrite list_lookup_insert_ne by assumption. eauto.
  - intros l q' Hl Hh. rewrite length_insert. eauto.
  - intros q'. rewrite settlements_snoc, W3. simpl.
    destruct (decide (q = q')) as [->|Hne].
    + rewrite Nat.eqb_refl, E.
      rewrite list_lookup_insert_eq by (eapply lookup_lt_Some; eassumption).
      destruct o; [congruence | reflexivity | reflexivity].
    + rewrite list_lookup_insert_ne by assumption.
      replace (q =? q') with false by (symmetry; now apply Nat.eqb_neq).
      apply Nat.add_0_r.
Qed.

Lemma wf_new_promise this st :
  wf this st -> wf this (set_promises (fun l => l ++ [Pending]) st).
Proof.
  intros [W1 W2 W3 W4 W5]. split; simpl; try assumption.
  - intros q s Hq. apply lookup_app_l_Some. eauto.
  - intros l q Hl Hh. rewrite length_app. simpl.
    destruct (W2 l q Hl Hh). split; [lia | assumption].
  - intros q. rewrite W3.
    destruct (decide (q < length (promises st))) as [Hlt|Hge].
    + now rewrite lookup_app_l.
    + rewrite (lookup_ge_None_2 (promises st)) by lia.
      destruct (decide (q = length (promises st))) as [->|Hne].
      * now rewrite list_lookup_middle.
      * rewrite lookup_ge_None_2; [reflexivity|]. rewrite length_app. simpl. lia.
Qed.

Lemma wf_park this p s st :
  promises st !! p = Some Pending ->
  (forall l, l ∈ listeners st -> handler_promise (l_handler l) <> Some p) ->
  wf this st -> wf this (set_awaiting (fun a => <[p := s]> a) st).
Proof.
  intros Hp Hfresh [W1 W2 W3 W4 W5]. split; simpl; try assumption.
  - intros q s' Hq. destruct (decide (p = q)) as [->|Hne]; [assumption|].
    rewrite lookup_insert_ne in Hq by assumption. eauto.
  - intros l q Hl Hh. destruct (W2 l q Hl Hh) as [Hlt Hnone].
    split; [assumption|].
    rewrite lookup_insert_ne; [assumption|].
    intros ->. now apply (Hfresh l Hl).
Qed.

Lemma wf_unpark this p st :
  wf this st -> wf this (set_awaiting (delete p) st).
Proof.
  intros [W1 W2 W3 W4 W5]. split; simpl; try assumption.
  - intros q s Hq. apply lookup_delete_Some in Hq as [_ Hq]. eauto.
  - intros l q Hl Hh. destruct (W2 l q Hl Hh) as [Hlt Hnone].
    split; [assumption|]. apply lookup_delete_None. now right.
Qed.

Lemma wf_add_listener this l st :
  (forall q, handler_promise (l_handler l) = Some q ->
             q < length (promises st) /\ awaiting st !! q = None) ->
  wf this st -> wf this (set_listeners (fun ls => ls ++ [l]) st).
Proof.
  intros Hl [W1 W2 W3 W4 W5]. split; simpl; try assumption.
  intros l' q Hin Hh. apply elem_of_app in Hin as [Hin|Hin]; [eauto|].
  apply list_elem_of_singleton in Hin as ->. eauto.
Qed.

Lemma wf_filter_listeners this (P : Listener -> Prop) `{forall l, Decision (P l)} st :
  wf this st -> wf this (set_listeners (filter P) st).
Proof.
  intros [W1 W2 W3 W4 W5]. split; simpl; try assumption.
  intros l q Hin Hh. apply list_elem_of_filter in Hin as [_ Hin]. eauto.
Qed.

Lemma wf_heap_alter this f ref st :
  wf this st -> wf this (set_heap (alter f ref) st).
Proof.
  intros [W1 W2 W3 W4 W5]. split; simpl; try assumption.
  destruct W5 as [c Hc].
  destruct (decide (ref = config this)) as [->|Hne].
  - rewrite lookup_alter_eq, Hc. simpl. eauto.
  - rewrite lookup_alter_ne by assumption. eauto.
Qed.

(** ** [start], in two halves *)

Lemma recordPath_pure this st : snd (recordPath this st) = st.
Proof.
  unfold recordPath, bind, read_config.
  destruct (heap st !! config this) as [c|]; [|reflexivity].
  destruct (recordDirTmpl c); reflexivity.
Qed.

Lemma start_call_eq this st :
  start_call this st
  = (length (promises st),
     match fst (recordPath this st) with
     | Normal rp => suspended (length (promises st)) rp st
     | Throw e =>
         snd (reject (length (promises st)) e (set_promises (fun l => l ++ [Pending]) st))
     end).
Proof.
  unfold start_call. f_equal.
  unfold run_async, bind, new_promise, start_prefix, bind.
  pose proof (recordPath_pure this (set_promises (fun l => l ++ [Pending]) st)) as Hpure.
  assert (Hfst : fst (recordPath this (set_promises (fun l => l ++ [Pending]) st))
                 = fst (recordPath this st)).
  { unfold recordPath, bind, read_config. cbn [heap set_promises].
    destruct (heap st !! config this) as [c|]; [|reflexivity].
    destruct (recordDirTmpl c); reflexivity. }
  destruct (recordPath this (set_promises (fun l => l ++ [Pending]) st)) as [r s'].
  cbn [fst snd] in *. subst s'. rewrite <- Hfst.
  destruct r; reflexivity.
Qed.

Lemma applite_dir_exists dir :
  exists bin, Path.resolve dir [Some "node_modules"; Some ".bin"] = Normal bin.
Proof. apply PathFacts.resolve_total. repeat constructor; eauto. Qed.

Lemma start_suffix_eq rev this c p cfgPath bin st :
  heap st !! config this = Some c ->
  Path.resolve (cwd st) [Some "node_modules"; Some ".bin"] = Normal bin ->
  start_suffix rev this p cfgPath st = (Normal tt, joining rev c p bin cfgPath st).
Proof.
  intros H Hbin. unfold start_suffix, bind.
  rewrite (read_config_some _ _ _ H). unfold gets, lift. rewrite Hbin.
  unfold joining, join_effects, arbiters, join_request, timeout_of.
  destruct rev; unfold once, setTimeout, effect, add_listener, modify, gets, bind, ret;
    simpl; f_equal; state_eq.
Qed.

Lemma write_done_eq rev this c p s bin st :
  heap st !! config this = Some c ->
  Path.resolve (cwd st) [Some "node_modules"; Some ".bin"] = Normal bin ->
  awaiting st !! p = Some s ->
  write_done rev this p st
  = if fs_denied st (s_cfgPath s) then
      snd (reject p (FsError "open" (s_cfgPath s)) (set_awaiting (delete p) st))
    else
      joining rev c p bin (s_cfgPath s)
        (set_fs_files (fun f => <[s_cfgPath s := s_content s]> f)
           (set_awaiting (delete p) st)).
Proof.
  intros H Hbin Hs. unfold write_done. rewrite Hs. simpl fs_denied.
  destruct (fs_denied st (s_cfgPath s)); [reflexivity|].
  unfold run_async. now rewrite (start_suffix_eq rev this c p _ bin).
Qed.

(** ** Emissions *)

Lemma call_handler_eq e l args st :
  call_handler e (l_handler l) args st = (Normal tt, handled e args st l).
Proof.
  unfold call_handler, handled, cleared.
  destruct (l_handler l) as [p [t|]|p [t|]|id]; unfold bind, clearTimeout, effect, modify, ret, resolve, reject;
    simpl; try reflexivity;
    match goal with |- context [settle ?p ?o ?s] => destruct (settle p o s) as [[[]|] ?] eqn:E end;
    try reflexivity; unfold settle in E;
    match type of E with context [promises ?s !! ?p] => destruct (promises s !! p) as [[| |]|] end;
    discriminate.
Qed.

Lemma for_each_handlers e args ls st :
  for_each (fun l => call_handler e (l_handler l) args) ls st
  = (Normal tt, fold_left (handled e args) ls st).
Proof.
  revert st. induction ls as [|l ls IH]; intros st; [reflexivity|].
  simpl. unfold bind. rewrite call_handler_eq. apply IH.
Qed.

Lemma emit_eq e args st : emit e args st = (Normal tt, emitted e args st).
Proof.
  unfold emit, bind, gets, modify. simpl. now rewrite for_each_handlers.
Qed.

Lemma all_events_relayed e : e ∈ relayed_events.
Proof. destruct e; unfold relayed_events; set_solver. Qed.

Lemma native_callback_eq this e args st :
  wf this st ->
  native_callback e args st = emitted e (parameters (relay_arity e) args) st.
Proof.
  intros W. unfold native_callback.
  rewrite bool_decide_eq_true_2 by (rewrite (wf_sdk _ _ W); apply all_events_relayed).
  unfold run_sync, relay. now rewrite emit_eq.
Qed.

(** ** The invariant is kept *)

Lemma wf_cleared this t st : wf this st -> wf this (cleared t st).
Proof.
  intros W. destruct t as [id|]; [|exact W]. unfold cleared.
  apply (wf_ext this (set_log (fun l => l ++ [ClearTimeout id]) st)); try reflexivity.
  now apply wf_effect.
Qed.

Lemma handled_awaiting e args st l : awaiting (handled e args st l) = awaiting st.
Proof.
  unfold handled, resolve, reject, settle, cleared.
  destruct (l_handler l) as [p [t|]|p [t|]|id]; simpl; try reflexivity;
    match goal with |- context [promises ?s !! ?p] => destruct (promises s !! p) as [[| |]|] end;
    reflexivity.
Qed.

Lemma handled_length e args st l :
  length (promises (handled e args st l)) = length (promises st).
Proof.
  unfold handled, resolve, reject, settle, cleared.
  destruct (l_handler l) as [p [t|]|p [t|]|id]; simpl; try reflexivity;
    match goal with |- context [promises ?s !! ?p] => destruct (promises s !! p) as [[| |]|] end;
    simpl; rewrite ?length_insert; reflexivity.
Qed.

Lemma wf_handled this e args st l :
  (forall q, handler_promise (l_handler l) = Some q -> awaiting st !! q = None) ->
  wf this st -> wf this (handled e args st l).
Proof.
  intros Hq W. unfold handled.
  destruct (l_handler l) as [p t|p t|id]; simpl in Hq.
  - apply wf_settle; [discriminate | | now apply wf_cleared].
    destruct t; simpl; eauto.
  - apply wf_settle; [discriminate | | now apply wf_cleared].
    destruct t; simpl; eauto.
  - now apply wf_effect.
Qed.

Lemma wf_fold_handled this e args ls st :
  (forall l q, l ∈ ls -> handler_promise (l_handler l) = Some q -> awaiting st !! q = None) ->
  wf this st -> wf this (fold_left (handled e args) ls st).
Proof.
  revert st. induction ls as [|l ls IH]; intros st Hq W; [exact W|].
  simpl. apply IH.
  - intros l' q Hin Hh. rewrite handled_awaiting. eapply Hq; [|eassumption]. now right.
  - apply wf_handled; [|exact W]. intros q Hh. eapply Hq; [|eassumption]. now left.
Qed.

Lemma wf_emitted this e args st : wf this st -> wf this (emitted e args st).
Proof.
  intros W. unfold emitted. apply wf_fold_handled.
  - intros l q Hin Hh. apply list_elem_of_filter in Hin as [_ Hin].
    simpl. now destruct (wf_listeners _ _ W l q Hin Hh).
  - now apply wf_filter_listeners.
Qed.

Lemma awaiting_is_allocated this st p s :
  wf this st -> awaiting st !! p = Some s -> p < length (promises st).
Proof.
  intros W Hs. eapply lookup_lt_Some. eapply wf_awaiting; eassumption.
Qed.

Lemma wf_start_call this st : wf this st -> wf this (snd (start_call this st)).
Proof.
  intros W. rewrite (start_call_eq this st). cbn [snd].
  assert (Hnone : awaiting st !! length (promises st) = None).
  { destruct (awaiting st !! length (promises st)) eqn:E; [|reflexivity].
    pose proof (awaiting_is_allocated _ _ _ _ W E). lia. }
  destruct (fst (recordPath this st)) as [rp|e].
  - unfold suspended. apply wf_park.
    + simpl. apply list_lookup_middle. reflexivity.
    + simpl. intros l Hin Hh.
      destruct (wf_listeners _ _ W l _ Hin Hh). lia.
    + apply wf_effect; [reflexivity|]. now apply wf_new_promise.
  - apply wf_settle; [discriminate | exact Hnone | now apply wf_new_promise].
Qed.

Lemma wf_joining this rev c p bin cfgPath st :
  p < length (promises st) -> awaiting st !! p = None ->
  wf this st -> wf this (joining rev c p bin cfgPath st).
Proof.
  intros Hp Hnone W. unfold joining.
  set (st1 := set_timers _ st).
  assert (W1 : wf this st1) by (apply (wf_ext this st); try reflexivity; exact W).
  assert (W2 : wf this (set_listeners (fun ls => ls ++ arbiters rev p (length (timers st))) st1)).
  { unfold arbiters.
    change (fun ls : list Listener => ls ++ [?a; ?b]) with (fun ls : list Listener => ls ++ [a] ++ [b]).
    apply (wf_ext this
             (set_listeners (fun ls => ls ++ [ {| l_event := REC_EVENT_ERROR; l_once := true;
                                                  l_handler := H_error_reject p (timeout_of rev (length (timers st))) |} ])
                (set_listeners (fun ls => ls ++ [ {| l_event := REC_EVENT_JOIN_CHANNEL; l_once := true;
                                                     l_handler := H_join_resolve p (timeout_of rev (length (timers st))) |} ])
                   st1))); try reflexivity.
    { simpl. now rewrite <- app_assoc. }
    apply wf_add_listener; [simpl; intros q [= <-]; auto|].
    apply wf_add_listener; [simpl; intros q [= <-]; auto|].
    exact W1. }
  destruct W2 as [A B C D E]. split; simpl; try assumption.
  intros q. rewrite settlements_app. simpl in C. rewrite C.
  rewrite settlements_none; [apply Nat.add_0_r|].
  unfold join_effects, join_request. destruct rev; repeat constructor.
Qed.

Lemma wf_write_done this rev p st : wf this st -> wf this (write_done rev this p st).
Proof.
  intros W. destruct (awaiting st !! p) as [s|] eqn:Hs.
  2:{ unfold write_done. now rewrite Hs. }
  destruct (wf_config _ _ W) as [c Hc].
  destruct (applite_dir_exists (cwd st)) as [bin Hbin].
  rewrite (write_done_eq rev this c p s bin st Hc Hbin Hs).
  pose proof (awaiting_is_allocated _ _ _ _ W Hs) as Hlt.
  destruct (fs_denied st (s_cfgPath s)).
  - apply wf_settle; [discriminate | simpl; apply lookup_delete_eq | now apply wf_unpark].
  - apply wf_joining; [exact Hlt | simpl; apply lookup_delete_eq |].
    apply (wf_ext this (set_awaiting (delete p) st)); try reflexivity.
    now apply wf_unpark.
Qed.

Lemma wf_timer_expired this id st : wf this st -> wf this (timer_expired id st).
Proof.
  intros W. unfold timer_expired.
  destruct (timers st !! id) as [[| |]|]; try exact W.
  unfold run_sync, effect, modify. simpl.
  apply wf_effect; [reflexivity|].
  apply (wf_ext this st); try reflexivity. exact W.
Qed.

Theorem wf_run_turn rev this t st : wf this st -> wf this (run_turn rev this t st).
Proof.
  intros W. destruct t; simpl.
  - now apply wf_start_call.
  - now apply wf_write_done.
  - rewrite (native_callback_eq this) by exact W. now apply wf_emitted.
  - now apply wf_timer_expired.
  - unfold run_sync, stop, bind, effect, modify. simpl.
    apply wf_effect; [reflexivity|]. now apply wf_effect.
  - unfold run_sync, setMixLayout, effect, modify. simpl. now apply wf_effect.
  - unfold run_sync, add_listener, modify. simpl.
    apply wf_add_listener; [discriminate | exact W].
  - unfold run_sync, add_listener, modify. simpl.
    apply wf_add_listener; [discriminate | exact W].
  - apply (wf_ext this st); try reflexivity. exact W.
  - apply (wf_ext this st); try reflexivity. exact W.
  - unfold run_sync, update_config, modify. simpl. now apply wf_heap_alter.
Qed.

Lemma wf_constructed rev this cfg dir now denied objects st :
  constructor rev cfg (initial_state dir now denied objects) = (Normal this, st) ->
  wf this st.
Proof.
  intros H.
  destruct (objects !! cfg) as [c|] eqn:Hc.
  2:{ pose proof (constructor_needs_object rev cfg (initial_state dir now denied objects) Hc) as Ht.
      rewrite H in Ht. discriminate. }
  destruct (record_path_of_defaults dir c now) as [p Hp].
  rewrite (constructor_eq rev cfg c (initial_state dir now denied objects) p Hc Hp) in H.
  cbn [fs_denied initial_state] in H. destruct (denied p); [discriminate|].
  injection H as <- <-.
  split; simpl; try reflexivity.
  - intros q s Hq. now rewrite lookup_empty in Hq.
  - intros l q Hin. now apply elem_of_nil in Hin.
  - intros q. apply settlements_none. unfold engine_setup.
    constructor; [reflexivity|]. constructor; [reflexivity|].
    apply Forall_app. split.
    + destruct rev; [constructor|].
      destruct (truthy_number _); repeat constructor.
    + unfold relayed_events. simpl. repeat constructor.
  - rewrite lookup_insert_eq. eauto.
Qed.

(** Every reachable state satisfies the invariant. *)
Theorem reachable_wf rev this st : reachable rev this st -> wf this st.
Proof.
  induction 1 as [dir now denied objects cfg st H | st t _ IH].
  - eapply wf_constructed; eassumption.
  - now apply wf_run_turn.
Qed.

(** ** Following one promise *)

Lemma cleared_promises t st : promises (cleared t st) = promises st.
Proof. now destruct t. Qed.

Lemma settle_lookup q o st p :
  promises (snd (settle q o st)) !! p
  = if bool_decide (q = p) then
      match promises st !! p with
      | Some Pending => Some o
      | other => other
      end
    else promises st !! p.
Proof.
  unfold settle. case_bool_decide as Hq.
  - subst q. destruct (promises st !! p) as [[| |]|] eqn:E; cbn; rewrite ?E; try reflexivity.
    apply list_lookup_insert_eq. eapply lookup_lt_Some; eassumption.
  - destruct (promises st !! q) as [[| |]|]; cbn; try reflexivity.
    now apply list_lookup_insert_ne.
Qed.

Lemma handled_other e args st l p :
  handler_promise (l_handler l) <> Some p ->
  promises (handled e args st l) !! p = promises st !! p.
Proof.
  unfold handled, resolve, reject. intros Hne.
  destruct (l_handler l) as [q t|q t|id]; cbn in Hne; [| |reflexivity];
    rewrite settle_lookup, bool_decide_eq_false_2 by congruence;
    now rewrite cleared_promises.
Qed.

Lemma handled_keeps_settled e args st l p o :
  promises st !! p = Some o -> o <> Pending ->
  promises (handled e args st l) !! p = Some o.
Proof.
  unfold handled, resolve, reject. intros Hp Ho.
  destruct (l_handler l) as [q t|q t|id]; [| |exact Hp];
    rewrite settle_lookup, cleared_promises, Hp;
    case_bool_decide; destruct o; congruence.
Qed.

Lemma fold_handled_keeps_settled e args ls st p o :
  promises st !! p = Some o -> o <> Pending ->
  promises (fold_left (handled e args) ls st) !! p = Some o.
Proof.
  revert st. induction ls as [|l ls IH]; intros st Hp Ho; [exact Hp|].
  cbn [fold_left]. apply IH; [|exact Ho]. now apply handled_keeps_settled.
Qed.

(** Calling listeners of which the only ones for [p] resolve it: the
    promise is fulfilled as soon as one of them is among those called. *)
Lemma fold_handled_join e args ls st p :
  promises st !! p = Some Pending ->
  (forall l, l ∈ ls -> handler_promise (l_handler l) = Some p ->
             exists t, l_handler l = H_join_resolve p t) ->
  (exists l, l ∈ ls /\ handler_promise (l_handler l) = Some p) ->
  promises (fold_left (handled e args) ls st) !! p = Some (Fulfilled (VBool true)).
Proof.
  revert st. induction ls as [|l ls IH]; intros st Hp Honly [l0 [Hin Hl0]].
  { now apply elem_of_nil in Hin. }
  cbn [fold_left].
  destruct (decide (handler_promise (l_handler l) = Some p)) as [Hl|Hl].
  - destruct (Honly l (list_elem_of_here _ _) Hl) as [t Ht].
    apply fold_handled_keeps_settled; [|discriminate].
    unfold handled. rewrite Ht. unfold resolve.
    rewrite settle_lookup, bool_decide_eq_true_2, cleared_promises, Hp by reflexivity.
    reflexivity.
  - apply IH.
    + now rewrite handled_other.
    + intros l' Hin'. apply Honly. now right.
    + apply elem_of_cons in Hin as [->|Hin]; [contradiction|]. eauto.
Qed.

Lemma fold_handled_error e args ls st p :
  promises st !! p = Some Pending ->
  (forall l, l ∈ ls -> handler_promise (l_handler l) = Some p ->
             exists t, l_handler l = H_error_reject p t) ->
  (exists l, l ∈ ls /\ handler_promise (l_handler l) = Some p) ->
  promises (fold_left (handled e args) ls st) !! p
  = Some (Rejected (first_parameter args)).
Proof.
  revert st. induction ls as [|l ls IH]; intros st Hp Honly [l0 [Hin Hl0]].
  { now apply elem_of_nil in Hin. }
  cbn [fold_left].
  destruct (decide (handler_promise (l_handler l) = Some p)) as [Hl|Hl].
  - destruct (Honly l (list_elem_of_here _ _) Hl) as [t Ht].
    apply fold_handled_keeps_settled; [|discriminate].
    unfold handled. rewrite Ht. unfold reject.
    rewrite settle_lookup, bool_decide_eq_true_2, cleared_promises, Hp by reflexivity.
    reflexivity.
  - apply IH.
    + now rewrite handled_other.
    + intros l' Hin'. apply Honly. now right.
    + apply elem_of_cons in Hin as [->|Hin]; [contradiction|]. eauto.
Qed.

Lemma fold_handled_others e args ls st p :
  (forall l, l ∈ ls -> handler_promise (l_handler l) <> Some p) ->
  promises (fold_left (handled e args) ls st) !! p = promises st !! p.
Proof.
  revert st. induction ls as [|l ls IH]; intros st Hne; [reflexivity|].
  cbn [fold_left]. rewrite IH.
  - apply handled_other. apply Hne. now left.
  - intros l' Hin. apply Hne. now right.
Qed.

Lemma listens_to_iff e l : listens_to e l = true <-> l_event l = e.
Proof. unfold listens_to, event_eqb. apply bool_decide_eq_true. Qed.

(** The success callback fulfils an arbitrated promise with [true]. *)
Lemma emitted_join_fulfils p args st :
  arbitrating p st ->
  promises (emitted REC_EVENT_JOIN_CHANNEL args st) !! p = Some (Fulfilled (VBool true)).
Proof.
  intros [Hp [lj [Hlj [Hej [tj Hhj]]]] _ Honly]. unfold emitted.
  apply fold_handled_join.
  - exact Hp.
  - intros l Hin Hl. apply list_elem_of_filter in Hin as [He Hin].
    apply listens_to_iff in He.
    destruct (Honly l Hin Hl) as [[_ Ht]|[He' _]]; [exact Ht | congruence].
  - exists lj. split.
    + apply list_elem_of_filter. split; [now apply listens_to_iff | exact Hlj].
    + now rewrite Hhj.
Qed.

(** The error callback rejects an arbitrated promise with its first argument. *)
Lemma emitted_error_rejects p args st :
  arbitrating p st ->
  promises (emitted REC_EVENT_ERROR args st) !! p = Some (Rejected (first_parameter args)).
Proof.
  intros [Hp _ [le [Hle [Hee [te Hhe]]]] Honly]. unfold emitted.
  apply fold_handled_error.
  - exact Hp.
  - intros l Hin Hl. apply list_elem_of_filter in Hin as [He Hin].
    apply listens_to_iff in He.
    destruct (Honly l Hin Hl) as [[He' _]|[_ Ht]]; [congruence | exact Ht].
  - exists le. split.
    + apply list_elem_of_filter. split; [now apply listens_to_iff | exact Hle].
    + now rewrite Hhe.
Qed.

(** Resuming a call whose write succeeded puts its promise under arbitration. *)
Lemma write_done_arbitrating rev this p s st :
  wf this st -> awaiting st !! p = Some s -> fs_denied st (s_cfgPath s) = false ->
  arbitrating p (write_done rev this p st).
Proof.
  intros W Hs Hok.
  destruct (wf_config _ _ W) as [c Hc].
  destruct (applite_dir_exists (cwd st)) as [bin Hbin].
  rewrite (write_done_eq rev this c p s bin st Hc Hbin Hs), Hok.
  split; cbn [promises listeners joining set_log set_listeners set_timers set_fs_files
                set_awaiting].
  - eapply wf_awaiting; eassumption.
  - eexists. split; [apply elem_of_app; right; unfold arbiters; apply list_elem_of_here|].
    split; [reflexivity | eexists; reflexivity].
  - eexists. split.
    + apply elem_of_app; right; unfold arbiters. apply list_elem_of_further, list_elem_of_here.
    + split; [reflexivity | eexists; reflexivity].
  - intros l Hin Hl. apply elem_of_app in Hin as [Hin|Hin].
    + destruct (wf_listeners _ _ W l p Hin Hl) as [_ Hnone]. congruence.
    + unfold arbiters in Hin. apply elem_of_cons in Hin as [->|Hin].
      * left. split; [reflexivity | eexists; reflexivity].
      * apply list_elem_of_singleton in Hin as ->.
        right. split; [reflexivity | eexists; reflexivity].
Qed.

(** A settled promise never changes again. *)
Lemma run_turn_keeps_settled rev this t st p o :
  wf this st -> promises st !! p = Some o -> o <> Pending ->
  promises (run_turn rev this t st) !! p = Some o.
Proof.
  intros W Hp Ho.
  assert (Hlt : p < length (promises st)) by (eapply lookup_lt_Some; eassumption).
  destruct t; cbn [run_turn]; try exact Hp.
  - rewrite start_call_eq. cbn [snd].
    destruct (fst (recordPath this st)) as [rp|e].
    + cbn [promises suspended set_awaiting set_log set_promises].
      now apply lookup_app_l_Some.
    + unfold reject. rewrite settle_lookup, bool_decide_eq_false_2 by lia.
      cbn [promises set_promises]. now apply lookup_app_l_Some.
  - destruct (awaiting st !! promise) as [s|] eqn:Hs.
    2:{ unfold write_done. now rewrite Hs. }
    destruct (wf_config _ _ W) as [c Hc].
    destruct (applite_dir_exists (cwd st)) as [bin Hbin].
    rewrite (write_done_eq rev this c promise s bin st Hc Hbin Hs).
    destruct (fs_denied st (s_cfgPath s)).
    + unfold reject. rewrite settle_lookup. cbn [promises set_awaiting]. rewrite Hp.
      case_bool_decide; destruct o; congruence.
    + exact Hp.
  - rewrite (native_callback_eq this) by exact W.
    unfold emitted. now apply fold_handled_keeps_settled.
  - unfold timer_expired. destruct (timers st !! id) as [[| |]|]; exact Hp.
Qed.

Lemma run_turns_keeps_settled rev this ts st p o :
  reachable rev this st -> promises st !! p = Some o -> o <> Pending ->
  promises (run_turns rev this ts st) !! p = Some o.
Proof.
  revert st. induction ts as [|t ts IH]; intros st R Hp Ho; [exact Hp|].
  cbn [run_turns fold_left]. apply IH; [now constructor | | exact Ho].
  apply run_turn_keeps_settled; [now apply (reachable_wf rev) | exact Hp | exact Ho].
Qed.

Lemma reachable_run_turns rev this ts st :
  reachable rev this st -> reachable rev this (run_turns rev this ts st).
Proof.
  revert st. induction ts as [|t ts IH]; intros st R; [exact R|].
  cbn [run_turns fold_left]. apply IH. now constructor.
Qed.

Lemma arbitrating_not_awaiting this p st :
  wf this st -> arbitrating p st -> awaiting st !! p = None /\ p < length (promises st).
Proof.
  intros W [_ [l [Hin [_ [t Ht]]]] _ _].
  destruct (wf_listeners _ _ W l p Hin) as [Hlt Hnone]; [now rewrite Ht|]. auto.
Qed.

(** Arbitration only depends on the promises and the listeners. *)
Lemma arbitrating_ext p st st' :
  promises st' = promises st -> listeners st' = listeners st ->
  arbitrating p st -> arbitrating p st'.
Proof. intros Hp Hl [A B C D]. split; rewrite ?Hp, ?Hl; assumption. Qed.

Lemma arbitrating_more_listeners p st ls :
  (forall l, l ∈ ls -> handler_promise (l_handler l) <> Some p) ->
  arbitrating p st -> arbitrating p (set_listeners (fun old => old ++ ls) st).
Proof.
  intros Hls [A [lj [Hj Hj']] [le [He He']] D]. split; cbn [promises listeners set_listeners].
  - exact A.
  - exists lj. split; [apply elem_of_app; now left | exact Hj'].
  - exists le. split; [apply elem_of_app; now left | exact He'].
  - intros l Hin Hl. apply elem_of_app in Hin as [Hin|Hin]; [now apply D|].
    now destruct (Hls l Hin).
Qed.

Lemma handled_listeners e args st l : listeners (handled e args st l) = listeners st.
Proof.
  unfold handled, resolve, reject, settle, cleared.
  destruct (l_handler l) as [p [t|]|p [t|]|id]; cbn; try reflexivity;
    match goal with |- context [?ps !! ?p] => destruct (ps !! p) as [[| |]|] end;
    reflexivity.
Qed.

Lemma fold_handled_listeners e args ls st :
  listeners (fold_left (handled e args) ls st) = listeners st.
Proof.
  revert st. induction ls as [|l ls IH]; intros st; [reflexivity|].
  cbn [fold_left]. rewrite IH. apply handled_listeners.
Qed.

Lemma emitted_listeners e args st :
  listeners (emitted e args st) = filter (fun l => survives e l = true) (listeners st).
Proof. unfold emitted. now rewrite fold_handled_listeners. Qed.

Lemma survives_other e l : l_event l <> e -> survives e l = true.
Proof.
  intros Hne. unfold survives.
  replace (listens_to e l) with false; [reflexivity|].
  symmetry. apply not_true_iff_false. rewrite listens_to_iff. exact Hne.
Qed.

(** Emitting any other event leaves an arbitration as it is. *)
Lemma arbitrating_emitted p e args st :
  e <> REC_EVENT_JOIN_CHANNEL -> e <> REC_EVENT_ERROR ->
  arbitrating p st -> arbitrating p (emitted e args st).
Proof.
  intros Hj He [A [lj [Hlj Hlj']] [le [Hle Hle']] D].
  split; rewrite ?emitted_listeners.
  - unfold emitted. rewrite fold_handled_others; [exact A|].
    intros l Hin Hl. apply list_elem_of_filter in Hin as [Hev Hin].
    apply listens_to_iff in Hev.
    destruct (D l Hin Hl) as [[Hev' _]|[Hev' _]]; congruence.
  - exists lj. split; [|exact Hlj'].
    apply list_elem_of_filter. split; [|exact Hlj].
    apply survives_other. destruct Hlj' as [-> _]. congruence.
  - exists le. split; [|exact Hle'].
    apply list_elem_of_filter. split; [|exact Hle].
    apply survives_other. destruct Hle' as [-> _]. congruence.
  - intros l Hin. apply list_elem_of_filter in Hin as [_ Hin]. now apply D.
Qed.

Lemma arbitrating_new_promise p st :
  arbitrating p st -> arbitrating p (set_promises (fun l => l ++ [Pending]) st).
Proof.
  intros [A B C D]. split; cbn [promises listeners set_promises]; try assumption.
  now apply lookup_app_l_Some.
Qed.

Lemma arbitrating_settle_other p q o st :
  q <> p -> arbitrating p st -> arbitrating p (snd (settle q o st)).
Proof.
  intros Hne [A B C D].
  assert (Hl : listeners (snd (settle q o st)) = listeners st).
  { unfold settle. destruct (promises st !! q) as [[| |]|]; reflexivity. }
  split; rewrite ?Hl; try assumption.
  now rewrite settle_lookup, bool_decide_eq_false_2.
Qed.

(** Until a completion callback is delivered, an arbitration stays as it
    is: whatever else happens, timers included, the promise is pending
    and both listeners are subscribed. *)
Lemma run_turn_keeps_arbitrating rev this t st p :
  wf this st -> arbitrating p st -> is_completion t = false ->
  arbitrating p (run_turn rev this t st).
Proof.
  intros W A Ht.
  destruct (arbitrating_not_awaiting this p st W A) as [Hnone Hlt].
  destruct t; cbn [run_turn].
  - rewrite start_call_eq. cbn [snd].
    destruct (fst (recordPath this st)) as [rp|e].
    + unfold suspended.
      eapply arbitrating_ext; [| |apply arbitrating_new_promise; exact A]; reflexivity.
    + apply arbitrating_settle_other; [lia|]. now apply arbitrating_new_promise.
  - destruct (awaiting st !! promise) as [s|] eqn:Hs.
    2:{ unfold write_done. now rewrite Hs. }
    assert (Hne : promise <> p) by congruence.
    destruct (wf_config _ _ W) as [c Hc].
    destruct (applite_dir_exists (cwd st)) as [bin Hbin].
    rewrite (write_done_eq rev this c promise s bin st Hc Hbin Hs).
    destruct (fs_denied st (s_cfgPath s)).
    + apply arbitrating_settle_other; [exact Hne|].
      eapply arbitrating_ext; [| |exact A]; reflexivity.
    + unfold joining.
      eapply arbitrating_ext;
        [| |apply (arbitrating_more_listeners p st (arbiters rev promise (length (timers st))))];
        try reflexivity; [|exact A].
      intros l Hin. unfold arbiters in Hin.
      apply elem_of_cons in Hin as [->|Hin];
        [|apply list_elem_of_singleton in Hin as ->]; cbn; congruence.
  - rewrite (native_callback_eq this) by exact W.
    apply arbitrating_emitted; [| |exact A]; intros ->; discriminate Ht.
  - unfold timer_expired. destruct (timers st !! id) as [[| |]|]; try exact A.
    eapply arbitrating_ext; [| |exact A]; reflexivity.
  - eapply arbitrating_ext; [| |exact A]; reflexivity.
  - eapply arbitrating_ext; [| |exact A]; reflexivity.
  - apply (arbitrating_more_listeners p st [_]); [|exact A].
    intros l Hin. apply list_elem_of_singleton in Hin as ->. discriminate.
  - apply (arbitrating_more_listeners p st [_]); [|exact A].
    intros l Hin. apply list_elem_of_singleton in Hin as ->. discriminate.
  - eapply arbitrating_ext; [| |exact A]; reflexivity.
  - eapply arbitrating_ext; [| |exact A]; reflexivity.
  - eapply arbitrating_ext; [| |exact A]; reflexivity.
Qed.

Lemma run_turns_keeps_arbitrating rev this ts st p :
  reachable rev this st -> arbitrating p st ->
  forallb (fun t => negb (is_completion t)) ts = true ->
  arbitrating p (run_turns rev this ts st).
Proof.
  intros R A. revert st R A. induction ts as [|t ts IH]; intros st R A Hts; [exact A|].
  cbn [forallb] in Hts. apply andb_true_iff in Hts as [Ht Hts].
  cbn [run_turns fold_left]. apply IH; [now constructor | | exact Hts].
  apply run_turn_keeps_arbitrating; [now apply (reachable_wf rev) | exact A |].
  now apply negb_true_iff.
Qed.

Lemma run_turns_app rev this ts ts' st :
  run_turns rev this (ts ++ ts') st = run_turns rev this ts' (run_turns rev this ts st).
Proof. apply fold_left_app. Qed.

(** The count of settlements in a reachable state, from the promise. *)
Lemma reachable_settlements rev this st p :
  reachable rev this st -> settlements p (log st) = settled_count (promises st !! p).
Proof. intros R. apply (wf_log this st). now apply (reachable_wf rev). Qed.

(** Delivering the success callback to an arbitration. *)
Lemma join_callback_fulfils rev this st p args :
  reachable rev this st -> arbitrating p st ->
  promises (run_turn rev this (T_native REC_EVENT_JOIN_CHANNEL args) st) !! p
  = Some (Fulfilled (VBool true)).
Proof.
  intros R A. cbn [run_turn].
  rewrite (native_callback_eq this) by now apply (reachable_wf rev).
  now apply emitted_join_fulfils.
Qed.

(** Delivering the error callback to an arbitration. *)
Lemma error_callback_rejects rev this st p args :
  reachable rev this st -> arbitrating p st ->
  promises (run_turn rev this (T_native REC_EVENT_ERROR args) st) !! p
  = Some (Rejected (first_parameter (parameters 2 args))).
Proof.
  intros R A. cbn [run_turn].
  rewrite (native_callback_eq this) by now apply (reachable_wf rev).
  now apply emitted_error_rejects.
Qed.

(** * Properties of the specification *)

(** C1. Join arbitration settles exactly once.  Take any reachable state
    in which a call of [start] is suspended on a write that succeeds, and
    resume it, which submits the join request.  Whichever of the success
    and the error callback is delivered first settles the promise of that
    call (fulfilled with [true], or rejected with the error code); the
    other callback, and any turns [more] that follow, leave the promise
    as it is, and the log holds exactly one settlement of it. *)
Theorem join_arbitration_settles_once rev this st p s args_ok args_err more :
  reachable rev this st ->
  awaiting st !! p = Some s ->
  fs_denied st (s_cfgPath s) = false ->
  let submitted := run_turn rev this (T_write_done p) st in
  let ok := T_native REC_EVENT_JOIN_CHANNEL args_ok in
  let err := T_native REC_EVENT_ERROR args_err in
  let fulfilled := Some (Fulfilled (VBool true)) in
  let rejected := Some (Rejected (first_parameter (parameters 2 args_err))) in
  (promises (run_turns rev this [ok] submitted) !! p = fulfilled
   /\ settlements p (log (run_turns rev this [ok] submitted)) = 1
   /\ promises (run_turns rev this ([ok; err] ++ more) submitted) !! p = fulfilled
   /\ settlements p (log (run_turns rev this ([ok; err] ++ more) submitted)) = 1)
  /\
  (promises (run_turns rev this [err] submitted) !! p = rejected
   /\ settlements p (log (run_turns rev this [err] submitted)) = 1
   /\ promises (run_turns rev this ([err; ok] ++ more) submitted) !! p = rejected
   /\ settlements p (log (run_turns rev this ([err; ok] ++ more) submitted)) = 1).
Proof.
  intros R Hs Hok submitted ok err fulfilled rejected.
  assert (RS : reachable rev this submitted) by now constructor.
  assert (A : arbitrating p submitted).
  { apply (write_done_arbitrating rev this p s st); [now apply (reachable_wf rev) | | ]; assumption. }
  assert (Hf : promises (run_turns rev this [ok] submitted) !! p = fulfilled)
    by now apply join_callback_fulfils.
  assert (Hr : promises (run_turns rev this [err] submitted) !! p = rejected)
    by now apply error_callback_rejects.
  assert (Hf' : promises (run_turns rev this ([ok; err] ++ more) submitted) !! p = fulfilled).
  { change ([ok; err] ++ more) with ([ok] ++ (err :: more)). rewrite run_turns_app.
    apply run_turns_keeps_settled; [now apply reachable_run_turns | exact Hf | discriminate]. }
  assert (Hr' : promises (run_turns rev this ([err; ok] ++ more) submitted) !! p = rejected).
  { change ([err; ok] ++ more) with ([err] ++ (ok :: more)). rewrite run_turns_app.
    apply run_turns_keeps_settled; [now apply reachable_run_turns | exact Hr | discriminate]. }
  repeat split; try assumption;
    rewrite (reachable_settlements rev this) by now apply reachable_run_turns.
  - now rewrite Hf.
  - now rewrite Hf'.
  - now rewrite Hr.
  - now rewrite Hr'.
Qed.

(** Closed statements about the examples are settled by evaluation. *)
Ltac by_computation :=
  repeat match goal with |- _ /\ _ => split end; vm_compute; reflexivity.

Lemma constructed_reachable rev : reachable rev the_recorder (constructed rev room1).
Proof.
  apply (reach_new rev the_recorder "/srv/app" new_year_10am never_denied {[ 0 := room1 ]} 0).
  destruct rev; vm_compute; reflexivity.
Qed.

Lemma parked_reachable rev : reachable rev the_recorder (parked rev).
Proof. apply reach_turn, constructed_reachable. Qed.

Lemma parked_awaiting rev :
  awaiting (parked rev) !! 0
  = Some (cfg_request "/srv/app/output/2024-01-01/10:00:00 room1").
Proof. destruct rev; vm_compute; reflexivity. Qed.

Lemma join_arbitration_settles_once_witness :
  promises (run_turns part_000 the_recorder ([join_success; join_error] ++ [T_timer 0; T_stop])
              (run_turn part_000 the_recorder (T_write_done 0) (parked part_000))) !! 0
  = Some (Fulfilled (VBool true))
  /\ settlements 0
       (log (run_turns part_000 the_recorder ([join_error; join_success] ++ [T_timer 0; T_stop])
               (run_turn part_000 the_recorder (T_write_done 0) (parked part_000)))) = 1.
Proof.
  pose proof (join_arbitration_settles_once part_000 the_recorder (parked part_000) 0
                (cfg_request "/srv/app/output/2024-01-01/10:00:00 room1")
                [VStr "room1"; VStr "uid42"] [VNum 5; VNum 101] [T_timer 0; T_stop]
                (parked_reachable part_000) (parked_awaiting part_000) eq_refl) as H.
  split; [exact (proj1 (proj2 (proj2 (proj1 H)))) | exact (proj2 (proj2 (proj2 (proj2 H))))].
Defined.

(** C2, as stated, fails.  In the run of the example the join request is
    logged first and the two completion listeners are subscribed after
    it, in both revisions. *)
Lemma listeners_are_registered_after_join_request :
  skipn 24 (log (run_turn AgoraRecorder_ts the_recorder (T_write_done 0) (parked AgoraRecorder_ts)))
  = [ join_request (fill_defaults room1) "/srv/app/node_modules/.bin"
        "/srv/app/output/2024-01-01/10:00:00 room1/cfg.json";
      EmitterOnce REC_EVENT_JOIN_CHANNEL; EmitterOnce REC_EVENT_ERROR ]
  /\ listeners_before_join
       (log (run_turn AgoraRecorder_ts the_recorder (T_write_done 0) (parked AgoraRecorder_ts)))
     = false
  /\ listeners_before_join
       (log (run_turn part_000 the_recorder (T_write_done 0) (parked part_000)))
     = false.
Proof. by_computation. Qed.

(** C2, amended.  The resumed part of [start] is one turn: it submits the
    join request and then, before the turn ends, subscribes the two
    completion listeners (in the later revision the timer is armed in
    between).  Nothing is delivered inside a turn, so a success or error
    callback delivered in a later turn finds both listeners and settles
    the promise. *)
Theorem listeners_registered_in_the_turn_of_the_join_request rev this st p s :
  reachable rev this st ->
  awaiting st !! p = Some s ->
  fs_denied st (s_cfgPath s) = false ->
  let submitted := run_turn rev this (T_write_done p) st in
  exists c appliteDir,
    heap st !! config this = Some c
    /\ log submitted
       = log st ++ join_request c appliteDir (s_cfgPath s)
                   :: match rev with
                      | AgoraRecorder_ts => []
                      | part_000 => [SetTimeout (length (timers st)) 5000]
                      end
                   ++ [EmitterOnce REC_EVENT_JOIN_CHANNEL; EmitterOnce REC_EVENT_ERROR]
    /\ listeners submitted = listeners st ++ arbiters rev p (length (timers st))
    /\ (forall args,
          promises (run_turn rev this (T_native REC_EVENT_JOIN_CHANNEL args) submitted) !! p
          = Some (Fulfilled (VBool true)))
    /\ (forall args,
          promises (run_turn rev this (T_native REC_EVENT_ERROR args) submitted) !! p
          = Some (Rejected (first_parameter (parameters 2 args)))).
Proof.
  intros R Hs Hok submitted.
  pose proof (reachable_wf rev this st R) as W.
  destruct (wf_config _ _ W) as [c Hc].
  destruct (applite_dir_exists (cwd st)) as [bin Hbin].
  assert (RS : reachable rev this submitted) by now constructor.
  assert (A : arbitrating p submitted)
    by (apply (write_done_arbitrating rev this p s st); assumption).
  assert (E : submitted = joining rev c p bin (s_cfgPath s)
                           (set_fs_files (fun f => <[s_cfgPath s := s_content s]> f)
                              (set_awaiting (delete p) st))).
  { unfold submitted. cbn [run_turn].
    now rewrite (write_done_eq rev this c p s bin st Hc Hbin Hs), Hok. }
  exists c, bin. split; [exact Hc|]. split; [|split; [|split]].
  - rewrite E. reflexivity.
  - rewrite E. reflexivity.
  - intros args. now apply join_callback_fulfils.
  - intros args. now apply error_callback_rejects.
Qed.

Lemma listeners_registered_in_the_turn_of_the_join_request_witness :
  exists c appliteDir,
    heap (parked part_000) !! 0 = Some c
    /\ log (run_turn part_000 the_recorder (T_write_done 0) (parked part_000))
       = log (parked part_000)
         ++ [ join_request c appliteDir "/srv/app/output/2024-01-01/10:00:00 room1/cfg.json";
              SetTimeout 0 5000;
              EmitterOnce REC_EVENT_JOIN_CHANNEL; EmitterOnce REC_EVENT_ERROR ].
Proof.
  destruct (listeners_registered_in_the_turn_of_the_join_request part_000 the_recorder
              (parked part_000) 0 (cfg_request "/srv/app/output/2024-01-01/10:00:00 room1")
              (parked_reachable part_000) (parked_awaiting part_000) eq_refl)
    as (c & bin & Hc & Hlog & _).
  exists c, bin. split; [exact Hc | exact Hlog].
Defined.

(** C3, as stated, fails.  When the engine reports join-error(5, 101)
    the promise is rejected with the number 5; the status code 101 is not
    in the rejection value. *)
Lemma rejection_carries_the_error_code_only :
  promises (run_turns AgoraRecorder_ts the_recorder [T_write_done 0; join_error]
              (parked AgoraRecorder_ts)) !! 0
  = Some (Rejected (VNum 5))
  /\ promises (run_turns part_000 the_recorder [T_write_done 0; join_error]
                 (parked part_000)) !! 0
     = Some (Rejected (VNum 5))
  /\ carries 5 (VNum 5) = true
  /\ carries 101 (VNum 5) = false.
Proof. by_computation. Qed.

(** C3, amended.  When the engine reports a join failure [(err, stat)]
    before any success event, whatever other turns [before] come in
    between, the promise returned by [start] is rejected with [err], the
    first of the two native codes, as it was reported. *)
Theorem join_error_rejects_with_the_error_code rev this st p s err stat rest before :
  reachable rev this st ->
  awaiting st !! p = Some s ->
  fs_denied st (s_cfgPath s) = false ->
  forallb (fun t => negb (is_completion t)) before = true ->
  promises (run_turns rev this
              ([T_write_done p] ++ before ++ [T_native REC_EVENT_ERROR (err :: stat :: rest)])
              st) !! p
  = Some (Rejected err).
Proof.
  intros R Hs Hok Hbefore.
  rewrite !run_turns_app.
  change (run_turns rev this [T_write_done p] st) with (run_turn rev this (T_write_done p) st).
  set (submitted := run_turn rev this (T_write_done p) st).
  assert (RS : reachable rev this submitted) by now constructor.
  assert (A : arbitrating p submitted).
  { apply (write_done_arbitrating rev this p s st); [now apply (reachable_wf rev) | | ]; assumption. }
  change (run_turns rev this [?t] ?x) with (run_turn rev this t x).
  rewrite error_callback_rejects; [reflexivity | now apply reachable_run_turns |].
  now apply run_turns_keeps_arbitrating.
Qed.

Lemma join_error_rejects_with_the_error_code_witness :
  promises (run_turns part_000 the_recorder
              ([T_write_done 0] ++ [T_timer 0; T_native REC_EVENT_USER_JOIN [VNum 7]]
               ++ [T_native REC_EVENT_ERROR [VNum 5; VNum 101]])
              (parked part_000)) !! 0
  = Some (Rejected (VNum 5)).
Proof.
  exact (join_error_rejects_with_the_error_code part_000 the_recorder (parked part_000) 0
           (cfg_request "/srv/app/output/2024-01-01/10:00:00 room1")
           (VNum 5) (VNum 101) [] [T_timer 0; T_native REC_EVENT_USER_JOIN [VNum 7]]
           (parked_reachable part_000) (parked_awaiting part_000) eq_refl eq_refl).
Defined.

Lemma timer_expired_log id st :
  timers st !! id = Some Armed ->
  log (timer_expired id st) = log st ++ [ConsoleError "Joining channel timeout"]
  /\ promises (timer_expired id st) = promises st
  /\ listeners (timer_expired id st) = listeners st.
Proof. intros H. unfold timer_expired. rewrite H. repeat split. Qed.

(** C4. The join timeout is advisory.  In the revision that has it, take
    any reachable state in which a call of [start] is suspended on a
    write that succeeds, and resume it: the timer of that call is armed.
    When it expires before either callback, the only effect is the
    message on the console; the promise stays pending, with no
    settlement in the log.  Whatever turns [later] follow that are not
    completion callbacks, a success callback arriving after them
    fulfils the promise with [true], and an error callback arriving
    after them rejects it with the error code. *)
Theorem join_timeout_is_advisory this st p s later :
  reachable part_000 this st ->
  awaiting st !! p = Some s ->
  fs_denied st (s_cfgPath s) = false ->
  forallb (fun t => negb (is_completion t)) later = true ->
  let timer := length (timers st) in
  let submitted := run_turn part_000 this (T_write_done p) st in
  let timed_out := run_turn part_000 this (T_timer timer) submitted in
  let afterwards := run_turns part_000 this later timed_out in
  timers submitted !! timer = Some Armed
  /\ log timed_out = log submitted ++ [ConsoleError "Joining channel timeout"]
  /\ promises timed_out !! p = Some Pending
  /\ settlements p (log timed_out) = 0
  /\ promises afterwards !! p = Some Pending
  /\ (forall args,
        promises (run_turn part_000 this (T_native REC_EVENT_JOIN_CHANNEL args) afterwards) !! p
        = Some (Fulfilled (VBool true)))
  /\ (forall args,
        promises (run_turn part_000 this (T_native REC_EVENT_ERROR args) afterwards) !! p
        = Some (Rejected (first_parameter (parameters 2 args)))).
Proof.
  intros R Hs Hok Hlater timer submitted timed_out afterwards.
  pose proof (reachable_wf part_000 this st R) as W.
  destruct (wf_config _ _ W) as [c Hc].
  destruct (applite_dir_exists (cwd st)) as [bin Hbin].
  assert (RS : reachable part_000 this submitted) by now constructor.
  assert (RT : reachable part_000 this timed_out) by now constructor.
  assert (RA : reachable part_000 this afterwards) by now apply reachable_run_turns.
  assert (A : arbitrating p submitted)
    by (apply (write_done_arbitrating part_000 this p s st); assumption).
  assert (AT : arbitrating p timed_out)
    by (apply run_turn_keeps_arbitrating; [now apply (reachable_wf part_000) | exact A | reflexivity]).
  assert (AA : arbitrating p afterwards) by now apply run_turns_keeps_arbitrating.
  assert (Harmed : timers submitted !! timer = Some Armed).
  { unfold submitted. cbn [run_turn].
    rewrite (write_done_eq part_000 this c p s bin st Hc Hbin Hs), Hok.
    cbn [timers joining set_log set_listeners set_timers set_fs_files set_awaiting].
    now apply list_lookup_middle. }
  destruct (timer_expired_log timer submitted Harmed) as (Hlog & _ & _).
  split; [exact Harmed|]. split; [exact Hlog|].
  split; [exact (arb_pending _ _ AT)|].
  split.
  { rewrite (reachable_settlements part_000 this) by exact RT.
    now rewrite (arb_pending _ _ AT). }
  split; [exact (arb_pending _ _ AA)|].
  split; intros args.
  - now apply join_callback_fulfils.
  - now apply error_callback_rejects.
Qed.

Lemma join_timeout_is_advisory_witness :
  promises (run_turn part_000 the_recorder (T_timer 0)
              (run_turn part_000 the_recorder (T_write_done 0) (parked part_000))) !! 0
  = Some Pending
  /\ promises (run_turn part_000 the_recorder join_success
                 (run_turns part_000 the_recorder [T_tick new_year_10am]
                    (run_turn part_000 the_recorder (T_timer 0)
                       (run_turn part_000 the_recorder (T_write_done 0) (parked part_000))))) !! 0
     = Some (Fulfilled (VBool true)).
Proof.
  pose proof (join_timeout_is_advisory the_recorder (parked part_000) 0
                (cfg_request "/srv/app/output/2024-01-01/10:00:00 room1")
                [T_tick new_year_10am]
                (parked_reachable part_000) (parked_awaiting part_000) eq_refl eq_refl) as H.
  cbv zeta in H.
  destruct H as (_ & _ & Hpending & _ & _ & Hjoin & _).
  split; [exact Hpending | exact (Hjoin [VStr "room1"; VStr "uid42"])].
Defined.

(** C5, as stated, fails.  A configuration whose channel is empty, and
    one whose appId and certificate are empty, are both accepted: the
    constructor returns the recorder, having called the file system once
    and the engine twenty-two times. *)
Lemma empty_configuration_is_accepted :
  (fst (constructor AgoraRecorder_ts 0 (fresh_process no_channel)) = Normal the_recorder
   /\ List.filter is_fs_call (log (constructed AgoraRecorder_ts no_channel))
      = [FsMkdirSync "/srv/app/output/2024-01-01/10:00:00 "]
   /\ length (List.filter is_engine_call (log (constructed AgoraRecorder_ts no_channel))) = 22)
  /\
  (fst (constructor part_000 0 (fresh_process no_credentials)) = Normal the_recorder
   /\ List.filter is_fs_call (log (constructed part_000 no_credentials))
      = [FsMkdirSync "/srv/app/output/2024-01-01/10:00:00 room1"]
   /\ length (List.filter is_engine_call (log (constructed part_000 no_credentials))) = 22).
Proof. by_computation. Qed.

(** C5, amended.  The constructor validates nothing.  For every
    configuration object, whatever its channel, appId and certificate,
    the record path resolves and the first effect is
    [fs.mkdirSync(recordPath, { recursive: true })].  Construction fails
    exactly when that call throws, with the error of the file system and
    no call to the engine; otherwise the recorder is returned after the
    engine has been constructed and every relay subscribed. *)
Theorem constructor_does_not_validate rev cfg c st :
  heap st !! cfg = Some c ->
  exists p,
    record_path_of (cwd st) (fill_defaults c) (clock st) = Normal p
    /\ (fs_denied st p = true ->
        fst (constructor rev cfg st) = Throw (FsError "mkdir" p)
        /\ log (snd (constructor rev cfg st)) = log st ++ [FsMkdirSync p])
    /\ (fs_denied st p = false ->
        fst (constructor rev cfg st) = Normal {| config := cfg; date := clock st |}
        /\ log (snd (constructor rev cfg st))
           = log st ++ FsMkdirSync p :: engine_setup rev (fill_defaults c)).
Proof.
  intros H. destruct (record_path_of_defaults (cwd st) c (clock st)) as [p Hp].
  exists p. split; [exact Hp|].
  rewrite (constructor_eq rev cfg c st p H Hp).
  split; intros ->; split; reflexivity.
Qed.

Lemma constructor_does_not_validate_witness :
  exists p,
    record_path_of "/srv/app" (fill_defaults no_channel) new_year_10am = Normal p
    /\ fst (constructor part_000 0 (fresh_process no_channel)) = Normal the_recorder.
Proof.
  destruct (constructor_does_not_validate part_000 0 no_channel (fresh_process no_channel) eq_refl)
    as (p & Hp & _ & Hok).
  exists p. split; [exact Hp|]. exact (proj1 (Hok eq_refl)).
Defined.

(** C6, as stated, fails.  On a recorder that has only been constructed
    (no [start], hence not joined) [setMixLayout] returns normally and the
    layout is forwarded to the engine. *)
Lemma setMixLayout_before_join_is_forwarded :
  fst (setMixLayout some_layout (constructed AgoraRecorder_ts room1)) = Normal tt
  /\ promises (constructed AgoraRecorder_ts room1) = []
  /\ log (snd (setMixLayout some_layout (constructed AgoraRecorder_ts room1)))
     = log (constructed AgoraRecorder_ts room1) ++ [SdkSetMixLayout some_layout].
Proof. by_computation. Qed.

(** C6, amended.  In every state of a session, joined or not,
    [setMixLayout(layout)] raises nothing and makes exactly one call, the
    engine's [setMixLayout] with the same layout; no promise and no
    listener is touched. *)
Theorem setMixLayout_always_forwards rev this layout st :
  fst (setMixLayout layout st) = Normal tt
  /\ log (run_turn rev this (T_setMixLayout layout) st) = log st ++ [SdkSetMixLayout layout]
  /\ promises (run_turn rev this (T_setMixLayout layout) st) = promises st
  /\ listeners (run_turn rev this (T_setMixLayout layout) st) = listeners st
  /\ awaiting (run_turn rev this (T_setMixLayout layout) st) = awaiting st.
Proof. repeat split. Qed.

(** ** The configuration hand-off file *)

Lemma recordPath_needs_object this st rp :
  fst (recordPath this st) = Normal rp ->
  exists c, heap st !! config this = Some c
            /\ record_path_of (cwd st) c (date this) = Normal rp.
Proof.
  intros H. destruct (heap st !! config this) as [c|] eqn:Hc.
  - exists c. split; [reflexivity|]. now rewrite (recordPath_eq this c st Hc) in H.
  - unfold recordPath, bind, read_config in H. now rewrite Hc in H.
Qed.

Lemma record_path_of_form dir c d rp :
  Str.starts_with_slash dir = true ->
  record_path_of dir c d = Normal rp ->
  exists segs, Forall (fun s => Path.plain s = true) segs /\ rp = "/" +:+ Str.join_slash segs.
Proof.
  intros Hdir. unfold record_path_of. destruct (recordDirTmpl c); [|discriminate].
  now apply PathFacts.resolve_form.
Qed.

(** The path of [cfg.json] for a resolved record path. *)
Lemma cfg_path_inside rp segs :
  Forall (fun s => Path.plain s = true) segs -> rp = "/" +:+ Str.join_slash segs ->
  Path.join [rp; "/cfg.json"] = if Str.eqb rp "/" then "/cfg.json" else rp +:+ "/cfg.json".
Proof.
  intros Hsegs ->. rewrite PathFacts.join_cfg_json by exact Hsegs.
  destruct segs as [|s segs]; [reflexivity|].
  rewrite StrFacts.join_slash_snoc by discriminate.
  assert (Hne : Str.eqb ("/" +:+ Str.join_slash (s :: segs)) "/" = false).
  { apply StrFacts.eqb_neq. intros [= H].
    inversion Hsegs; subst.
    eapply PathFacts.join_slash_nonempty; [|exact H]. now apply PathFacts.plain_nonempty. }
  rewrite Hne. cbn. now rewrite StrFacts.app_assoc.
Qed.

(** C7. [start] writes the hand-off file before it joins.  For a session
    whose record path is [rp], in a process with an absolute working
    directory, the call of [start] makes one request, a write to
    [cfg.json] directly inside [rp]; the content is the serialisation of
    the object with the single member [Recording_Dir], whose value is
    [rp], and it reads back as exactly that object.  The call is
    suspended on that write.  Only when the write has succeeded, the file
    being in place, is the join request submitted, with that file as its
    configuration path; when the write fails the promise is rejected and
    no join request is made. *)
Theorem start_writes_cfg_json_before_joining rev this st rp :
  Str.starts_with_slash (cwd st) = true ->
  fst (recordPath this st) = Normal rp ->
  let p := fst (start_call this st) in
  let parked := snd (start_call this st) in
  let cfgPath := if Str.eqb rp "/" then "/cfg.json" else rp +:+ "/cfg.json" in
  let content := JSON.stringify [("Recording_Dir", rp)] in
  log parked = log st ++ [FsWriteFile cfgPath content]
  /\ content = "{" +:+ JSON.quote "Recording_Dir" +:+ ":" +:+ JSON.quote rp +:+ "}"
  /\ (JSON.printable rp = true ->
      content = "{" +:+ JSON.in_quotes "Recording_Dir" +:+ ":" +:+ JSON.in_quotes rp +:+ "}")
  /\ JSON.parse content = Some [("Recording_Dir", rp)]
  /\ awaiting parked !! p = Some {| s_cfgPath := cfgPath; s_content := content |}
  /\ promises parked !! p = Some Pending
  /\ (fs_denied st cfgPath = false ->
      exists c appliteDir,
        heap st !! config this = Some c
        /\ fs_files (write_done rev this p parked) !! cfgPath = Some content
        /\ log (write_done rev this p parked)
           = log parked ++ join_effects rev c appliteDir cfgPath (length (timers st)))
  /\ (fs_denied st cfgPath = true ->
      log (write_done rev this p parked)
      = log parked ++ [Settled p (Rejected (FsError "open" cfgPath))]
      /\ promises (write_done rev this p parked) !! p
         = Some (Rejected (FsError "open" cfgPath))).
Proof.
  intros Hcwd Hrp p parked cfgPath content.
  destruct (recordPath_needs_object this st rp Hrp) as (c & Hc & Hof).
  destruct (record_path_of_form _ _ _ _ Hcwd Hof) as (segs & Hsegs & Hshape).
  pose proof (cfg_path_inside rp segs Hsegs Hshape) as Hjoin.
  assert (Hparked : parked = suspended (length (promises st)) rp st).
  { unfold parked. rewrite start_call_eq, Hrp. reflexivity. }
  assert (Hp : p = length (promises st)) by (unfold p; now rewrite start_call_eq).
  assert (Hreq : cfg_request rp = {| s_cfgPath := cfgPath; s_content := content |}).
  { unfold cfg_request. now rewrite Hjoin. }
  assert (Hawait : awaiting parked !! p = Some {| s_cfgPath := cfgPath; s_content := content |}).
  { rewrite Hparked, Hp. unfold suspended. cbn [awaiting set_awaiting].
    rewrite lookup_insert_eq. now rewrite Hreq. }
  assert (Hpending : promises parked !! p = Some Pending).
  { rewrite Hparked, Hp. unfold suspended. cbn [promises set_awaiting set_log set_promises].
    now apply list_lookup_middle. }
  destruct (applite_dir_exists (cwd st)) as [bin Hbin].
  assert (Hc' : heap parked !! config this = Some c) by (now rewrite Hparked).
  assert (Hbin' : Path.resolve (cwd parked) [Some "node_modules"; Some ".bin"] = Normal bin)
    by (now rewrite Hparked).
  pose proof (write_done_eq rev this c p _ bin parked Hc' Hbin' Hawait) as Hdone.
  cbn [s_cfgPath s_content] in Hdone.
  assert (Hden : fs_denied parked = fs_denied st) by (now rewrite Hparked).
  rewrite Hden in Hdone.
  split; [|split; [|split; [|split; [|split; [|split; [|split]]]]]].
  - rewrite Hparked. unfold suspended. cbn [log set_awaiting set_log set_promises].
    now rewrite Hreq.
  - reflexivity.
  - intros Hprint. unfold content, JSON.stringify, JSON.member. cbn [map fst snd String.concat].
    now rewrite (JSONFacts.quote_printable rp Hprint).
  - apply JSONFacts.parse_stringify.
  - exact Hawait.
  - exact Hpending.
  - intros Hok. rewrite Hok in Hdone. exists c, bin. split; [exact Hc|].
    rewrite Hdone. split.
    + cbn [fs_files joining set_log set_listeners set_timers set_fs_files set_awaiting].
      apply lookup_insert_eq.
    + cbn [log timers joining set_log set_listeners set_timers set_fs_files set_awaiting].
      now rewrite Hparked.
  - intros Hno. rewrite Hno in Hdone. rewrite Hdone.
    unfold reject, settle. cbn [promises set_awaiting]. rewrite Hpending.
    cbn [snd log promises set_log set_promises set_awaiting]. split; [reflexivity|].
    apply list_lookup_insert_eq. eapply lookup_lt_Some; eassumption.
Qed.

Lemma constructed_recordPath rev :
  fst (recordPath the_recorder (constructed rev room1))
  = Normal "/srv/app/output/2024-01-01/10:00:00 room1".
Proof. destruct rev; vm_compute; reflexivity. Qed.

Lemma constructed_cwd rev : Str.starts_with_slash (cwd (constructed rev room1)) = true.
Proof. destruct rev; vm_compute; reflexivity. Qed.

Lemma start_writes_cfg_json_before_joining_witness :
  log (snd (start_call the_recorder (constructed part_000 room1)))
  = log (constructed part_000 room1)
    ++ [FsWriteFile "/srv/app/output/2024-01-01/10:00:00 room1/cfg.json"
          (JSON.stringify [("Recording_Dir", "/srv/app/output/2024-01-01/10:00:00 room1")])]
  /\ JSON.parse (JSON.stringify [("Recording_Dir", "/srv/app/output/2024-01-01/10:00:00 room1")])
     = Some [("Recording_Dir", "/srv/app/output/2024-01-01/10:00:00 room1")].
Proof.
  pose proof (start_writes_cfg_json_before_joining part_000 the_recorder
                (constructed part_000 room1) "/srv/app/output/2024-01-01/10:00:00 room1"
                (constructed_cwd part_000) (constructed_recordPath part_000)) as H.
  cbv zeta in H. destruct H as (Hlog & _ & _ & Hparse & _).
  split; [exact Hlog | exact Hparse].
Defined.

(** ** The record path *)

(** With an absolute first argument [path.resolve] never consults the
    working directory. *)
Lemma resolve_ignores_cwd dir dir' od x :
  Str.starts_with_slash od = true ->
  Path.resolve dir [Some od; x] = Path.resolve dir' [Some od; x].
Proof.
  intros Hod. unfold Path.resolve. cbn [rev app Path.resolve_loop].
  destruct x as [x|]; [|reflexivity].
  rewrite (PathFacts.starts_with_slash_nonempty od Hod), Hod.
  destruct (Str.eqb x ""); [reflexivity|].
  destruct (Str.starts_with_slash x); reflexivity.
Qed.

(** C8, as stated, fails.  The same instance, with the same
    configuration object, reads two different record paths when the
    process changes its working directory in between. *)
Lemma recordPath_follows_the_working_directory :
  fst (recordPath the_recorder (constructed AgoraRecorder_ts room1))
  = Normal "/srv/app/output/2024-01-01/10:00:00 room1"
  /\ fst (recordPath the_recorder
            (run_turn AgoraRecorder_ts the_recorder (T_chdir "/tmp")
               (constructed AgoraRecorder_ts room1)))
     = Normal "/tmp/output/2024-01-01/10:00:00 room1"
  /\ heap (run_turn AgoraRecorder_ts the_recorder (T_chdir "/tmp")
             (constructed AgoraRecorder_ts room1))
     = heap (constructed AgoraRecorder_ts room1).
Proof. by_computation. Qed.

(** C8, amended.  The getter reads the working directory of the process
    besides (outputDir, template, channel, date): two states in which the
    configuration object has the same outputDir, template and channel
    give the same record path for the same instance as soon as they have
    the same working directory, or an absolute outputDir; the clock and
    everything else are irrelevant.  Reading changes nothing, so reading
    again in the state a reading leaves yields the same path. *)
Theorem recordPath_is_a_function_of_cwd_and_configuration this st st' c c' :
  heap st !! config this = Some c ->
  heap st' !! config this = Some c' ->
  outputDir c = outputDir c' ->
  recordDirTmpl c = recordDirTmpl c' ->
  channel c = channel c' ->
  cwd st = cwd st'
  \/ (exists od, outputDir c = Some od /\ Str.starts_with_slash od = true) ->
  fst (recordPath this st') = fst (recordPath this st)
  /\ snd (recordPath this st) = st
  /\ recordPath this (snd (recordPath this st)) = recordPath this st.
Proof.
  intros Hc Hc' Hod Htm Hch Hdir.
  split; [|split].
  - rewrite (recordPath_eq this c st Hc), (recordPath_eq this c' st' Hc'). cbn [fst].
    unfold record_path_of. rewrite <- Htm, <- Hod, <- Hch.
    destruct (recordDirTmpl c) as [tmpl|]; [|reflexivity].
    destruct Hdir as [->|(od & Hsome & Habs)]; [reflexivity|].
    rewrite Hsome. now apply resolve_ignores_cwd.
  - apply recordPath_pure.
  - now rewrite recordPath_pure.
Qed.

Lemma recordPath_is_a_function_of_cwd_and_configuration_witness :
  fst (recordPath the_recorder
         (run_turns AgoraRecorder_ts the_recorder
            [T_tick {| getFullYear := 2031; getMonth := 5; getDate := 9;
                       getHours := 23; getMinutes := 59; getSeconds := 59 |}; T_stop]
            (constructed AgoraRecorder_ts room1)))
  = fst (recordPath the_recorder (constructed AgoraRecorder_ts room1)).
Proof.
  refine (proj1 (recordPath_is_a_function_of_cwd_and_configuration the_recorder
                   (constructed AgoraRecorder_ts room1)
                   (run_turns AgoraRecorder_ts the_recorder
                      [T_tick {| getFullYear := 2031; getMonth := 5; getDate := 9;
                                 getHours := 23; getMinutes := 59; getSeconds := 59 |}; T_stop]
                      (constructed AgoraRecorder_ts room1))
                   (fill_defaults room1) (fill_defaults room1)
                   _ _ eq_refl eq_refl eq_refl (or_introl _)));
    vm_compute; reflexivity.
Defined.

Lemma constructor_returns rev cfg c st this st' :
  heap st !! cfg = Some c ->
  constructor rev cfg st = (Normal this, st') ->
  this = {| config := cfg; date := clock st |}
  /\ heap st' = <[cfg := fill_defaults c]> (heap st)
  /\ cwd st' = cwd st.
Proof.
  intros H Hrun.
  destruct (record_path_of_defaults (cwd st) c (clock st)) as [p Hp].
  rewrite (constructor_eq rev cfg c st p H Hp) in Hrun.
  destruct (fs_denied st p); [discriminate|].
  injection Hrun as <- <-. repeat split.
Qed.





(** C10, as stated, fails.  The caller's object, which had no account
    and no output directory before the construction, has both
    afterwards, and a naming template too. *)
Lemma constructor_mutates_the_callers_object :
  account room1 = None /\ outputDir room1 = None
  /\ falsy_function (recordDirTmpl room1) = true
  /\ account <$> (heap (constructed AgoraRecorder_ts room1) !! 0) = Some (Some "agora-recorder")
  /\ outputDir <$> (heap (constructed AgoraRecorder_ts room1) !! 0) = Some (Some "output")
  /\ (fun c => falsy_function (recordDirTmpl c)) <$> (heap (constructed AgoraRecorder_ts room1) !! 0)
     = Some false
  /\ account <$> (heap (constructed part_000 room1) !! 0) = Some (Some "agora-recorder").
Proof. by_computation. Qed.

(** C10, amended.  The defaults are filled in place.  After the
    constructor has run, throwing or not, the object the caller passed
    holds the effective configuration, every other object is as it was,
    and the recorder refers to that same object.  In it appId,
    certificate, channel and logLevel are as supplied; account, outputDir
    and the template are as supplied when they were supplied non-empty,
    and are ["agora-recorder"], ["output"] and the default template
    otherwise. *)
Theorem constructor_fills_defaults_in_place rev cfg c st :
  heap st !! cfg = Some c ->
  heap (snd (constructor rev cfg st)) = <[cfg := fill_defaults c]> (heap st)
  /\ (forall this st', constructor rev cfg st = (Normal this, st') -> config this = cfg)
  /\ appId (fill_defaults c) = appId c
  /\ certificate (fill_defaults c) = certificate c
  /\ channel (fill_defaults c) = channel c
  /\ logLevel (fill_defaults c) = logLevel c
  /\ account (fill_defaults c)
     = (if falsy_string (account c) then Some "agora-recorder" else account c)
  /\ outputDir (fill_defaults c)
     = (if falsy_string (outputDir c) then Some "output" else outputDir c)
  /\ recordDirTmpl (fill_defaults c)
     = (if falsy_function (recordDirTmpl c) then Some default_recordDirTmpl else recordDirTmpl c).
Proof.
  intros H.
  destruct (record_path_of_defaults (cwd st) c (clock st)) as [p Hp].
  split; [|split].
  - rewrite (constructor_eq rev cfg c st p H Hp). now destruct (fs_denied st p).
  - intros this st' Hrun.
    now destruct (constructor_returns rev cfg c st this st' H Hrun) as (-> & _).
  - clear. by_defaults c; repeat split.
Qed.

Lemma constructor_fills_defaults_in_place_witness :
  heap (snd (constructor part_000 0 (fresh_process room1)))
  = <[0 := fill_defaults room1]> (heap (fresh_process room1))
  /\ account (fill_defaults room1) = Some "agora-recorder".
Proof.
  pose proof (constructor_fills_defaults_in_place part_000 0 room1 (fresh_process room1) eq_refl) as H.
  split; [exact (proj1 H)|].
  exact (proj1 (proj2 (proj2 (proj2 (proj2 (proj2 (proj2 H))))))).
Defined.

(** * Further properties of the recorder *)

(** ** What a turn adds to the log *)

Lemma settle_log q o st :
  exists delta, log (snd (settle q o st)) = log st ++ delta
                /\ (delta = [] \/ delta = [Settled q o]).
Proof.
  unfold settle. destruct (promises st !! q) as [[| |]|].
  - exists [Settled q o]. split; [reflexivity | now right].
  - exists []. split; [now rewrite app_nil_r | now left].
  - exists []. split; [now rewrite app_nil_r | now left].
  - exists []. split; [now rewrite app_nil_r | now left].
Qed.

Lemma cleared_log t st :
  log (cleared t st) = log st ++ match t with Some id => [ClearTimeout id] | None => [] end.
Proof. destruct t; cbn; [reflexivity | now rewrite app_nil_r]. Qed.

(** A listener adds its own call when it is a subscriber, and nothing
    but timer and promise effects otherwise. *)
Lemma handled_log e args st l :
  exists delta,
    log (handled e args st l) = log st ++ delta
    /\ forallb (allowed (T_native e args)) delta = true
    /\ deliveries delta
       = match l_handler l with
         | H_subscriber id => [Delivered id e args]
         | _ => []
         end.
Proof.
  unfold handled, resolve, reject.
  destruct (l_handler l) as [p t|p t|id].
  - destruct (settle_log p (Fulfilled (VBool true)) (cleared t st)) as (d & -> & Hd).
    rewrite cleared_log, <- app_assoc. eexists. split; [reflexivity|].
    destruct t, Hd as [-> | ->]; split; reflexivity.
  - destruct (settle_log p (Rejected (first_parameter args)) (cleared t st)) as (d & -> & Hd).
    rewrite cleared_log, <- app_assoc. eexists. split; [reflexivity|].
    destruct t, Hd as [-> | ->]; split; reflexivity.
  - eexists. split; [reflexivity|]. split; reflexivity.
Qed.

Lemma deliveries_app l l' : deliveries (l ++ l') = deliveries l ++ deliveries l'.
Proof. apply List.filter_app. Qed.

Lemma fold_handled_log e args ls st :
  exists delta,
    log (fold_left (handled e args) ls st) = log st ++ delta
    /\ forallb (allowed (T_native e args)) delta = true
    /\ deliveries delta
       = flat_map (fun l => match l_handler l with
                            | H_subscriber id => [Delivered id e args]
                            | _ => []
                            end) ls.
Proof.
  revert st. induction ls as [|l ls IH]; intros st.
  - exists []. split; [now rewrite app_nil_r | split; reflexivity].
  - cbn [fold_left flat_map].
    destruct (handled_log e args st l) as (d1 & H1 & A1 & D1).
    destruct (IH (handled e args st l)) as (d2 & H2 & A2 & D2).
    exists (d1 ++ d2). split; [|split].
    + now rewrite H2, H1, <- app_assoc.
    + now rewrite forallb_app, A1, A2.
    + now rewrite deliveries_app, D1, D2.
Qed.

Lemma owed_filter e args ls :
  flat_map (fun l => match l_handler l with
                     | H_subscriber id => [Delivered id e args]
                     | _ => []
                     end) (filter (fun l => listens_to e l = true) ls)
  = owed e args ls.
Proof.
  unfold owed. induction ls as [|l ls IH]; [reflexivity|].
  rewrite filter_cons. cbn [flat_map]. unfold owed_to at 1.
  destruct (listens_to e l) eqn:E.
  - rewrite decide_True by reflexivity. cbn [flat_map]. now rewrite IH.
  - rewrite decide_False by discriminate. now rewrite IH.
Qed.

Lemma emitted_log e args st :
  exists delta,
    log (emitted e args st) = log st ++ delta
    /\ forallb (allowed (T_native e args)) delta = true
    /\ deliveries delta = owed e args (listeners st).
Proof.
  unfold emitted.
  destruct (fold_handled_log e args (filter (fun l => listens_to e l = true) (listeners st))
              (set_listeners (filter (fun l => survives e l = true)) st))
    as (d & H & A & D).
  exists d. split; [exact H|]. split; [exact A|]. now rewrite D, owed_filter.
Qed.

Lemma parameters_length n args : length (parameters n args) = n.
Proof.
  revert args. induction n as [|n IH]; intros args; [reflexivity|].
  destruct args; cbn; now rewrite IH.
Qed.

Lemma parameters_exact args : parameters (length args) args = args.
Proof. induction args as [|a args IH]; [reflexivity|]. cbn. now rewrite IH. Qed.

(** X1. The relay is faithful.  In every reachable state, a callback of
    the engine for the event [e] calls the subscribers of [e] on the
    recorder, each once, in the order of their subscription, and calls no
    subscriber of another event.  Every call carries the arguments of the
    callback cut or padded to the number of parameters the relay of [e]
    declares; when the engine passes exactly that many, they are passed
    on unchanged. *)
Theorem relay_is_faithful rev this st e args :
  reachable rev this st ->
  deliveries (log (run_turn rev this (T_native e args) st))
  = deliveries (log st) ++ owed e (parameters (relay_arity e) args) (listeners st)
  /\ length (parameters (relay_arity e) args) = relay_arity e
  /\ (length args = relay_arity e -> parameters (relay_arity e) args = args).
Proof.
  intros R. split; [|split].
  - cbn [run_turn]. rewrite (native_callback_eq this) by now apply (reachable_wf rev).
    destruct (emitted_log e (parameters (relay_arity e) args) st) as (d & -> & _ & D).
    now rewrite deliveries_app, D.
  - apply parameters_length.
  - intros <-. apply parameters_exact.
Qed.

Lemma subscribed_reachable rev : reachable rev the_recorder (subscribed rev).
Proof. apply reachable_run_turns, constructed_reachable. Qed.

Lemma relay_is_faithful_witness :
  deliveries (log (run_turn part_000 the_recorder
                     (T_native REC_EVENT_JOIN_CHANNEL [VStr "room1"; VStr "uid42"; VNum 0])
                     (subscribed part_000)))
  = [ Delivered 7 REC_EVENT_JOIN_CHANNEL [VStr "room1"; VStr "uid42"];
      Delivered 9 REC_EVENT_JOIN_CHANNEL [VStr "room1"; VStr "uid42"] ].
Proof.
  rewrite (proj1 (relay_is_faithful part_000 the_recorder (subscribed part_000)
                    REC_EVENT_JOIN_CHANNEL [VStr "room1"; VStr "uid42"; VNum 0]
                    (subscribed_reachable part_000))).
  vm_compute. reflexivity.
Defined.

(** The effects of one turn, by the kind of the turn. *)
Lemma run_turn_log rev this st t :
  wf this st ->
  exists delta,
    log (run_turn rev this t st) = log st ++ delta
    /\ forallb (allowed t) delta = true.
Proof.
  intros W.
  assert (Hnil : forall s : State, exists delta : list Effect,
               log s = log s ++ delta /\ forallb (allowed t) delta = true).
  { intros s. exists []. split; [now rewrite app_nil_r | reflexivity]. }
  destruct t; cbn [run_turn]; try apply Hnil.
  - rewrite start_call_eq. cbn [snd].
    destruct (fst (recordPath this st)) as [rp|e].
    + eexists. split; [reflexivity|]. reflexivity.
    + unfold reject.
      destruct (settle_log (length (promises st)) (Rejected e)
                  (set_promises (fun l => l ++ [Pending]) st)) as (d & -> & [-> | ->]);
        eexists; (split; [reflexivity|]); reflexivity.
  - destruct (awaiting st !! promise) as [s|] eqn:Hs.
    2:{ unfold write_done. rewrite Hs. apply Hnil. }
    destruct (wf_config _ _ W) as [c Hc].
    destruct (applite_dir_exists (cwd st)) as [bin Hbin].
    rewrite (write_done_eq rev this c promise s bin st Hc Hbin Hs).
    destruct (fs_denied st (s_cfgPath s)).
    + unfold reject.
      destruct (settle_log promise (Rejected (FsError "open" (s_cfgPath s)))
                  (set_awaiting (delete promise) st)) as (d & -> & [-> | ->]);
        eexists; (split; [reflexivity|]); reflexivity.
    + eexists. split; [reflexivity|]. destruct rev; reflexivity.
  - rewrite (native_callback_eq this) by exact W.
    destruct (emitted_log e (parameters (relay_arity e) args) st) as (d' & H' & A' & _).
    exists d'. split; [exact H' | exact A'].
  - unfold timer_expired. destruct (timers st !! id) as [[| |]|]; try apply Hnil.
    eexists. split; [reflexivity|]. reflexivity.
  - exists [SdkLeaveChannel; SdkRelease]. split; [|reflexivity].
    unfold run_sync, stop, bind, effect, modify. cbn [snd log set_log].
    now rewrite <- app_assoc.
  - eexists. split; [reflexivity|]. reflexivity.
  - exists []. split; [now rewrite app_nil_r | reflexivity].
  - exists []. split; [now rewrite app_nil_r | reflexivity].
  - exists []. split; [now rewrite app_nil_r | reflexivity].
  - exists []. split; [now rewrite app_nil_r | reflexivity].
  - exists []. split; [now rewrite app_nil_r | reflexivity].
Qed.

Lemma handled_log_length e args st l :
  exists delta, log (handled e args st l) = log st ++ delta /\ length delta <= 2.
Proof.
  unfold handled, resolve, reject.
  destruct (l_handler l) as [p t|p t|id].
  - destruct (settle_log p (Fulfilled (VBool true)) (cleared t st)) as (d & -> & Hd).
    rewrite cleared_log, <- app_assoc. eexists. split; [reflexivity|].
    destruct t, Hd as [-> | ->]; cbn; lia.
  - destruct (settle_log p (Rejected (first_parameter args)) (cleared t st)) as (d & -> & Hd).
    rewrite cleared_log, <- app_assoc. eexists. split; [reflexivity|].
    destruct t, Hd as [-> | ->]; cbn; lia.
  - eexists. split; [reflexivity|]. cbn. lia.
Qed.

Lemma fold_handled_log_length e args ls st :
  exists delta,
    log (fold_left (handled e args) ls st) = log st ++ delta
    /\ length delta <= 2 * length ls.
Proof.
  revert st. induction ls as [|l ls IH]; intros st.
  - exists []. split; [now rewrite app_nil_r | cbn; lia].
  - cbn [fold_left].
    destruct (handled_log_length e args st l) as (d1 & H1 & L1).
    destruct (IH (handled e args st l)) as (d2 & H2 & L2).
    exists (d1 ++ d2). split.
    + now rewrite H2, H1, <- app_assoc.
    + rewrite length_app. cbn [length]. lia.
Qed.

(** X2. Every kind of turn has its own effects.  In a reachable state a
    turn appends to the log, and what it appends is fixed by its kind.  A
    call of [start] appends exactly one effect: the request to write
    [cfg.json] in the record path, or, when the getter throws, the
    rejection of the new promise.  The resumption of [start] appends
    nothing when no call is parked under the promise, the one rejection
    when the write failed, and otherwise the join request, then the timer
    in the revision that has it, then the two subscriptions, in this
    order.  A timer appends the one console message when it is armed and
    nothing otherwise; [stop] exactly [leaveChannel] then [release];
    [setMixLayout] exactly its one engine call.  A callback of the engine
    appends only calls of subscribers, timer clearings and settlements,
    at most two for each listener of the event, and never a call of the
    engine or the file system.  Subscribing, changing directory, the
    passing of time and writes to the configuration object append
    nothing. *)
Theorem turns_have_their_own_effects rev this st t :
  reachable rev this st ->
  exists delta,
    log (run_turn rev this t st) = log st ++ delta
    /\ forallb (allowed t) delta = true
    /\ match t with
       | T_start =>
           match fst (recordPath this st) with
           | Normal rp =>
               delta = [FsWriteFile (Path.join [rp; "/cfg.json"])
                          (JSON.stringify [("Recording_Dir", rp)])]
           | Throw e => delta = [Settled (length (promises st)) (Rejected e)]
           end
       | T_write_done p =>
           match awaiting st !! p with
           | None => delta = []
           | Some s =>
               if fs_denied st (s_cfgPath s)
               then delta = [Settled p (Rejected (FsError "open" (s_cfgPath s)))]
               else exists c appliteDir,
                   heap st !! config this = Some c
                   /\ delta = join_effects rev c appliteDir (s_cfgPath s) (length (timers st))
           end
       | T_native e args =>
           forallb (fun x => negb (is_fs_call x || is_engine_call x)) delta = true
           /\ length delta
              <= 2 * length (filter (fun l => listens_to e l = true) (listeners st))
       | T_timer id =>
           match timers st !! id with
           | Some Armed => delta = [ConsoleError "Joining channel timeout"]
           | _ => delta = []
           end
       | T_stop => delta = [SdkLeaveChannel; SdkRelease]
       | T_setMixLayout layout => delta = [SdkSetMixLayout layout]
       | T_on _ _ | T_once _ _ | T_chdir _ | T_tick _ | T_mutate _ _ => delta = []
       end.
Proof.
  intros R. pose proof (reachable_wf rev this st R) as W.
  destruct (run_turn_log rev this st t W) as (d & H & A).
  exists d. split; [exact H|]. split; [exact A|].
  destruct t; cbn [run_turn] in H.
  - rewrite start_call_eq in H. cbn [snd] in H.
    destruct (fst (recordPath this st)) as [rp|e].
    + unfold suspended in H. cbn [log set_awaiting set_log set_promises] in H.
      now apply app_inv_head in H.
    + unfold reject, settle in H. cbn [promises set_promises] in H.
      rewrite lookup_app_r, Nat.sub_diag in H by lia. cbn [lookup list_lookup] in H.
      cbn [log set_log set_promises] in H. now apply app_inv_head in H.
  - destruct (awaiting st !! promise) as [s|] eqn:Hs.
    2:{ unfold write_done in H. rewrite Hs in H.
        rewrite <- (app_nil_r (log st)) in H at 1. now apply app_inv_head in H. }
    destruct (wf_config _ _ W) as [c Hc].
    destruct (applite_dir_exists (cwd st)) as [bin Hbin].
    rewrite (write_done_eq rev this c promise s bin st Hc Hbin Hs) in H.
    destruct (fs_denied st (s_cfgPath s)).
    + unfold reject, settle in H. cbn [promises set_awaiting] in H.
      rewrite (wf_awaiting _ _ W promise s Hs) in H.
      cbn [log set_log set_promises set_awaiting] in H. now apply app_inv_head in H.
    + exists c, bin. split; [exact Hc|]. unfold joining in H.
      cbn [log timers set_log set_listeners set_timers set_fs_files set_awaiting] in H.
      now apply app_inv_head in H.
  - split.
    + rewrite forallb_forall in A |- *. intros x Hx. specialize (A x Hx).
      destruct x; try discriminate A; reflexivity.
    + rewrite (native_callback_eq this) in H by exact W. unfold emitted in H.
      destruct (fold_handled_log_length e (parameters (relay_arity e) args)
                  (filter (fun l => listens_to e l = true) (listeners st))
                  (set_listeners (filter (fun l => survives e l = true)) st))
        as (d' & H' & L').
      rewrite H' in H. cbn [log set_listeners] in H.
      apply app_inv_head in H. now subst d'.
  - unfold timer_expired in H. destruct (timers st !! id) as [[| |]|];
      try (rewrite <- (app_nil_r (log st)) in H at 1; now apply app_inv_head in H).
    unfold run_sync, effect in H. cbn [snd log set_log set_timers] in H.
    now apply app_inv_head in H.
  - unfold run_sync, stop, bind, effect, modify in H. cbn [snd log set_log] in H.
    rewrite <- app_assoc in H. now apply app_inv_head in H.
  - unfold run_sync, setMixLayout, effect in H. cbn [snd log set_log] in H.
    now apply app_inv_head in H.
  - change (log st = log st ++ d) in H.
    rewrite <- (app_nil_r (log st)) in H at 1. now apply app_inv_head in H.
  - change (log st = log st ++ d) in H.
    rewrite <- (app_nil_r (log st)) in H at 1. now apply app_inv_head in H.
  - change (log st = log st ++ d) in H.
    rewrite <- (app_nil_r (log st)) in H at 1. now apply app_inv_head in H.
  - change (log st = log st ++ d) in H.
    rewrite <- (app_nil_r (log st)) in H at 1. now apply app_inv_head in H.
  - change (log st = log st ++ d) in H.
    rewrite <- (app_nil_r (log st)) in H at 1. now apply app_inv_head in H.
Qed.

Lemma turns_have_their_own_effects_witness :
  exists delta,
    log (run_turn part_000 the_recorder
           (T_native REC_EVENT_JOIN_CHANNEL [VStr "room1"; VStr "uid42"]) (subscribed part_000))
    = log (subscribed part_000) ++ delta
    /\ forallb (fun e => negb (is_fs_call e || is_engine_call e)) delta = true
    /\ length delta
       <= 2 * length (filter (fun l => listens_to REC_EVENT_JOIN_CHANNEL l = true)
                        (listeners (subscribed part_000))).
Proof.
  destruct (turns_have_their_own_effects part_000 the_recorder (subscribed part_000)
              (T_native REC_EVENT_JOIN_CHANNEL [VStr "room1"; VStr "uid42"])
              (subscribed_reachable part_000)) as (d & H & _ & N & L).
  exists d. split; [exact H|]. split; [exact N | exact L].
Defined.

(** ** One turn, by its outcome *)

Lemma run_turn_step rev this st t :
  wf this st -> step rev this st (run_turn rev this t st).
Proof.
  intros W. destruct t; cbn [run_turn].
  - rewrite start_call_eq. cbn [snd].
    destruct (fst (recordPath this st)) as [rp|e] eqn:E;
      [now apply step_suspend | now apply step_refuse].
  - destruct (awaiting st !! promise) as [s|] eqn:Hs.
    2:{ unfold write_done. rewrite Hs. apply step_nothing. }
    destruct (wf_config _ _ W) as [c Hc].
    destruct (applite_dir_exists (cwd st)) as [bin Hbin].
    rewrite (write_done_eq rev this c promise s bin st Hc Hbin Hs).
    destruct (fs_denied st (s_cfgPath s)) eqn:Hd.
    + now apply step_write_failed.
    + now apply step_join.
  - rewrite (native_callback_eq this) by exact W. apply step_emit.
  - unfold timer_expired. destruct (timers st !! id) as [[| |]|] eqn:E;
      [now apply step_fire | apply step_nothing ..].
  - replace (run_sync stop st) with (set_log (fun l => l ++ [SdkLeaveChannel; SdkRelease]) st);
      [apply step_stop|].
    unfold run_sync, stop, bind, effect, modify. cbn [snd]. state_eq.
  - apply step_layout.
  - apply step_subscribe.
  - apply step_subscribe.
  - apply step_chdir.
  - apply step_tick.
  - apply step_mutate.
Qed.

(** A property kept by every outcome holds in every reachable state. *)
Lemma reachable_ind_step rev this (P : State -> Prop) :
  (forall dir now denied objects cfg st,
      constructor rev cfg (initial_state dir now denied objects) = (Normal this, st) -> P st) ->
  (forall st st', reachable rev this st -> P st -> step rev this st st' -> P st') ->
  forall st, reachable rev this st -> P st.
Proof.
  intros Hnew Hstep st R. induction R as [dir now denied objects cfg st H | st t R IH].
  - eapply Hnew; eassumption.
  - eapply Hstep; [exact R | exact IH |].
    apply run_turn_step. now apply (reachable_wf rev).
Qed.

(** The state a successful construction in a fresh process leaves. *)
Lemma constructed_fields rev this cfg dir now denied objects st :
  constructor rev cfg (initial_state dir now denied objects) = (Normal this, st) ->
  exists c p,
    objects !! cfg = Some c
    /\ this = {| config := cfg; date := now |}
    /\ promises st = [] /\ timers st = [] /\ listeners st = []
    /\ awaiting st = ∅ /\ fs_files st = ∅
    /\ log st = FsMkdirSync p :: engine_setup rev (fill_defaults c).
Proof.
  intros H.
  destruct (objects !! cfg) as [c|] eqn:Hc.
  2:{ pose proof (constructor_needs_object rev cfg (initial_state dir now denied objects) Hc) as Ht.
      rewrite H in Ht. discriminate. }
  destruct (record_path_of_defaults dir c now) as [p Hp].
  rewrite (constructor_eq rev cfg c (initial_state dir now denied objects) p Hc Hp) in H.
  cbn [fs_denied initial_state] in H. destruct (denied p); [discriminate|].
  injection H as <- <-. exists c, p. repeat split.
Qed.

(** An invariant of the listeners' calls is an invariant of emissions. *)
Lemma fold_handled_ind (P : State -> Prop) e args ls st :
  P st -> (forall s l, l ∈ ls -> P s -> P (handled e args s l)) ->
  P (fold_left (handled e args) ls st).
Proof.
  revert st. induction ls as [|l ls IH]; intros st H Hstep; [exact H|].
  cbn [fold_left]. apply IH.
  - apply Hstep; [now left | exact H].
  - intros s l' Hin. apply Hstep. now right.
Qed.

Lemma emitted_ind (P : State -> Prop) e args st :
  P (set_listeners (filter (fun l => survives e l = true)) st) ->
  (forall s l, l ∈ listeners st -> l_event l = e -> P s -> P (handled e args s l)) ->
  P (emitted e args st).
Proof.
  intros H Hstep. unfold emitted. apply fold_handled_ind; [exact H|].
  intros s l Hin. apply list_elem_of_filter in Hin as [He Hin].
  apply Hstep; [exact Hin | now apply listens_to_iff].
Qed.

(** ** What promises are settled with *)

Lemma settle_fulfilled_with_true q o st :
  (o = Fulfilled (VBool true) \/ exists r, o = Rejected r) ->
  fulfilled_with_true st -> fulfilled_with_true (snd (settle q o st)).
Proof.
  intros Ho H q' v. rewrite settle_lookup. case_bool_decide as Hq; [|apply H].
  destruct (promises st !! q') as [[|v0|r0]|] eqn:E.
  - destruct Ho as [-> | [r ->]]; congruence.
  - intros [= <-]. now apply (H q').
  - discriminate.
  - discriminate.
Qed.

Lemma cleared_fulfilled_with_true t st :
  fulfilled_with_true st -> fulfilled_with_true (cleared t st).
Proof. intros H q v. rewrite cleared_promises. apply H. Qed.

Lemma step_fulfilled_with_true rev this st st' :
  fulfilled_with_true st -> step rev this st st' -> fulfilled_with_true st'.
Proof.
  intros H S. destruct S; try exact H.
  - intros q v. unfold suspended. cbn [promises set_awaiting set_log set_promises].
    intros Hq. apply (H q v).
    destruct (decide (q < length (promises st))) as [Hlt|Hge].
    + now rewrite lookup_app_l in Hq.
    + destruct (decide (q = length (promises st))) as [->|Hne].
      * rewrite list_lookup_middle in Hq by reflexivity. discriminate.
      * rewrite lookup_ge_None_2 in Hq; [discriminate|]. rewrite length_app. cbn. lia.
  - apply settle_fulfilled_with_true; [right; eauto|].
    intros q v. cbn [promises set_promises]. intros Hq. apply (H q v).
    destruct (decide (q < length (promises st))) as [Hlt|Hge].
    + now rewrite lookup_app_l in Hq.
    + destruct (decide (q = length (promises st))) as [->|Hne].
      * rewrite list_lookup_middle in Hq by reflexivity. discriminate.
      * rewrite lookup_ge_None_2 in Hq; [discriminate|]. rewrite length_app. cbn. lia.
  - apply settle_fulfilled_with_true; [right; eauto | exact H].
  - apply emitted_ind; [exact H|].
    intros s l _ _ Hs. unfold handled, resolve, reject.
    destruct (l_handler l) as [p t|p t|id].
    + apply settle_fulfilled_with_true; [now left | now apply cleared_fulfilled_with_true].
    + apply settle_fulfilled_with_true; [right; eauto | now apply cleared_fulfilled_with_true].
    + exact Hs.
Qed.

(** X3. [start] only ever fulfils with [true].  In every reachable state
    a promise returned by [start] that is fulfilled is fulfilled with the
    value [true]; whatever the engine passes to its callbacks, no other
    value reaches a fulfilled promise. *)
Theorem start_fulfils_with_true_only rev this st q v :
  reachable rev this st ->
  promises st !! q = Some (Fulfilled v) ->
  v = VBool true.
Proof.
  intros R. revert q v. change (fulfilled_with_true st).
  revert st R. apply reachable_ind_step.
  - intros dir now denied objects cfg st H.
    destruct (constructed_fields _ _ _ _ _ _ _ _ H) as (c & p & _ & _ & Hp & _).
    intros q v. rewrite Hp. now rewrite lookup_nil.
  - intros st st' _ H S. now apply (step_fulfilled_with_true rev this st).
Qed.

Lemma start_fulfils_with_true_only_witness :
  promises (run_turns part_000 the_recorder [T_write_done 0; join_success] (parked part_000)) !! 0
  = Some (Fulfilled (VBool true))
  /\ VBool true = VBool true.
Proof.
  assert (H : promises (run_turns part_000 the_recorder [T_write_done 0; join_success]
                          (parked part_000)) !! 0
              = Some (Fulfilled (VBool true))) by (vm_compute; reflexivity).
  split; [exact H|].
  exact (start_fulfils_with_true_only part_000 the_recorder _ 0 (VBool true)
           (reachable_run_turns _ _ _ _ (parked_reachable part_000)) H).
Defined.

(** ** Join requests and hand-off files *)

Lemma no_join_split (delta d1 d2 : list Effect) e cfgPath :
  Forall (fun x => join_cfg_path x = None) delta ->
  delta = d1 ++ e :: d2 -> join_cfg_path e = Some cfgPath -> False.
Proof.
  intros Hd -> Hj. apply Forall_app in Hd as [_ Hd].
  apply Forall_cons in Hd as [He _]. congruence.
Qed.

(** What a step has to show for the hand-off to stay in order: a call it
    parks has requested its write, and a join request it makes names the
    path of a call that was parked. *)
Lemma handoff_ok_step st st' delta :
  log st' = log st ++ delta ->
  (forall q s, awaiting st' !! q = Some s ->
     awaiting st !! q = Some s
     \/ exists rp, s = cfg_request rp /\ FsWriteFile (s_cfgPath s) (s_content s) ∈ delta) ->
  (forall d1 e d2 cfgPath, delta = d1 ++ e :: d2 -> join_cfg_path e = Some cfgPath ->
     exists q s, awaiting st !! q = Some s /\ s_cfgPath s = cfgPath) ->
  handoff_ok st -> handoff_ok st'.
Proof.
  intros Hlog Haw Hjoin [A J]. split.
  - intros q s Hq. destruct (Haw q s Hq) as [Hold|(rp & -> & Hin)].
    + destruct (A q s Hold) as (rp & -> & Hin). exists rp. split; [reflexivity|].
      rewrite Hlog. apply elem_of_app. now left.
    + exists rp. split; [reflexivity|]. rewrite Hlog. apply elem_of_app. now right.
  - intros before e after cfgPath Hsplit Hj. rewrite Hlog in Hsplit.
    apply app_eq_app in Hsplit as [l [[Hl Hr]|[Hl Hr]]].
    + destruct l as [|e' l'].
      * rewrite app_nil_r in Hl. cbn in Hr. subst before.
        destruct (Hjoin [] e after cfgPath (eq_sym Hr) Hj) as (q & s & Hq & <-).
        destruct (A q s Hq) as (rp & -> & Hin). now exists rp.
      * cbn in Hr. injection Hr as <- _. now apply (J before e l' cfgPath).
    + destruct (Hjoin l e after cfgPath Hr Hj) as (q & s & Hq & <-).
      destruct (A q s Hq) as (rp & -> & Hin). exists rp. split; [reflexivity|].
      rewrite Hl. apply elem_of_app. now left.
Qed.

(** A step that parks nothing and makes no join request. *)
Lemma handoff_ok_quiet st st' delta :
  log st' = log st ++ delta ->
  (forall q s, awaiting st' !! q = Some s -> awaiting st !! q = Some s) ->
  Forall (fun x => join_cfg_path x = None) delta ->
  handoff_ok st -> handoff_ok st'.
Proof.
  intros Hlog Haw Hd. apply (handoff_ok_step st st' delta Hlog).
  - intros q s Hq. left. now apply Haw.
  - intros d1 e d2 cfgPath Hs Hj. exfalso. exact (no_join_split delta d1 d2 e cfgPath Hd Hs Hj).
Qed.

Lemma settle_handoff_ok q o st : handoff_ok st -> handoff_ok (snd (settle q o st)).
Proof.
  destruct (settle_log q o st) as (d & Hd & Hcase).
  apply (handoff_ok_quiet st _ d Hd).
  - intros q' s. unfold settle. destruct (promises st !! q) as [[| |]|]; trivial.
  - destruct Hcase as [-> | ->]; repeat constructor.
Qed.

Lemma handled_handoff_ok e args st l : handoff_ok st -> handoff_ok (handled e args st l).
Proof.
  destruct (handled_log e args st l) as (d & Hd & A & _).
  apply (handoff_ok_quiet st _ d Hd).
  - intros q s. now rewrite handled_awaiting.
  - rewrite forallb_forall in A. apply Forall_forall. intros y Hy.
    apply list_elem_of_In in Hy. specialize (A y Hy). now destruct y.
Qed.

Lemma step_handoff_ok rev this st st' :
  handoff_ok st -> step rev this st st' -> handoff_ok st'.
Proof.
  intros H S. destruct S.
  - exact H.
  - apply (handoff_ok_step st _
             [FsWriteFile (s_cfgPath (cfg_request rp)) (s_content (cfg_request rp))]);
      [reflexivity | | | exact H].
    + intros q s Hq. unfold suspended in Hq.
      cbn [awaiting set_awaiting set_log set_promises] in Hq.
      destruct (decide (length (promises st) = q)) as [<-|Hne].
      * rewrite lookup_insert_eq in Hq. injection Hq as <-. right. exists rp.
        split; [reflexivity | apply list_elem_of_here].
      * rewrite lookup_insert_ne in Hq by assumption. now left.
    + intros d1 e' d2 cfgPath Hs Hj. exfalso.
      refine (no_join_split _ d1 d2 e' cfgPath _ Hs Hj). repeat constructor.
  - apply settle_handoff_ok.
    apply (handoff_ok_quiet st _ []); [now rewrite app_nil_r | trivial | constructor | exact H].
  - apply settle_handoff_ok.
    apply (handoff_ok_quiet st _ []); [now rewrite app_nil_r | | constructor | exact H].
    intros q s' Hq. cbn [awaiting set_awaiting] in Hq.
    now apply lookup_delete_Some in Hq as [_ Hq].
  - apply (handoff_ok_step st _
             (join_effects rev c appliteDir (s_cfgPath s) (length (timers st))));
      [reflexivity | | | exact H].
    + intros q s' Hq. left. unfold joining in Hq.
      cbn [awaiting set_awaiting set_log set_listeners set_timers set_fs_files] in Hq.
      now apply lookup_delete_Some in Hq as [_ Hq].
    + intros d1 e' d2 cfgPath Hs Hj. exists p, s. split; [assumption|].
      unfold join_effects in Hs. destruct d1 as [|x d1].
      * cbn in Hs. injection Hs as <- _. cbn in Hj. now injection Hj.
      * exfalso. cbn in Hs. injection Hs as _ Hs.
        refine (no_join_split _ d1 d2 e' cfgPath _ Hs Hj).
        destruct rev; repeat constructor.
  - apply (emitted_ind handoff_ok).
    + apply (handoff_ok_quiet st _ []); [now rewrite app_nil_r | trivial | constructor | exact H].
    + intros s l _ _. apply handled_handoff_ok.
  - apply (handoff_ok_quiet st _ [ConsoleError "Joining channel timeout"]);
      [reflexivity | trivial | repeat constructor | exact H].
  - apply (handoff_ok_quiet st _ [SdkLeaveChannel; SdkRelease]);
      [reflexivity | trivial | repeat constructor | exact H].
  - apply (handoff_ok_quiet st _ [SdkSetMixLayout layout]);
      [reflexivity | trivial | repeat constructor | exact H].
  - apply (handoff_ok_quiet st _ []); [now rewrite app_nil_r | trivial | constructor | exact H].
  - apply (handoff_ok_quiet st _ []); [now rewrite app_nil_r | trivial | constructor | exact H].
  - apply (handoff_ok_quiet st _ []); [now rewrite app_nil_r | trivial | constructor | exact H].
  - apply (handoff_ok_quiet st _ []); [now rewrite app_nil_r | trivial | constructor | exact H].
Qed.

Lemma reachable_handoff_ok rev this st : reachable rev this st -> handoff_ok st.
Proof.
  revert st. apply reachable_ind_step.
  - intros dir now denied objects cfg st H.
    destruct (constructed_fields _ _ _ _ _ _ _ _ H)
      as (c & p & _ & _ & _ & _ & _ & Ha & _ & Hl).
    split.
    + intros q s Hq. rewrite Ha in Hq. now rewrite lookup_empty in Hq.
    + intros before e after cfgPath Hs Hj. exfalso. rewrite Hl in Hs.
      refine (no_join_split _ before after e cfgPath _ Hs Hj).
      constructor; [reflexivity|]. unfold engine_setup.
      constructor; [reflexivity|]. apply Forall_app. split.
      * destruct rev; [constructor|]. destruct (truthy_number _); repeat constructor.
      * apply Forall_forall. intros x Hx. apply list_elem_of_fmap in Hx as (ev & -> & _).
        reflexivity.
  - intros st st' _ H S. now apply (step_handoff_ok rev this st).
Qed.

(** X5. Every join request follows the write request of its hand-off
    file.  In the log of every reachable state, whatever calls of [start]
    overlap, every join request names as its configuration path the file
    [cfg.json] inside some record path, and earlier in the log the
    wrapper has requested the write, to that very path, of the serialised
    object with the single member [Recording_Dir] naming that record path;
    the engine can read the record path back from that text.  (The
    statement is about what the wrapper asks for and in which order, as
    the log has it; what the file holds while another write to it is in
    flight is the file system's matter.) *)
Theorem join_requests_follow_their_write_request rev this st before after
    key token name acct appliteDir cfgPath :
  reachable rev this st ->
  log st = before ++ SdkJoinChannel key token name acct appliteDir cfgPath :: after ->
  exists rp,
    cfgPath = Path.join [rp; "/cfg.json"]
    /\ FsWriteFile cfgPath (JSON.stringify [("Recording_Dir", rp)]) ∈ before
    /\ JSON.parse (JSON.stringify [("Recording_Dir", rp)]) = Some [("Recording_Dir", rp)].
Proof.
  intros R Hs. pose proof (reachable_handoff_ok rev this st R) as H.
  destruct (handoff_joins st H before _ after cfgPath Hs eq_refl) as (rp & Hpath & Hin).
  exists rp. split; [exact Hpath|]. split; [exact Hin|].
  apply JSONFacts.parse_stringify.
Qed.

Lemma joined_reachable rev : reachable rev the_recorder (joined rev).
Proof. apply reach_turn, parked_reachable. Qed.

Lemma join_requests_follow_their_write_request_witness :
  exists rp,
    "/srv/app/output/2024-01-01/10:00:00 room1/cfg.json" = Path.join [rp; "/cfg.json"]
    /\ FsWriteFile "/srv/app/output/2024-01-01/10:00:00 room1/cfg.json"
         (JSON.stringify [("Recording_Dir", rp)]) ∈ log (parked part_000)
    /\ JSON.parse (JSON.stringify [("Recording_Dir", rp)]) = Some [("Recording_Dir", rp)].
Proof.
  refine (join_requests_follow_their_write_request part_000 the_recorder (joined part_000)
            (log (parked part_000))
            [SetTimeout 0 5000; EmitterOnce REC_EVENT_JOIN_CHANNEL; EmitterOnce REC_EVENT_ERROR]
            "A" (buildTokenWithAccount "A" "C" "room1" (Some "agora-recorder") SUBSCRIBER 0)
            "room1" (Some "agora-recorder") "/srv/app/node_modules/.bin"
            "/srv/app/output/2024-01-01/10:00:00 room1/cfg.json"
            (joined_reachable part_000) _).
  vm_compute. reflexivity.
Defined.

(** ** Timers *)

Lemma tally_app f l d : tally f (l ++ d) = tally f l + tally f d.
Proof. unfold tally. now rewrite List.filter_app, length_app. Qed.

Lemma tally_none f d : forallb (fun e => negb (f e)) d = true -> tally f d = 0.
Proof.
  unfold tally. induction d as [|e d IH]; [reflexivity|].
  cbn. destruct (f e); cbn; [discriminate | exact IH].
Qed.

Lemma settle_timers q o st : timers (snd (settle q o st)) = timers st.
Proof. unfold settle. destruct (promises st !! q) as [[| |]|]; reflexivity. Qed.

Lemma settle_listeners q o st : listeners (snd (settle q o st)) = listeners st.
Proof. unfold settle. destruct (promises st !! q) as [[| |]|]; reflexivity. Qed.

Lemma settle_tally f q o st :
  f (Settled q o) = false -> tally f (log (snd (settle q o st))) = tally f (log st).
Proof.
  intros Hf. destruct (settle_log q o st) as (d & -> & [-> | ->]).
  - now rewrite app_nil_r.
  - rewrite tally_app. unfold tally at 2. cbn. rewrite Hf. cbn. lia.
Qed.

Lemma handled_timers e args st l :
  timers (handled e args st l) = disarms l (timers st).
Proof.
  unfold handled, disarms, resolve, reject.
  destruct (l_handler l) as [p t|p t|id]; cbn [handler_timeout];
    rewrite ?settle_timers; try reflexivity; destruct t; reflexivity.
Qed.

Lemma handled_tally f e args st l :
  (forall q o, f (Settled q o) = false) ->
  (forall id ev a, f (Delivered id ev a) = false) ->
  tally f (log (handled e args st l))
  = tally f (log st)
    + match handler_timeout (l_handler l) with
      | Some id => tally f [ClearTimeout id]
      | None => 0
      end.
Proof.
  intros Hs Hd. unfold handled, resolve, reject.
  destruct (l_handler l) as [p t|p t|id]; cbn [handler_timeout].
  - rewrite settle_tally by apply Hs. rewrite cleared_log, tally_app. now destruct t.
  - rewrite settle_tally by apply Hs. rewrite cleared_log, tally_app. now destruct t.
  - cbn [log set_log]. rewrite tally_app. unfold tally at 2. cbn. rewrite Hd. reflexivity.
Qed.

Lemma fired_cons t ts : fired (t :: ts) = (if is_fired t then 1 else 0) + fired ts.
Proof. unfold fired. cbn. now destruct (is_fired t). Qed.

Lemma fired_alter_disarm id ts : fired (alter disarm id ts) = fired ts.
Proof.
  revert id. induction ts as [|t ts IH]; intros [|id]; try reflexivity.
  - change (alter disarm 0 (t :: ts)) with (disarm t :: ts).
    rewrite !fired_cons. now destruct t.
  - change (alter disarm (S id) (t :: ts)) with (t :: alter disarm id ts).
    now rewrite !fired_cons, IH.
Qed.

Lemma fired_insert id ts :
  ts !! id = Some Armed -> fired (<[id := Fired]> ts) = S (fired ts).
Proof.
  revert id. induction ts as [|t ts IH]; intros [|id] H; try discriminate.
  - cbn in H. injection H as ->. reflexivity.
  - change (<[S id := Fired]> (t :: ts)) with (t :: <[id := Fired]> ts).
    rewrite !fired_cons, (IH id H). lia.
Qed.

Lemma fired_le ts : fired ts <= length ts.
Proof. unfold fired. apply List.filter_length_le. Qed.

Lemma disarms_length l ts : length (disarms l ts) = length ts.
Proof. unfold disarms. destruct (handler_timeout _); [apply length_alter | reflexivity]. Qed.

Lemma disarms_fired l ts : fired (disarms l ts) = fired ts.
Proof. unfold disarms. destruct (handler_timeout _); [apply fired_alter_disarm | reflexivity]. Qed.

Lemma handled_timers_ok rev e args st l :
  (rev = AgoraRecorder_ts -> handler_timeout (l_handler l) = None) ->
  timers_ok rev st -> timers_ok rev (handled e args st l).
Proof.
  intros Hl [A B C D E]. split.
  - rewrite handled_timers, disarms_length, handled_tally by reflexivity.
    rewrite A. destruct (handler_timeout _); cbn; lia.
  - rewrite !handled_tally by reflexivity. destruct rev.
    + rewrite B. destruct (handler_timeout _); reflexivity.
    + rewrite B. destruct (handler_timeout _); reflexivity.
  - rewrite handled_timers, disarms_fired, handled_tally by reflexivity.
    rewrite C. destruct (handler_timeout _); cbn; lia.
  - intros Hrev. rewrite handled_listeners. now apply D.
  - intros Hrev. rewrite handled_tally by reflexivity.
    rewrite (Hl Hrev), (E Hrev). reflexivity.
Qed.

Lemma settle_timers_ok rev q o st :
  timers_ok rev st -> timers_ok rev (snd (settle q o st)).
Proof.
  intros [A B C D E].
  split; rewrite ?settle_timers, ?settle_listeners, ?settle_tally by reflexivity;
    assumption.
Qed.

Lemma step_timers_ok rev this st st' :
  timers_ok rev st -> step rev this st st' -> timers_ok rev st'.
Proof.
  intros H S. destruct S.
  - exact H.
  - destruct H as [A B C D E]. unfold suspended.
    split; cbn [timers log listeners set_awaiting set_log set_promises];
      rewrite ?tally_app; cbn; rewrite ?Nat.add_0_r; assumption.
  - apply settle_timers_ok. destruct H as [A B C D E]. split; assumption.
  - apply settle_timers_ok. destruct H as [A B C D E]. split; assumption.
  - destruct H as [A B C D E]. unfold joining, join_effects.
    split; cbn [timers log listeners set_awaiting set_log set_listeners set_timers set_fs_files].
    + destruct rev; rewrite ?length_app, tally_app; cbn; lia.
    + destruct rev; rewrite !tally_app; cbn; lia.
    + destruct rev; rewrite tally_app; cbn; [lia|].
      unfold fired in *. rewrite List.filter_app, length_app. cbn. lia.
    + intros -> l Hin. apply elem_of_app in Hin as [Hin|Hin]; [now apply D|].
      unfold arbiters in Hin. cbn in Hin.
      apply elem_of_cons in Hin as [->|Hin]; [reflexivity|].
      apply list_elem_of_singleton in Hin as ->. reflexivity.
    + intros ->. rewrite tally_app, E by reflexivity. reflexivity.
  - pose proof H as [A B C D E]. apply (emitted_ind (timers_ok rev)).
    + split; assumption || (intros Hrev l Hin; apply list_elem_of_filter in Hin as [_ Hin];
                             now apply D).
    + intros s l Hin _. apply handled_timers_ok. intros Hrev. now apply D.
  - destruct H as [A B C D E].
    split; cbn [timers log listeners set_log set_timers]; rewrite ?tally_app; cbn;
      rewrite ?Nat.add_0_r, ?length_insert; try assumption.
    rewrite C. rewrite fired_insert by assumption. lia.
  - destruct H as [A B C D E].
    split; cbn [timers log listeners set_log]; rewrite ?tally_app; cbn;
      rewrite ?Nat.add_0_r; assumption.
  - destruct H as [A B C D E].
    split; cbn [timers log listeners set_log]; rewrite ?tally_app; cbn;
      rewrite ?Nat.add_0_r; assumption.
  - destruct H as [A B C D E].
    split; cbn [timers log listeners set_listeners]; try assumption.
    intros Hrev l Hin. apply elem_of_app in Hin as [Hin|Hin]; [now apply D|].
    apply list_elem_of_singleton in Hin as ->. reflexivity.
  - destruct H as [A B C D E]. split; assumption.
  - destruct H as [A B C D E]. split; assumption.
  - destruct H as [A B C D E]. split; assumption.
Qed.

Lemma tally_cons f e l : tally f (e :: l) = (if f e then 1 else 0) + tally f l.
Proof. unfold tally. cbn. now destruct (f e). Qed.

Lemma tally_fmap_none {A} f (g : A -> Effect) (l : list A) :
  (forall x, f (g x) = false) -> tally f (g <$> l) = 0.
Proof.
  intros H. induction l as [|a l IH]; [reflexivity|].
  change (g <$> a :: l) with (g a :: (g <$> l)). now rewrite tally_cons, H, IH.
Qed.

Lemma engine_setup_tally rev c f :
  f SdkConstruct = false -> (forall n, f (SdkSetLogLevel n) = false) ->
  (forall e, f (SdkOn e) = false) ->
  tally f (engine_setup rev c) = 0.
Proof.
  intros H1 H2 H3. unfold engine_setup.
  rewrite tally_cons, H1, tally_app, tally_fmap_none by exact H3.
  destruct rev; [reflexivity|]. destruct (truthy_number _); [|reflexivity].
  now rewrite tally_cons, H2.
Qed.

Lemma reachable_timers_ok rev this st : reachable rev this st -> timers_ok rev st.
Proof.
  revert st. apply reachable_ind_step.
  - intros dir now denied objects cfg st H.
    destruct (constructed_fields _ _ _ _ _ _ _ _ H)
      as (c & p & _ & _ & _ & Ht & Hls & _ & _ & Hl).
    assert (T : forall f, f (FsMkdirSync p) = false -> f SdkConstruct = false ->
                          (forall n, f (SdkSetLogLevel n) = false) ->
                          (forall e, f (SdkOn e) = false) -> tally f (log st) = 0).
    { intros f F1 F2 F3 F4. rewrite Hl.
      change (FsMkdirSync p :: engine_setup rev (fill_defaults c))
        with ([FsMkdirSync p] ++ engine_setup rev (fill_defaults c)).
      rewrite tally_app, engine_setup_tally by assumption.
      unfold tally. cbn. now rewrite F1. }
    split; rewrite ?Ht, ?Hls, ?T by reflexivity; try reflexivity.
    + now destruct rev.
    + intros _ l Hin. now apply elem_of_nil in Hin.
  - intros st st' _ H S. now apply (step_timers_ok rev this st).
Qed.

(** X6. Timeouts are per join request, and advisory at most once each.
    In every reachable state the timeout message was printed at most as
    often as a timer was armed; the revision with the join timeout armed
    exactly one timer per join request, and the revision without it never
    armed or cleared a timer and never printed to the console. *)
Theorem timeouts_are_per_join_request rev this st :
  reachable rev this st ->
  tally is_console_error (log st) <= tally is_set_timeout (log st)
  /\ length (timers st) = tally is_set_timeout (log st)
  /\ match rev with
     | part_000 => tally is_set_timeout (log st) = tally is_join_request (log st)
     | AgoraRecorder_ts =>
         timers st = []
         /\ tally is_set_timeout (log st) = 0
         /\ tally is_clear_timeout (log st) = 0
         /\ tally is_console_error (log st) = 0
     end.
Proof.
  intros R. destruct (reachable_timers_ok rev this st R) as [A B C D E].
  pose proof (fired_le (timers st)) as F.
  split; [lia|]. split; [exact A|]. destruct rev; [|exact B].
  rewrite B in A. apply nil_length_inv in A as HA. rewrite HA in C.
  repeat split; auto.
Qed.

Lemma timed_out_reachable rev : reachable rev the_recorder (timed_out rev).
Proof. apply reach_turn, joined_reachable. Qed.

Lemma timeouts_are_per_join_request_witness :
  tally is_console_error (log (timed_out part_000)) = 1
  /\ tally is_set_timeout (log (timed_out part_000)) = 1
  /\ tally is_join_request (log (timed_out part_000)) = 1
  /\ tally is_console_error (log (timed_out AgoraRecorder_ts)) = 0.
Proof.
  pose proof (timeouts_are_per_join_request part_000 the_recorder (timed_out part_000)
                (timed_out_reachable part_000)) as (A & _ & C).
  pose proof (timeouts_are_per_join_request AgoraRecorder_ts the_recorder
                (timed_out AgoraRecorder_ts) (timed_out_reachable AgoraRecorder_ts))
    as (_ & _ & _ & _ & _ & D).
  assert (J : tally is_join_request (log (timed_out part_000)) = 1)
    by (vm_compute; reflexivity).
  assert (M : 1 <= tally is_console_error (log (timed_out part_000)))
    by (vm_compute; lia).
  rewrite J in C. rewrite C in A.
  split; [lia|]. split; [exact C|]. split; [exact J | exact D].
Defined.

(** ** What a completion callback does to the timers *)

Lemma disarm_idem x : disarm (disarm x) = disarm x.
Proof. now destruct x. Qed.

Lemma disarm_not_armed x : disarm x <> Armed.
Proof. now destruct x. Qed.

Lemma disarm_quiet x : x <> Armed -> disarm x = x.
Proof. now destruct x. Qed.

Lemma disarms_lookup l ts id :
  disarms l ts !! id
  = (if disarmed_by [l] id then disarm else fun x => x) <$> ts !! id.
Proof.
  unfold disarms, disarmed_by. cbn [existsb].
  destruct (handler_timeout (l_handler l)) as [t|]; cbn.
  - rewrite orb_false_r. destruct (Nat.eqb_spec t id) as [->|Hne].
    + rewrite list_lookup_alter. now rewrite decide_True by reflexivity.
    + rewrite list_lookup_alter, decide_False by assumption. now destruct (ts !! id).
  - now destruct (ts !! id).
Qed.

Lemma disarmed_by_cons l ls id :
  disarmed_by (l :: ls) id = (disarmed_by [l] id || disarmed_by ls id)%bool.
Proof. unfold disarmed_by. cbn [existsb]. now rewrite orb_false_r. Qed.

Lemma fold_disarms_lookup ls ts id :
  fold_left (fun ts l => disarms l ts) ls ts !! id
  = (if disarmed_by ls id then disarm else fun x => x) <$> ts !! id.
Proof.
  revert ts. induction ls as [|l ls IH]; intros ts.
  - cbn. now destruct (ts !! id).
  - cbn [fold_left]. rewrite IH, disarms_lookup, (disarmed_by_cons l ls id).
    generalize (disarmed_by [l] id) (disarmed_by ls id). clear IH.
    intros [] []; destruct (ts !! id) as [x|]; try reflexivity; destruct x; reflexivity.
Qed.

Lemma fold_handled_timers e args ls st :
  timers (fold_left (handled e args) ls st)
  = fold_left (fun ts l => disarms l ts) ls (timers st).
Proof.
  revert st. induction ls as [|l ls IH]; intros st; [reflexivity|].
  cbn [fold_left]. now rewrite IH, handled_timers.
Qed.

Lemma emitted_timers_lookup e args st id :
  timers (emitted e args st) !! id
  = (if disarmed_by (filter (fun l => listens_to e l = true) (listeners st)) id
     then disarm else fun x => x) <$> timers st !! id.
Proof. unfold emitted. now rewrite fold_handled_timers, fold_disarms_lookup. Qed.

Lemma disarmed_by_elem ls l id :
  l ∈ ls -> handler_timeout (l_handler l) = Some id -> disarmed_by ls id = true.
Proof.
  intros Hin Ht. unfold disarmed_by. apply existsb_exists. exists l.
  split; [now apply list_elem_of_In|]. rewrite Ht. apply Nat.eqb_refl.
Qed.

Lemma ages_refl ts : ages ts ts.
Proof. intros id x H. eauto. Qed.

Lemma ages_trans ts1 ts2 ts3 : ages ts1 ts2 -> ages ts2 ts3 -> ages ts1 ts3.
Proof.
  intros A B id x H. destruct (A id x H) as (y & Hy & Hxy).
  destruct (B id y Hy) as (z & Hz & Hyz). exists z. split; [exact Hz|].
  intros Hx. pose proof (Hxy Hx) as ->. now apply Hyz.
Qed.

Lemma step_ages rev this st st' : step rev this st st' -> ages (timers st) (timers st').
Proof.
  intros S. destruct S; unfold reject; rewrite ?settle_timers; try apply ages_refl.
  - unfold joining. cbn [timers set_log set_listeners set_timers set_fs_files set_awaiting].
    destruct rev; [apply ages_refl|]. intros id x Hx. exists x.
    split; [|reflexivity]. now apply lookup_app_l_Some.
  - intros id x Hx. rewrite emitted_timers_lookup, Hx. cbn.
    destruct (disarmed_by _ id); eexists; split; try reflexivity.
    intros Hq. now apply disarm_quiet.
  - cbn [timers set_log set_timers]. intros id' x Hx.
    destruct (decide (id = id')) as [<-|Hne].
    + exists Fired. split; [|congruence].
      apply list_lookup_insert_eq. now apply lookup_lt_Some in Hx.
    + exists x. split; [|reflexivity]. now rewrite list_lookup_insert_ne.
Qed.

Lemma run_turns_ages rev this ts st :
  reachable rev this st -> ages (timers st) (timers (run_turns rev this ts st)).
Proof.
  revert st. induction ts as [|t ts IH]; intros st R; [apply ages_refl|].
  cbn [run_turns fold_left]. apply (ages_trans _ (timers (run_turn rev this t st))).
  - apply (step_ages rev this), run_turn_step. now apply (reachable_wf rev).
  - apply IH. now apply reach_turn.
Qed.

Lemma step_armed_ok rev this st st' : armed_ok st -> step rev this st st' -> armed_ok st'.
Proof.
  intros H S. destruct S; try exact H.
  - intros id. unfold reject. rewrite settle_timers, settle_listeners. apply H.
  - intros id. unfold reject. rewrite settle_timers, settle_listeners. apply H.
  - unfold joining. intros id.
    cbn [timers listeners set_log set_listeners set_timers set_fs_files set_awaiting].
    destruct rev.
    + intros Hid. destruct (H id Hid) as [(l1 & I1 & E1 & T1) (l2 & I2 & E2 & T2)].
      split; [exists l1 | exists l2]; (split; [apply elem_of_app; now left | now split]).
    + intros Hid. apply lookup_app_Some in Hid as [Hid|[Hlen Hid]].
      * destruct (H id Hid) as [(l1 & I1 & E1 & T1) (l2 & I2 & E2 & T2)].
        split; [exists l1 | exists l2]; (split; [apply elem_of_app; now left | now split]).
      * assert (id = length (timers st)) as ->.
        { apply lookup_lt_Some in Hid. cbn in Hid. lia. }
        unfold arbiters. split; eexists; (split; [apply elem_of_app; right|]).
        -- apply list_elem_of_here.
        -- now split.
        -- apply list_elem_of_further, list_elem_of_here.
        -- now split.
  - intros id Hid. rewrite emitted_timers_lookup in Hid. rewrite emitted_listeners.
    destruct (timers st !! id) as [x|] eqn:Hx; [|discriminate].
    cbn in Hid. destruct (disarmed_by _ id) eqn:Hd.
    + injection Hid as Hid. now apply disarm_not_armed in Hid.
    + injection Hid as ->.
      destruct (H id Hx) as [(l1 & I1 & E1 & T1) (l2 & I2 & E2 & T2)].
      assert (K : forall l, l ∈ listeners st -> handler_timeout (l_handler l) = Some id ->
                            l ∈ filter (fun l => survives e l = true) (listeners st)).
      { intros l Il Tl. apply list_elem_of_filter. split; [|exact Il].
        unfold survives. destruct (listens_to e l) eqn:El; [|reflexivity].
        exfalso. enough (disarmed_by (filter (fun l => listens_to e l = true) (listeners st)) id
                         = true) by congruence.
        apply (disarmed_by_elem _ l); [|exact Tl].
        apply list_elem_of_filter. now split. }
      split; [exists l1 | exists l2]; (split; [now apply K | now split]).
  - intros id' Hid. cbn [timers listeners set_log set_timers] in Hid |- *.
    destruct (decide (id = id')) as [<-|Hne].
    + rewrite list_lookup_insert_eq in Hid by (eapply lookup_lt_Some; eassumption).
      discriminate.
    + rewrite list_lookup_insert_ne in Hid by assumption. now apply H.
  - intros id' Hid. cbn [timers listeners set_listeners] in Hid |- *.
    destruct (H id' Hid) as [(l1 & I1 & E1 & T1) (l2 & I2 & E2 & T2)].
    split; [exists l1 | exists l2]; (split; [apply elem_of_app; now left | now split]).
Qed.

Lemma reachable_armed_ok rev this st : reachable rev this st -> armed_ok st.
Proof.
  revert st. apply reachable_ind_step.
  - intros dir now denied objects cfg st H.
    destruct (constructed_fields _ _ _ _ _ _ _ _ H)
      as (c & p & _ & _ & _ & Ht & _).
    intros id Hid. rewrite Ht in Hid. discriminate.
  - intros st st' _ H S. now apply (step_armed_ok rev this st).
Qed.

Lemma completion_disarms rev this st e args id :
  reachable rev this st -> is_completion (T_native e args) = true ->
  timers (run_turn rev this (T_native e args) st) !! id <> Some Armed.
Proof.
  intros R He Hid. pose proof (reachable_wf rev this st R) as W.
  cbn [run_turn] in Hid. rewrite (native_callback_eq this) in Hid by exact W.
  rewrite emitted_timers_lookup in Hid.
  destruct (timers st !! id) as [x|] eqn:Hx; [|discriminate].
  cbn in Hid. destruct (disarmed_by _ id) eqn:Hd.
  - injection Hid as Hid. now apply disarm_not_armed in Hid.
  - injection Hid as ->.
    destruct (reachable_armed_ok rev this st R id Hx)
      as [(l1 & I1 & E1 & T1) (l2 & I2 & E2 & T2)].
    assert (exists l, l ∈ listeners st /\ listens_to e l = true
                      /\ handler_timeout (l_handler l) = Some id) as (l & Il & El & Tl).
    { destruct e; try discriminate; [exists l1 | exists l2];
        (split; [assumption|]); (split; [|assumption]); unfold listens_to;
        [rewrite E1 | rewrite E2]; reflexivity. }
    enough (disarmed_by (filter (fun l => listens_to e l = true) (listeners st)) id = true)
      by congruence.
    apply (disarmed_by_elem _ l); [|exact Tl]. apply list_elem_of_filter. now split.
Qed.

(** X7. A completion callback silences every timeout there is.  Whichever
    of the two completion callbacks the engine delivers, and whichever call
    of [start] it was meant for, no timer that existed when it arrived is
    armed afterwards, and none is ever armed again: when such a timer
    expires, whatever happened in between, the recorder does nothing, so
    no timeout message is printed for it. *)
Theorem completion_silences_every_timeout rev this st e args ts id :
  reachable rev this st ->
  is_completion (T_native e args) = true ->
  id < length (timers st) ->
  timers (run_turns rev this ts (run_turn rev this (T_native e args) st)) !! id
    <> Some Armed
  /\ run_turn rev this (T_timer id)
       (run_turns rev this ts (run_turn rev this (T_native e args) st))
     = run_turns rev this ts (run_turn rev this (T_native e args) st).
Proof.
  intros R He Hlt.
  pose proof (completion_disarms rev this st e args id R He) as Hq.
  apply lookup_lt_is_Some in Hlt as [x Hx].
  assert (S1 : ages (timers st) (timers (run_turn rev this (T_native e args) st))).
  { apply (step_ages rev this), run_turn_step. now apply (reachable_wf rev). }
  destruct (S1 id x Hx) as (y & Hy & _).
  assert (Hy' : y <> Armed) by congruence.
  destruct (run_turns_ages rev this ts _ (reach_turn rev this st (T_native e args) R) id y Hy)
    as (z & Hz & Hyz).
  rewrite (Hyz Hy') in Hz.
  set (s := run_turns rev this ts (run_turn rev this (T_native e args) st)) in *.
  split; [congruence|].
  change (timer_expired id s = s). unfold timer_expired. rewrite Hz. now destruct y.
Qed.

Lemma completion_silences_every_timeout_witness :
  timers (run_turns part_000 the_recorder [T_stop; T_start]
            (run_turn part_000 the_recorder join_error (joined part_000))) !! 0
    <> Some Armed
  /\ run_turn part_000 the_recorder (T_timer 0)
       (run_turns part_000 the_recorder [T_stop; T_start]
          (run_turn part_000 the_recorder join_error (joined part_000)))
     = run_turns part_000 the_recorder [T_stop; T_start]
         (run_turn part_000 the_recorder join_error (joined part_000)).
Proof.
  refine (completion_silences_every_timeout part_000 the_recorder (joined part_000)
            REC_EVENT_ERROR [VNum 5; VNum 101] [T_stop; T_start] 0
            (joined_reachable part_000) eq_refl _).
  vm_compute. lia.
Defined.

(** ** Calls in flight *)

Lemma settle_awaiting q o st : awaiting (snd (settle q o st)) = awaiting st.
Proof. unfold settle. destruct (promises st !! q) as [[| |]|]; reflexivity. Qed.

Lemma emitted_awaiting e args st : awaiting (emitted e args st) = awaiting st.
Proof.
  apply (emitted_ind (fun s => awaiting s = awaiting st)); [reflexivity|].
  intros s l _ _ H. now rewrite handled_awaiting.
Qed.

(** Only its own resumption takes a suspended call out of its suspension. *)
Lemma run_turn_awaiting rev this t st p s :
  wf this st -> awaiting st !! p = Some s -> resumes p t = false ->
  awaiting (run_turn rev this t st) !! p = Some s.
Proof.
  intros W Hp Ht. destruct t; cbn [run_turn]; try exact Hp.
  - rewrite start_call_eq. cbn [snd].
    destruct (fst (recordPath this st)) as [rp|e].
    + unfold suspended. cbn [awaiting set_awaiting set_log set_promises].
      rewrite lookup_insert_ne; [exact Hp|].
      pose proof (wf_awaiting _ _ W p s Hp) as Hpend.
      apply lookup_lt_Some in Hpend. lia.
    + unfold reject. now rewrite settle_awaiting.
  - cbn in Ht. apply Nat.eqb_neq in Ht.
    destruct (awaiting st !! promise) as [s'|] eqn:Hs.
    2:{ unfold write_done. now rewrite Hs. }
    destruct (wf_config _ _ W) as [c Hc].
    destruct (applite_dir_exists (cwd st)) as [bin Hbin].
    rewrite (write_done_eq rev this c promise s' bin st Hc Hbin Hs).
    destruct (fs_denied st (s_cfgPath s')).
    + unfold reject. rewrite settle_awaiting. cbn [awaiting set_awaiting].
      now rewrite lookup_delete_ne.
    + unfold joining.
      cbn [awaiting set_awaiting set_log set_listeners set_timers set_fs_files].
      now rewrite lookup_delete_ne.
  - rewrite (native_callback_eq this) by exact W. now rewrite emitted_awaiting.
  - unfold timer_expired. destruct (timers st !! id) as [[| |]|]; exact Hp.
Qed.

Lemma run_turns_awaiting rev this ts st p s :
  reachable rev this st -> awaiting st !! p = Some s ->
  forallb (fun t => negb (resumes p t)) ts = true ->
  awaiting (run_turns rev this ts st) !! p = Some s.
Proof.
  revert st. induction ts as [|t ts IH]; intros st R Hp Hts; [exact Hp|].
  cbn in Hts. apply andb_prop in Hts as [Ht Hts]. apply negb_true_iff in Ht.
  cbn [run_turns fold_left]. apply IH; [now apply reach_turn | | exact Hts].
  apply run_turn_awaiting; [now apply (reachable_wf rev) | exact Hp | exact Ht].
Qed.

(** X8. A suspended call waits for its own write, whatever else happens.
    While the write of [cfg.json] of a call of [start] is in flight,
    nothing but the completion of that write resumes the call: its
    promise stays pending and no settlement of it is logged, through
    completion callbacks of the engine, timers, other calls of [start],
    the resumptions of other calls and [stop].  A completion callback
    that arrives in this window is therefore lost for the call. *)
Theorem suspended_call_waits_for_its_write rev this st p s ts :
  reachable rev this st ->
  awaiting st !! p = Some s ->
  forallb (fun t => negb (resumes p t)) ts = true ->
  awaiting (run_turns rev this ts st) !! p = Some s
  /\ promises (run_turns rev this ts st) !! p = Some Pending
  /\ settlements p (log (run_turns rev this ts st)) = 0.
Proof.
  intros R Hp Hts.
  pose proof (run_turns_awaiting rev this ts st p s R Hp Hts) as Ha.
  pose proof (reachable_run_turns rev this ts st R) as R'.
  pose proof (reachable_wf rev this _ R') as W.
  pose proof (wf_awaiting _ _ W p s Ha) as Hpend.
  split; [exact Ha|]. split; [exact Hpend|].
  now rewrite (wf_log _ _ W p), Hpend.
Qed.

Lemma suspended_call_waits_for_its_write_witness :
  awaiting (run_turns part_000 the_recorder
              [join_success; join_error; T_timer 0; T_start; T_write_done 1; T_stop]
              (parked part_000)) !! 0
  = Some (cfg_request "/srv/app/output/2024-01-01/10:00:00 room1")
  /\ promises (run_turns part_000 the_recorder
                 [join_success; join_error; T_timer 0; T_start; T_write_done 1; T_stop]
                 (parked part_000)) !! 0
     = Some Pending
  /\ settlements 0
       (log (run_turns part_000 the_recorder
               [join_success; join_error; T_timer 0; T_start; T_write_done 1; T_stop]
               (parked part_000))) = 0.
Proof.
  exact (suspended_call_waits_for_its_write part_000 the_recorder (parked part_000) 0
           (cfg_request "/srv/app/output/2024-01-01/10:00:00 room1")
           [join_success; join_error; T_timer 0; T_start; T_write_done 1; T_stop]
           (parked_reachable part_000) (parked_awaiting part_000) eq_refl).
Defined.

Lemma run_turn_new_promise rev this t st p :
  wf this st -> length (promises st) <= p ->
  promises (run_turn rev this t st) !! p = Some Pending ->
  is_Some (awaiting (run_turn rev this t st) !! p).
Proof.
  intros W Hle Hp.
  assert (Hnone : promises st !! p = None) by now apply lookup_ge_None.
  destruct t; cbn [run_turn] in *; try congruence.
  - rewrite start_call_eq in *. cbn [snd] in *.
    destruct (fst (recordPath this st)) as [rp|e].
    + unfold suspended in *. cbn [awaiting promises set_awaiting set_log set_promises] in *.
      assert (p = length (promises st)) as ->.
      { apply lookup_lt_Some in Hp. rewrite length_app in Hp. cbn in Hp. lia. }
      rewrite lookup_insert_eq. eauto.
    + exfalso. unfold reject in Hp. rewrite settle_lookup in Hp.
      cbn [promises set_promises] in Hp. case_bool_decide as Hq.
      * destruct ((promises st ++ [Pending]) !! p) as [[| |]|]; discriminate.
      * apply lookup_lt_Some in Hp. rewrite length_app in Hp. cbn in Hp. lia.
  - exfalso. destruct (awaiting st !! promise) as [s'|] eqn:Hs.
    2:{ unfold write_done in Hp. rewrite Hs in Hp. congruence. }
    destruct (wf_config _ _ W) as [c Hc].
    destruct (applite_dir_exists (cwd st)) as [bin Hbin].
    rewrite (write_done_eq rev this c promise s' bin st Hc Hbin Hs) in Hp.
    destruct (fs_denied st (s_cfgPath s')).
    + unfold reject in Hp. rewrite settle_lookup in Hp. cbn [promises set_awaiting] in Hp.
      rewrite Hnone in Hp. case_bool_decide; discriminate.
    + unfold joining in Hp.
      cbn [promises set_awaiting set_log set_listeners set_timers set_fs_files] in Hp.
      congruence.
  - exfalso. rewrite (native_callback_eq this) in Hp by exact W.
    revert Hp. apply (emitted_ind (fun s => promises s !! p <> Some Pending)).
    + cbn [promises set_listeners]. congruence.
    + intros s l _ _ IH Hp. apply IH. clear IH.
      unfold handled, resolve, reject in Hp.
      destruct (l_handler l) as [q t|q t|id]; [| |exact Hp];
        rewrite settle_lookup, cleared_promises in Hp;
        case_bool_decide; [subst q| exact Hp | subst q | exact Hp];
        destruct (promises s !! p) as [[| |]|]; congruence.
  - unfold timer_expired in Hp. destruct (timers st !! id) as [[| |]|]; cbn in Hp; congruence.
  - exfalso. revert Hp. unfold run_sync, stop, bind, effect, modify.
    cbn [snd promises set_log]. congruence.
  - exfalso. revert Hp. cbn. congruence.
  - exfalso. revert Hp. cbn. congruence.
  - exfalso. revert Hp. cbn. congruence.
  - exfalso. revert Hp. cbn. congruence.
  - exfalso. revert Hp. cbn. congruence.
  - exfalso. revert Hp. cbn. congruence.
Qed.

Lemma run_turn_in_flight rev this t st :
  reachable rev this st -> in_flight_ok st -> in_flight_ok (run_turn rev this t st).
Proof.
  intros R H p Hp. pose proof (reachable_wf rev this st R) as W.
  destruct (promises st !! p) as [o|] eqn:Ho.
  2:{ left. apply (run_turn_new_promise rev this t st p W); [|exact Hp].
      now apply lookup_ge_None. }
  assert (o = Pending) as ->.
  { destruct o as [|v|r]; [reflexivity| |];
      rewrite (run_turn_keeps_settled rev this t st p _ W Ho) in Hp by discriminate;
      discriminate. }
  destruct (H p Ho) as [[s Hs]|Harb].
  - destruct (resumes p t) eqn:Ht.
    + destruct t; try discriminate. cbn in Ht. apply Nat.eqb_eq in Ht as ->.
      cbn [run_turn] in *.
      destruct (fs_denied st (s_cfgPath s)) eqn:Hd.
      * exfalso. destruct (wf_config _ _ W) as [c Hc].
        destruct (applite_dir_exists (cwd st)) as [bin Hbin].
        rewrite (write_done_eq rev this c p s bin st Hc Hbin Hs), Hd in Hp.
        unfold reject in Hp. rewrite settle_lookup in Hp.
        cbn [promises set_awaiting] in Hp. rewrite Ho in Hp.
        rewrite bool_decide_true in Hp by reflexivity. discriminate.
      * right. now apply (write_done_arbitrating rev this p s).
    + left. exists s. now apply run_turn_awaiting.
  - destruct (is_completion t) eqn:Ht.
    + exfalso. destruct t; try discriminate. destruct e; try discriminate.
      * rewrite (join_callback_fulfils rev this st p args R Harb) in Hp. discriminate.
      * rewrite (error_callback_rejects rev this st p args R Harb) in Hp. discriminate.
    + right. now apply run_turn_keeps_arbitrating.
Qed.

Lemma reachable_in_flight_ok rev this st : reachable rev this st -> in_flight_ok st.
Proof.
  intros R. induction R as [dir now denied objects cfg st H | st t R IH].
  - destruct (constructed_fields _ _ _ _ _ _ _ _ H) as (c & p & _ & _ & Hp & _).
    intros q Hq. rewrite Hp in Hq. discriminate.
  - now apply run_turn_in_flight.
Qed.

(** X9. A completion callback settles every call in flight.  The engine's
    completion callbacks are not matched to calls of [start]: in every
    reachable state, every pending promise whose call is not waiting for
    its write of [cfg.json] is fulfilled with [true] by the next
    [REC_EVENT_JOIN_CHANNEL] callback, and rejected with the first
    parameter by the next [REC_EVENT_ERROR] callback, whichever call the
    callback answers. *)
Theorem completion_settles_every_call_in_flight rev this st p args :
  reachable rev this st ->
  promises st !! p = Some Pending ->
  awaiting st !! p = None ->
  promises (run_turn rev this (T_native REC_EVENT_JOIN_CHANNEL args) st) !! p
  = Some (Fulfilled (VBool true))
  /\ promises (run_turn rev this (T_native REC_EVENT_ERROR args) st) !! p
     = Some (Rejected (first_parameter (parameters 2 args))).
Proof.
  intros R Hp Ha.
  destruct (reachable_in_flight_ok rev this st R p Hp) as [[s Hs]|Harb]; [congruence|].
  split; [now apply join_callback_fulfils | now apply error_callback_rejects].
Qed.

Lemma joined_twice_reachable rev : reachable rev the_recorder (joined_twice rev).
Proof. apply reachable_run_turns, reach_turn, parked_reachable. Qed.

Lemma completion_settles_every_call_in_flight_witness :
  promises (run_turn part_000 the_recorder (T_native REC_EVENT_JOIN_CHANNEL [VStr "room1"])
              (joined_twice part_000)) !! 1
  = Some (Fulfilled (VBool true))
  /\ promises (run_turn part_000 the_recorder (T_native REC_EVENT_ERROR [VStr "room1"])
                 (joined_twice part_000)) !! 1
     = Some (Rejected (first_parameter (parameters 2 [VStr "room1"]))).
Proof.
  refine (completion_settles_every_call_in_flight part_000 the_recorder (joined_twice part_000)
            1 [VStr "room1"] (joined_twice_reachable part_000) _ _);
    vm_compute; reflexivity.
Defined.

(** ** Where the recorder records *)








(** ** A call of [start] that cannot compute its record path *)

(** X11. [start] never throws; a failing getter rejects its promise.
    When the [recordPath] getter throws (the naming closure or the output
    directory was taken out of the shared configuration object), the call
    of [start] returns a promise that is rejected with that exception in
    the same turn: nothing is written, no call is parked, no listener is
    subscribed, and the promise stays rejected whatever happens later. *)
Theorem start_rejects_when_the_record_path_fails rev this st e ts :
  reachable rev this st ->
  fst (recordPath this st) = Throw e ->
  log (run_turn rev this T_start st)
  = log st ++ [Settled (length (promises st)) (Rejected e)]
  /\ promises (run_turn rev this T_start st) !! length (promises st) = Some (Rejected e)
  /\ awaiting (run_turn rev this T_start st) = awaiting st
  /\ listeners (run_turn rev this T_start st) = listeners st
  /\ fs_files (run_turn rev this T_start st) = fs_files st
  /\ promises (run_turns rev this ts (run_turn rev this T_start st)) !! length (promises st)
     = Some (Rejected e).
Proof.
  intros R He.
  assert (Hst : run_turn rev this T_start st
                = set_log (fun l => l ++ [Settled (length (promises st)) (Rejected e)])
                    (set_promises (fun l => <[length (promises st) := Rejected e]> l)
                       (set_promises (fun l => l ++ [Pending]) st))).
  { cbn [run_turn]. rewrite start_call_eq, He. cbn [snd]. unfold reject, settle.
    cbn [promises set_promises].
    rewrite lookup_app_r, Nat.sub_diag by lia. reflexivity. }
  assert (Hp : promises (run_turn rev this T_start st) !! length (promises st)
               = Some (Rejected e)).
  { rewrite Hst. cbn [promises set_promises set_log].
    apply list_lookup_insert_eq. rewrite length_app. cbn. lia. }
  split; [now rewrite Hst|]. split; [exact Hp|].
  split; [now rewrite Hst|]. split; [now rewrite Hst|]. split; [now rewrite Hst|].
  apply (run_turns_keeps_settled rev this ts _ _ (Rejected e));
    [now apply reach_turn | exact Hp | discriminate].
Qed.

Lemma unnamed_reachable rev : reachable rev the_recorder (unnamed rev).
Proof. apply reach_turn, constructed_reachable. Qed.

Lemma start_rejects_when_the_record_path_fails_witness :
  log (run_turn part_000 the_recorder T_start (unnamed part_000))
  = log (unnamed part_000)
    ++ [Settled (length (promises (unnamed part_000)))
          (Rejected (TypeError "this.config.recordDirTmpl is not a function"))]
  /\ promises (run_turn part_000 the_recorder T_start (unnamed part_000))
       !! length (promises (unnamed part_000))
     = Some (Rejected (TypeError "this.config.recordDirTmpl is not a function"))
  /\ awaiting (run_turn part_000 the_recorder T_start (unnamed part_000))
     = awaiting (unnamed part_000)
  /\ listeners (run_turn part_000 the_recorder T_start (unnamed part_000))
     = listeners (unnamed part_000)
  /\ fs_files (run_turn part_000 the_recorder T_start (unnamed part_000))
     = fs_files (unnamed part_000)
  /\ promises (run_turns part_000 the_recorder [T_write_done 0; join_success]
                 (run_turn part_000 the_recorder T_start (unnamed part_000)))
       !! length (promises (unnamed part_000))
     = Some (Rejected (TypeError "this.config.recordDirTmpl is not a function")).
Proof.
  refine (start_rejects_when_the_record_path_fails part_000 the_recorder (unnamed part_000)
            (TypeError "this.config.recordDirTmpl is not a function")
            [T_write_done 0; join_success] (unnamed_reachable part_000) _).
  vm_compute. reflexivity.
Defined.

(** ** Setting up *)

Lemma filter_all {A} (f : A -> bool) l : forallb f l = true -> List.filter f l = l.
Proof.
  induction l as [|a l IH]; [reflexivity|]. cbn. intros H.
  apply andb_prop in H as [Ha Hl]. now rewrite Ha, IH.
Qed.

Lemma filter_nothing {A} (f : A -> bool) l :
  forallb (fun a => negb (f a)) l = true -> List.filter f l = [].
Proof.
  induction l as [|a l IH]; [reflexivity|]. cbn. intros H.
  apply andb_prop in H as [Ha Hl]. apply negb_true_iff in Ha. now rewrite Ha, IH.
Qed.

Lemma allowed_not_setup t e : allowed t e = true -> negb (is_setup e) = true.
Proof. destruct t, e; try discriminate; reflexivity. Qed.

Lemma run_turns_setup rev this ts st :
  reachable rev this st ->
  List.filter is_setup (log (run_turns rev this ts st)) = List.filter is_setup (log st).
Proof.
  revert st. induction ts as [|t ts IH]; intros st R; [reflexivity|].
  change (run_turns rev this (t :: ts) st)
    with (run_turns rev this ts (run_turn rev this t st)).
  rewrite IH by now apply reach_turn.
  destruct (run_turn_log rev this st t (reachable_wf rev this st R)) as (d & -> & Hd).
  rewrite List.filter_app, (filter_nothing is_setup d), app_nil_r; [reflexivity|].
  apply forallb_forall. intros e He. rewrite forallb_forall in Hd.
  apply (allowed_not_setup t), Hd, He.
Qed.

Lemma relayed_events_NoDup : NoDup relayed_events.
Proof.
  unfold relayed_events.
  repeat (apply NoDup_cons; split;
          [intros Hin; repeat (apply elem_of_cons in Hin as [Hin|Hin]; [discriminate|]);
           now apply elem_of_nil in Hin|]).
  apply NoDup_nil_2.
Qed.

(** X12. The recorder is set up once, by the constructor.  For the whole
    life of a recorder the calls that set it up are the ones the
    constructor made, in this order: one [mkdirSync] of the record path,
    the construction of the engine, [setLogLevel] only in the revision
    that has it and only for a level that is present and not zero, and one
    subscription of a relay for each of the twenty-one events, none
    twice.  No method makes any of these calls again. *)
Theorem recorder_is_set_up_once rev this dir now denied objects cfg st ts :
  constructor rev cfg (initial_state dir now denied objects) = (Normal this, st) ->
  exists c p,
    objects !! cfg = Some c
    /\ List.filter is_setup (log (run_turns rev this ts st))
       = FsMkdirSync p :: SdkConstruct ::
         match rev, logLevel c with
         | part_000, Some level => if Z.eqb level 0 then [] else [SdkSetLogLevel level]
         | _, _ => []
         end ++ map SdkOn relayed_events
    /\ NoDup relayed_events
    /\ length relayed_events = 21
    /\ forall e, e ∈ relayed_events.
Proof.
  intros H. pose proof (reach_new rev this dir now denied objects cfg st H) as R.
  destruct (constructed_fields _ _ _ _ _ _ _ _ H) as (c & p & Hc & _ & _ & _ & _ & _ & _ & Hl).
  exists c, p. split; [exact Hc|]. split.
  - rewrite run_turns_setup, Hl by exact R.
    assert (Hlevel : logLevel (fill_defaults c) = logLevel c) by by_defaults c.
    unfold engine_setup, truthy_number. rewrite Hlevel.
    rewrite filter_all.
    + destruct rev; [reflexivity|]. destruct (logLevel c) as [n|]; [|reflexivity].
      now destruct (Z.eqb n 0).
    + cbn [forallb is_setup andb]. rewrite forallb_app. apply andb_true_intro. split.
      * destruct rev; [reflexivity|]. destruct (logLevel c) as [n|]; [|reflexivity].
        now destruct (Z.eqb n 0).
      * apply forallb_forall. intros e He. apply in_map_iff in He as (ev & <- & _).
        reflexivity.
  - split; [apply relayed_events_NoDup|]. split; [reflexivity|]. apply all_events_relayed.
Qed.

Lemma recorder_is_set_up_once_witness :
  exists c p,
    ({[ 0 := room1 ]} : gmap nat AgoraRecorderConfig) !! 0 = Some c
    /\ List.filter is_setup
         (log (run_turns part_000 the_recorder [T_start; T_write_done 0; join_success; T_stop]
                 (constructed part_000 room1)))
       = FsMkdirSync p :: SdkConstruct ::
         match logLevel c with
         | Some level => if Z.eqb level 0 then [] else [SdkSetLogLevel level]
         | None => []
         end ++ map SdkOn relayed_events
    /\ NoDup relayed_events
    /\ length relayed_events = 21
    /\ forall e, e ∈ relayed_events.
Proof.
  refine (recorder_is_set_up_once part_000 the_recorder
            "/srv/app" new_year_10am never_denied {[ 0 := room1 ]} 0
            (constructed part_000 room1)
            [T_start; T_write_done 0; join_success; T_stop] _).
  vm_compute. reflexivity.
Defined.

(** ** The closures of [start] on the emitter *)

Lemma step_closures_ok rev this st st' : closures_ok st -> step rev this st st' -> closures_ok st'.
Proof.
  intros H S. destruct S; try exact H.
  - intros l. unfold reject. rewrite settle_listeners. apply H.
  - intros l. unfold reject. rewrite settle_listeners. apply H.
  - intros l Hin. unfold joining in Hin.
    cbn [listeners set_log set_listeners set_timers set_fs_files set_awaiting] in Hin.
    apply elem_of_app in Hin as [Hin|Hin]; [now apply H|].
    unfold arbiters in Hin. apply elem_of_cons in Hin as [->|Hin]; [now split|].
    apply list_elem_of_singleton in Hin as ->. now split.
  - intros l Hin. rewrite emitted_listeners in Hin.
    apply list_elem_of_filter in Hin as [_ Hin]. now apply H.
  - intros l Hin. cbn [listeners set_listeners] in Hin.
    apply elem_of_app in Hin as [Hin|Hin]; [now apply H|].
    apply list_elem_of_singleton in Hin as ->. exact I.
Qed.

Lemma reachable_closures_ok rev this st : reachable rev this st -> closures_ok st.
Proof.
  revert st. apply reachable_ind_step.
  - intros dir now denied objects cfg st H.
    destruct (constructed_fields _ _ _ _ _ _ _ _ H) as (c & p & _ & _ & _ & _ & Hl & _).
    intros l Hin. rewrite Hl in Hin. now apply elem_of_nil in Hin.
  - intros st st' _ H S. now apply (step_closures_ok rev this st).
Qed.

Lemma callback_listeners rev this e args st :
  reachable rev this st ->
  listeners (run_turn rev this (T_native e args) st)
  = filter (fun l => survives e l = true) (listeners st).
Proof.
  intros R. cbn [run_turn].
  rewrite (native_callback_eq this) by now apply (reachable_wf rev).
  apply emitted_listeners.
Qed.

Lemma arbiter_consumed st e l :
  closures_ok st -> l ∈ listeners st -> l_event l = e ->
  (exists p t, l_handler l = H_join_resolve p t) \/ (exists p t, l_handler l = H_error_reject p t) ->
  survives e l = false.
Proof.
  intros H Hin He Hh. specialize (H l Hin). unfold survives, listens_to. rewrite He.
  destruct Hh as [(p & t & Hh)|(p & t & Hh)]; rewrite Hh in H; destruct H as [_ ->];
    now destruct e.
Qed.

(** X13. The closure that lost stays subscribed until its own event.  A
    call of [start] subscribes two one-shot closures and removes neither
    itself.  After the join request succeeded, the rejecting closure of
    that call is still subscribed for [REC_EVENT_ERROR] and the fulfilling
    one is gone; only the next error event removes it.  After the join
    request failed it is the other way round.  Once both events were
    delivered, no listener of the call is left. *)
Theorem losing_closure_stays_subscribed rev this st p s args args' :
  reachable rev this st ->
  awaiting st !! p = Some s ->
  fs_denied st (s_cfgPath s) = false ->
  let submitted := run_turn rev this (T_write_done p) st in
  let ok := T_native REC_EVENT_JOIN_CHANNEL args in
  let err := T_native REC_EVENT_ERROR args' in
  ((exists l, l ∈ listeners (run_turn rev this ok submitted) /\ error_arbiter_of p l)
   /\ forall l, l ∈ listeners (run_turn rev this ok submitted) -> ~ join_arbiter_of p l)
  /\ ((exists l, l ∈ listeners (run_turn rev this err submitted) /\ join_arbiter_of p l)
      /\ forall l, l ∈ listeners (run_turn rev this err submitted) -> ~ error_arbiter_of p l)
  /\ (forall l, l ∈ listeners (run_turns rev this [ok; err] submitted) ->
                handler_promise (l_handler l) <> Some p)
  /\ (forall l, l ∈ listeners (run_turns rev this [err; ok] submitted) ->
                handler_promise (l_handler l) <> Some p).
Proof.
  intros R Hp Hd submitted ok err.
  assert (R1 : reachable rev this submitted) by now apply reach_turn.
  assert (A : arbitrating p submitted).
  { apply (write_done_arbitrating rev this p s); [now apply (reachable_wf rev) | exact Hp | exact Hd]. }
  pose proof (reachable_closures_ok rev this submitted R1) as C.
  destruct A as [_ (lj & Ilj & Ej & tj & Hj) (le & Ile & Ee & te & He) Only].
  assert (Gone : forall e l, l ∈ listeners submitted -> l_event l = e ->
                             handler_promise (l_handler l) = Some p -> survives e l = false).
  { intros e l Il El Hl. apply (arbiter_consumed submitted e l C Il El).
    destruct (l_handler l) as [q t|q t|id]; [left | right | discriminate]; eauto. }
  assert (Stays : forall e l, l_event l <> e -> survives e l = true).
  { intros e l Hne. unfold survives, listens_to.
    destruct (event_eqb (l_event l) e) eqn:E; [|reflexivity].
    exfalso. apply Hne. destruct (l_event l), e; try discriminate; reflexivity. }
  repeat split.
  - exists le. split; [|split; [exact Ee | eauto]].
    unfold ok. rewrite callback_listeners by exact R1.
    apply list_elem_of_filter. split; [|exact Ile]. apply Stays. rewrite Ee. discriminate.
  - intros l Hin [El (t & Hl)]. unfold ok in Hin. rewrite callback_listeners in Hin by exact R1.
    apply list_elem_of_filter in Hin as [Hs Hin].
    rewrite (Gone _ l Hin El) in Hs; [discriminate | now rewrite Hl].
  - exists lj. split; [|split; [exact Ej | eauto]].
    unfold err. rewrite callback_listeners by exact R1.
    apply list_elem_of_filter. split; [|exact Ilj]. apply Stays. rewrite Ej. discriminate.
  - intros l Hin [El (t & Hl)]. unfold err in Hin. rewrite callback_listeners in Hin by exact R1.
    apply list_elem_of_filter in Hin as [Hs Hin].
    rewrite (Gone _ l Hin El) in Hs; [discriminate | now rewrite Hl].
  - intros l Hin Hl.
    change (run_turns rev this [ok; err] submitted)
      with (run_turn rev this err (run_turn rev this ok submitted)) in Hin.
    unfold err, ok in Hin.
    rewrite callback_listeners in Hin by now apply reach_turn.
    apply list_elem_of_filter in Hin as [Hs2 Hin].
    rewrite callback_listeners in Hin by exact R1.
    apply list_elem_of_filter in Hin as [Hs1 Hin].
    destruct (Only l Hin Hl) as [[El _]|[El _]].
    + rewrite (Gone _ l Hin El Hl) in Hs1. discriminate.
    + rewrite (Gone _ l Hin El Hl) in Hs2. discriminate.
  - intros l Hin Hl.
    change (run_turns rev this [err; ok] submitted)
      with (run_turn rev this ok (run_turn rev this err submitted)) in Hin.
    unfold err, ok in Hin.
    rewrite callback_listeners in Hin by now apply reach_turn.
    apply list_elem_of_filter in Hin as [Hs2 Hin].
    rewrite callback_listeners in Hin by exact R1.
    apply list_elem_of_filter in Hin as [Hs1 Hin].
    destruct (Only l Hin Hl) as [[El _]|[El _]].
    + rewrite (Gone _ l Hin El Hl) in Hs2. discriminate.
    + rewrite (Gone _ l Hin El Hl) in Hs1. discriminate.
Qed.

Lemma losing_closure_stays_subscribed_witness :
  exists l, l ∈ listeners (run_turn part_000 the_recorder join_success (joined part_000))
            /\ error_arbiter_of 0 l.
Proof.
  exact (proj1 (proj1 (losing_closure_stays_subscribed part_000 the_recorder (parked part_000) 0
                         (cfg_request "/srv/app/output/2024-01-01/10:00:00 room1")
                         [VStr "room1"; VStr "uid42"] [VNum 5; VNum 101]
                         (parked_reachable part_000) (parked_awaiting part_000) eq_refl))).
Defined.
